(** * core-data-loader: a shallow embedding of the Salesforce data loader

    The development follows the two source files of the repository:
    - [file-system.ts]: the JSON file helpers ([readJSONFile],
      [writeJSONFile], [ensureDir]);
    - the data loader proper ([getDataLoader]): the relation graph
      ([parent2childObjects], [child2parentSObjects]), the field resolver
      ([getFieldValue], [updateFieldValues], [SOQL_REGEX]) and the two
      memoised recursive walks ([loadSObjectData],
      [deleteLoadedSObjectData]).

    Strings are sequences of code units below 256 ([ascii]).  Promises
    are modelled by their outcome: every [await] of the loader is
    sequential except the [Promise.all] of the field resolver, whose
    lookups are read-only. *)

From Stdlib Require Import ZArith Ascii String List Lia.
From stdpp Require Import base option list strings pretty gmap fin_maps.

Local Open Scope string_scope.
Local Open Scope Z_scope.
Local Open Scope list_scope.
Set Warnings "-clear-no-such-hyp,-level-tolerance".

(** ** JavaScript values and strings *)

Module Js.

(** Parsed JSON, plus the members of [Object.prototype] that a property
    read on a plain object can return.  A number is kept as the text that
    [Number.prototype.toString] prints for it; an object is the list of
    its own enumerable properties in [Object.keys] order. *)
#[warnings="-register-all"]
Inductive value : Type :=
| VNull
| VBool (b : bool)
| VNum (repr : string)
| VStr (s : string)
| VArr (elems : list value)
| VObj (fields : list (string * value))
| VNative (name : string).

Definition record : Type := list (string * value).

(** [o[k]] on an object given by its own properties; [None] is [undefined]. *)
Fixpoint get (o : record) (k : string) : option value :=
  match o with
  | [] => None
  | (k', v) :: o' => if decide (k' = k) then Some v else get o' k
  end.

(** [delete o[k]] *)
Fixpoint delete_key (k : string) (o : record) : record :=
  match o with
  | [] => []
  | (k', v) :: o' =>
      if decide (k' = k) then delete_key k o' else (k', v) :: delete_key k o'
  end.

(** The keys an empty object literal inherits from [Object.prototype]. *)
Definition object_prototype_keys : list string :=
  [ "constructor"; "__defineGetter__"; "__defineSetter__"; "hasOwnProperty";
    "__lookupGetter__"; "__lookupSetter__"; "isPrototypeOf";
    "propertyIsEnumerable"; "toString"; "valueOf"; "__proto__";
    "toLocaleString" ].

(** Truthiness of a property read ([if (o[k])]). *)
Definition truthy (v : option value) : bool :=
  match v with
  | None | Some VNull | Some (VBool false) | Some (VStr "") => false
  | Some (VNum r) => negb (bool_decide (r = "0" ∨ r = "-0" ∨ r = "NaN"))
  | Some _ => true
  end.

Fixpoint join (sep : string) (l : list string) : string :=
  match l with
  | [] => ""
  | [x] => x
  | x :: l' => x +:+ sep +:+ join sep l'
  end.

(** [String(v)], as a template literal and a computed property key do it. *)
Fixpoint toString (v : value) : string :=
  match v with
  | VNull => "null"
  | VBool true => "true"
  | VBool false => "false"
  | VNum r => r
  | VStr s => s
  | VArr l =>
      join "," (map (fun x => match x with VNull => "" | _ => toString x end) l)
  | VObj _ => "[object Object]"
  | VNative "__proto__" => "[object Object]"
  | VNative "constructor" => "function Object() { [native code] }"
  | VNative n => "function " +:+ n +:+ "() { [native code] }"
  end.

Definition toStringOpt (v : option value) : string :=
  match v with
  | None => "undefined"
  | Some x => toString x
  end.

(** *** [String.prototype.indexOf] *)

Fixpoint startsWith (s p : string) {struct p} : bool :=
  match p, s with
  | EmptyString, _ => true
  | String a p', String b s' => if decide (a = b) then startsWith s' p' else false
  | String _ _, EmptyString => false
  end.

Fixpoint indexOfFrom (i : Z) (s p : string) : Z :=
  if startsWith s p then i
  else match s with
       | EmptyString => -1
       | String _ s' => indexOfFrom (i + 1) s' p
       end.

Definition indexOf (s p : string) : Z := indexOfFrom 0 s p.

(** *** [JSON.stringify] without indentation *)

Definition hexDigit (n : N) : ascii :=
  ascii_of_N (if (n <? 10)%N then 48 + n else 87 + n)%N.

Definition dquote : string := String (ascii_of_N 34) "".

Definition quoteChar (c : ascii) : string :=
  let n := N_of_ascii c in
  if decide (n = 34%N) then "\" +:+ dquote
  else if decide (n = 92%N) then "\\"
  else if decide (n = 8%N) then "\b"
  else if decide (n = 12%N) then "\f"
  else if decide (n = 10%N) then "\n"
  else if decide (n = 13%N) then "\r"
  else if decide (n = 9%N) then "\t"
  else if (n <? 32)%N then
    "\u00" +:+ String (hexDigit (n / 16)) (String (hexDigit (n mod 16)) "")
  else String c "".

Fixpoint quoteBody (s : string) : string :=
  match s with
  | EmptyString => ""
  | String c s' => quoteChar c +:+ quoteBody s'
  end.

Definition quote (s : string) : string := dquote +:+ quoteBody s +:+ dquote.

(** [None] stands for the [undefined] that a function serialises to: the
    property is left out of an object and printed as [null] in an array. *)
Fixpoint serialize (v : value) : option string :=
  match v with
  | VNull => Some "null"
  | VBool true => Some "true"
  | VBool false => Some "false"
  | VNum r => Some r
  | VStr s => Some (quote s)
  | VArr l =>
      Some ("[" +:+ join "," (map (fun x => default "null" (serialize x)) l) +:+ "]")
  | VObj fs =>
      Some ("{" +:+
            join "," (omap (fun kv => match serialize kv.2 with
                                      | Some t => Some (quote kv.1 +:+ ":" +:+ t)
                                      | None => None
                                      end) fs) +:+ "}")
  | VNative "__proto__" => Some "{}"
  | VNative _ => None
  end.

Definition stringify (records : list record) : string :=
  default "null" (serialize (VArr (map VObj records))).

End Js.

(** ** Regular expressions, as [String.prototype.match] runs them

    A backtracking matcher in continuation-passing style for the fragment
    that [SOQL_REGEX] uses: literals under the [i] flag, a greedy [+] and
    a lazy [*?] over a character class, capture groups, alternation and
    the end-of-input assertion. *)

Module Regex.

Inductive regex : Type :=
| Lit (p : string)
| Plus (cls : ascii → bool)
| StarLazy (cls : ascii → bool)
| Group (i : nat) (r : regex)
| Seq (r1 r2 : regex)
| Alt (r1 r2 : regex)
| EndOfInput.

(** Canonicalisation under [/i] (no [u] flag): only the ASCII letters fold. *)
Definition upper (c : ascii) : ascii :=
  let n := N_of_ascii c in
  if ((97 <=? n) && (n <=? 122))%N then ascii_of_N (n - 32) else c.

(** [\s] on code units below 256. *)
Definition is_space (c : ascii) : bool :=
  let n := N_of_ascii c in
  ((9 <=? n) && (n <=? 13) || (n =? 32) || (n =? 160))%N.

(** [.] without the [s] flag: anything but a line terminator. *)
Definition is_dot (c : ascii) : bool :=
  let n := N_of_ascii c in
  negb ((n =? 10) || (n =? 13))%N.

(** Strips the literal [p] off the front of [s], ignoring case. *)
Fixpoint literal (p s : string) {struct p} : option string :=
  match p, s with
  | EmptyString, _ => Some s
  | String a p', String b s' =>
      if decide (upper a = upper b) then literal p' s' else None
  | String _ _, EmptyString => None
  end.

Definition captures : Type := list (nat * string).

(** The text consumed between the input [s] and its suffix [s']. *)
Definition consumed (s s' : string) : string :=
  String.substring 0 (String.length s - String.length s') s.

Section Matcher.
Context {A : Type}.

Fixpoint starLazy (cls : ascii → bool) (s : string)
      (k : string → option A) : option A :=
    match k s with
    | Some a => Some a
    | None =>
        match s with
        | String c s' => if cls c then starLazy cls s' k else None
        | EmptyString => None
        end
    end.

Fixpoint starGreedy (cls : ascii → bool) (s : string)
      (k : string → option A) : option A :=
    match s with
    | String c s' =>
        if cls c then
          match starGreedy cls s' k with
          | Some a => Some a
          | None => k s
          end
        else k s
    | EmptyString => k s
    end.

Definition plusGreedy (cls : ascii → bool) (s : string)
      (k : string → option A) : option A :=
    match s with
    | String c s' => if cls c then starGreedy cls s' k else None
    | EmptyString => None
    end.

Fixpoint run (r : regex) (s : string) (c : captures)
      (k : string → captures → option A) : option A :=
    match r with
    | Lit p =>
        match literal p s with
        | Some s' => k s' c
        | None => None
        end
    | Plus cls => plusGreedy cls s (fun s' => k s' c)
    | StarLazy cls => starLazy cls s (fun s' => k s' c)
    | Group i r' => run r' s c (fun s' c' => k s' ((i, consumed s s') :: c'))
    | Seq r1 r2 => run r1 s c (fun s' c' => run r2 s' c' k)
    | Alt r1 r2 =>
        match run r1 s c k with
        | Some a => Some a
        | None => run r2 s c k
        end
    | EndOfInput =>
        match s with
        | EmptyString => k s c
        | String _ _ => None
        end
    end.
End Matcher.

(** The value of group [i]: the last capture recorded for it. *)
Fixpoint group (i : nat) (c : captures) : option string :=
  match c with
  | [] => None
  | (j, t) :: c' => if decide (j = i) then Some t else group i c'
  end.

(** One attempt at every start position, leftmost first. *)
Fixpoint search (r : regex) (s : string) : option (string * captures) :=
  match run r s [] (fun s' c => Some (consumed s s', c)) with
  | Some m => Some m
  | None =>
      match s with
      | String _ s' => search r s'
      | EmptyString => None
      end
  end.

(** [s.match(r)] for a regex with [n] groups and no [g] flag: [null], or
    the array of the matched text followed by the [n] groups. *)
Definition match_ (n : nat) (r : regex) (s : string)
    : option (list (option string)) :=
  match search r s with
  | Some (m, c) => Some (Some m :: map (fun i => group i c) (seq 1 n))
  | None => None
  end.

(** The words [r] matches at the front of an input: [lang r s s'] when
    [r] can consume [s] down to its suffix [s']. *)
Inductive lang : regex → string → string → Prop :=
| lang_lit p s s' : literal p s = Some s' → lang (Lit p) s s'
| lang_plus_one cls c s : cls c = true → lang (Plus cls) (String c s) s
| lang_plus_more cls c s s' :
    cls c = true → lang (Plus cls) s s' → lang (Plus cls) (String c s) s'
| lang_star_nil cls s : lang (StarLazy cls) s s
| lang_star_cons cls c s s' :
    cls c = true → lang (StarLazy cls) s s' → lang (StarLazy cls) (String c s) s'
| lang_group i r s s' : lang r s s' → lang (Group i r) s s'
| lang_seq r1 r2 s s1 s2 : lang r1 s s1 → lang r2 s1 s2 → lang (Seq r1 r2) s s2
| lang_alt_l r1 r2 s s' : lang r1 s s' → lang (Alt r1 r2) s s'
| lang_alt_r r1 r2 s s' : lang r2 s s' → lang (Alt r1 r2) s s'
| lang_end : lang EndOfInput "" "".

End Regex.

(** ** Errors and promise outcomes *)

Inductive error : Type :=
| LookupNotFound (query : string)
| CreateFailed (sobject : string)
| DeleteFailed (sobject : string) (ress : list Js.record)
| SystemError (code : string)
| SyntaxError
| TypeError
| RemoteError (reason : string).

(** The text of the [Error] objects the loader throws itself. *)
Definition message (e : error) : string :=
  match e with
  | LookupNotFound q =>
      "Didn't find any results for query " +:+ Js.dquote +:+ q +:+ Js.dquote
  | CreateFailed o => "We got an error trying to create records for " +:+ o
  | DeleteFailed o ress =>
      "We got an error trying to delete records for " +:+ o +:+ ": " +:+
      Js.stringify ress
  | SystemError code => code
  | SyntaxError => "SyntaxError"
  | TypeError => "TypeError"
  | RemoteError r => r
  end.

(** A settled promise of [void]. *)
Inductive outcome : Type :=
| Resolved
| Rejected (e : error).

(** ** file-system.ts *)

Module FileSystem.

(** What a path holds: a directory, a JSON file with a list of ids, a
    file whose text is not JSON, or a file the process may not open. *)
Inductive node : Type :=
| Dir
| Json (ids : list string)
| Corrupt
| Denied.

Abbreviation disk := (gmap string node).

Definition mkdir (p : string) (d : disk) : error + disk :=
  match d !! p with
  | Some _ => inl (SystemError "EEXIST")
  | None => inr (<[p := Dir]> d)
  end.

(** [fs.readFile] followed by [JSON.parse] *)
Definition readJSONFile (p : string) (d : disk) : error + list string :=
  match d !! p with
  | None => inl (SystemError "ENOENT")
  | Some Dir => inl (SystemError "EISDIR")
  | Some Denied => inl (SystemError "EACCES")
  | Some Corrupt => inl SyntaxError
  | Some (Json ids) => inr ids
  end.

Definition writeFile (p : string) (ids : list string) (d : disk) : error + disk :=
  match d !! p with
  | Some Dir => inl (SystemError "EISDIR")
  | Some Denied => inl (SystemError "EACCES")
  | _ => inr (<[p := Json ids]> d)
  end.

(** [ensureDir]: an existing path is not an error, anything else is. *)
Definition ensureDir (p : string) (d : disk) : outcome * disk :=
  match mkdir p d with
  | inr d' => (Resolved, d')
  | inl (SystemError "EEXIST") => (Resolved, d)
  | inl err => (Rejected err, d)
  end.

(** [writeJSONFile] starts [writeFile] and returns without awaiting it:
    the promise it returns resolves whether or not the write succeeds.
    The model applies the write where the code starts it; what depends
    on when the write lands is stated with the file either written or
    not there yet. *)
Definition writeJSONFile (p : string) (ids : list string) (d : disk)
    : outcome * disk :=
  match writeFile p ids d with
  | inr d' => (Resolved, d')
  | inl _ => (Resolved, d)
  end.

End FileSystem.

(** ** The remote store, as the loader sees it

    [find] is a query, so it reads the remote state; [create] and
    [destroy] also change it.  Whatever the connection rejects with is an
    [error]. *)

Inductive conditions : Type :=
| Where (text : string)
| IdIn (ids : list string).

Inductive fields : Type :=
| Select (text : string)
| IdOnly.

Record CreateResult : Type := { success : bool; id : string }.

Record RemoteStore : Type := {
  rstate : Type;
  find : rstate → bool → string → conditions → fields → option nat →
         error + list string;
  create : rstate → bool → string → list Js.record →
           (error + list CreateResult) * rstate;
  destroy : rstate → bool → string → list string →
            (error + list Js.record) * rstate
}.

(** ** The data loader *)

Module Loader.
Import Js.

(** [/SELECT\s+(.*?)\s+FROM\s+(.*?)\s+WHERE\s+(.*?)($|\s+ORDER BY\s+)/i] *)
Definition SOQL_REGEX : Regex.regex :=
  let ws := Regex.Plus Regex.is_space in
  let any i := Regex.Group i (Regex.StarLazy Regex.is_dot) in
  Regex.Seq (Regex.Lit "SELECT") (Regex.Seq ws (Regex.Seq (any 1%nat)
  (Regex.Seq ws (Regex.Seq (Regex.Lit "FROM") (Regex.Seq ws (Regex.Seq (any 2%nat)
  (Regex.Seq ws (Regex.Seq (Regex.Lit "WHERE") (Regex.Seq ws (Regex.Seq (any 3%nat)
  (Regex.Group 4 (Regex.Alt Regex.EndOfInput
     (Regex.Seq ws (Regex.Seq (Regex.Lit "ORDER BY") ws)))))))))))))).

(** [_.zipObject(keys, values)] into [m]: a later key overwrites an
    earlier one, and a key left without a value holds [undefined], which
    a property read cannot tell from an absent key. *)
Fixpoint zipObjectInto {V : Type} (ks : list string) (vs : list V)
    (m : gmap string V) : gmap string V :=
  match ks with
  | [] => m
  | k :: ks' =>
      match vs with
      | v :: vs' => zipObjectInto ks' vs' (<[k := v]> m)
      | [] => zipObjectInto ks' [] (delete k m)
      end
  end.

Definition zipObject {V : Type} (ks : list string) (vs : list V)
    : gmap string V :=
  zipObjectInto ks vs ∅.

(** [_.merge(object, source)] for string-valued sources: every defined
    source property is assigned to [object]. *)
Definition merge (object source : gmap string string) : gmap string string :=
  source ∪ object.

(** [object[k]] on an object born as the literal [{}]. *)
Definition read (object : gmap string string) (k : string) : option value :=
  match object !! k with
  | Some v => Some (VStr v)
  | None =>
      if bool_decide (k ∈ object_prototype_keys) then Some (VNative k) else None
  end.

(** What the closure returned by [getDataLoader] captures. *)
Record loader : Type := {
  sobjects : list string;
  parent2childObjects : gmap string (list string);
  child2parentSObjects : gmap string (list string);
  toolingSObjects : list string;
  sobjectIdsPath : string
}.

(** [path.join(sobjectIdsPath, sobject + '.json')] *)
Definition idsFile (L : loader) (sobject : string) : string :=
  sobjectIdsPath L +:+ "/" +:+ sobject +:+ ".json".

(** The connection [$] picks: [true] for the tooling API. *)
Definition tooling (L : loader) (sobject : string) : bool :=
  bool_decide (sobject ∈ toolingSObjects L).

(** *** The relation graph *)

Definition recordsOf (sobject2records : gmap string (list record))
    (sobject : string) : list record :=
  default [] (sobject2records !! sobject).

(** The template literal with the id of a parent record between quotes. *)
Definition quotedId (parentRecord : record) : string :=
  dquote +:+ toStringOpt (get parentRecord "id") +:+ dquote.

Definition references (sobject2records : gmap string (list record))
    (parentSObject childSObject : string) : bool :=
  existsb
    (fun parentRecords =>
       bool_decide
         (0 ≤ indexOf (stringify (recordsOf sobject2records childSObject))
                      (quotedId parentRecords)))
    (recordsOf sobject2records parentSObject).

Definition childrenOf (sobjects : list string)
    (sobject2records : gmap string (list record)) (parentSObject : string)
    : list string :=
  filter (fun childSObject => references sobject2records parentSObject childSObject = true)
    (filter (fun childSObject => parentSObject ≠ childSObject) sobjects).

(** The [forEach] loops that fill the two dictionaries, key by key. *)
Definition build_parent2childObjects (sobjects : list string)
    (sobject2records : gmap string (list record)) : gmap string (list string) :=
  foldl (fun acc parentSObject =>
           <[parentSObject := childrenOf sobjects sobject2records parentSObject]> acc)
        ∅ sobjects.

Definition parentsOf (sobjects : list string)
    (parent2child : gmap string (list string)) (childSObject : string)
    : list string :=
  filter (fun parentSObject =>
            0 ≤ match parent2child !! parentSObject with
                | Some children =>
                    match list_find (fun c => c = childSObject) children with
                    | Some (i, _) => Z.of_nat i
                    | None => -1
                    end
                | None => -1
                end)
         sobjects.

Definition build_child2parentSObjects (sobjects : list string)
    (parent2child : gmap string (list string)) : gmap string (list string) :=
  foldl (fun acc childSObject =>
           <[childSObject := parentsOf sobjects parent2child childSObject]> acc)
        ∅ sobjects.

(** [getDataLoader], from the names [listJSONFiles] returned and the
    records read for each: the names starting with [__] are dropped, the
    records are zipped under their names and the graph is computed once. *)
Definition getDataLoader (idsPath : string) (toolingNames : list string)
    (listing : list (string * list record))
    : loader * gmap string (list record) :=
  let entries := filter (fun e => startsWith e.1 "__" = false) listing in
  let sobjects := map fst entries in
  let sobject2records := zipObject sobjects (map snd entries) in
  let parent2child := build_parent2childObjects sobjects sobject2records in
  ({| sobjects := sobjects;
      parent2childObjects := parent2child;
      child2parentSObjects := build_child2parentSObjects sobjects parent2child;
      toolingSObjects := toolingNames;
      sobjectIdsPath := idsPath |},
   sobject2records).

(** *** What a run can be observed to do

    The [console.debug] lines of the two walks, the calls made to the
    remote store and to the file system, and two markers: the start of a
    collection's field resolution, with the identity map it reads, and
    the [_.merge] that ends a collection's load, with the pairs merged
    and the identity map it leaves. *)
Inductive event : Type :=
| CreatingStarted (sobject : string)
| Resolving (sobject : string) (old2newId : gmap string string)
| Finding (tooling : bool) (soqlFrom soqlWhere soqlSelect : string)
| BeforeCreating (sobject : string) (oldRecords : list record)
| Created (sobject : string) (newRecords : list CreateResult)
| Writing (file : string) (newRecordsIds : list string)
| Merged (sobject : string) (pairs old2newId : gmap string string)
| CreatingDone (sobject : string) (newRecordsIds : list string)
| DeletingStarted (sobject : string)
| ReadIds (file : string)
| DeletingSkipped (sobject : string)
| Destroyed (sobject : string) (ids : list string) (ress : list record)
| DeletingDone (sobject : string) (ids : list string).

Section Run.
Context (R : RemoteStore) (L : loader).

(** **** The field resolver

    A resolution returns the lookups it issued, the value the slot
    holds once every lookup has answered, and the first failure in
    field order if there is one.  ([Promise.all] rejects with the
    failure that arrives first; the other lookups still complete and
    assign their slots.) *)
Definition resolution (T : Type) : Type := list event * T * option error.

Definition firstError (e1 e2 : option error) : option error :=
  match e1 with
  | Some e => Some e
  | None => e2
  end.

(** [Object.keys(record).map(async field => ...)] over the own
    properties of an object, and over the indices of an array. *)
Definition overFields (f : value → resolution value)
    : list (string * value) → resolution (list (string * value)) :=
  fix go fs :=
    match fs with
    | [] => ([], [], None)
    | (field, v) :: rest =>
        let '(ev1, v', e1) := f v in
        let '(ev2, rest', e2) := go rest in
        (ev1 ++ ev2, (field, v') :: rest', firstError e1 e2)
    end.

Definition overElems (f : value → resolution value)
    : list value → resolution (list value) :=
  fix go l :=
    match l with
    | [] => ([], [], None)
    | v :: rest =>
        let '(ev1, v', e1) := f v in
        let '(ev2, rest', e2) := go rest in
        (ev1 ++ ev2, v' :: rest', firstError e1 e2)
    end.

Section Resolver.
Context (remote : rstate R) (old2newId : gmap string string).

(** The last step of [getFieldValue]: the text is replaced by what the
    identity map holds for it, when that is truthy. *)
Definition fromIdentityMap (s : string) : resolution Js.value :=
  if truthy (read old2newId s)
  then ([], default (VStr s) (read old2newId s), None)
  else ([], VStr s, None).

(** [getFieldValue] and, for the values [_.isObject] accepts (objects,
    arrays and functions), [updateFieldValues] on the value itself. *)
Fixpoint getFieldValue (value : Js.value) : resolution Js.value :=
  match value with
  | VObj fs =>
      let '(ev, fs', e) := overFields getFieldValue fs in (ev, VObj fs', e)
  | VArr l =>
      let '(ev, l', e) := overElems getFieldValue l in (ev, VArr l', e)
  | VNative _ => ([], value, None)
  | VNull | VBool _ | VNum _ => ([], value, None)
  | VStr s =>
      match Regex.match_ 4 SOQL_REGEX s with
      | Some matches =>
          if bool_decide (3 < length matches)%nat then
            let soqlSelect := default "" (mjoin (matches !! 1%nat)) in
            let soqlFrom := default "" (mjoin (matches !! 2%nat)) in
            let soqlWhere := default "" (mjoin (matches !! 3%nat)) in
            let call :=
              [Finding (tooling L soqlFrom) soqlFrom soqlWhere soqlSelect] in
            match find R remote (tooling L soqlFrom) soqlFrom
                    (Where soqlWhere) (Select soqlSelect) (Some 1%nat) with
            | inl err => (call, value, Some err)
            | inr data =>
                match head data with
                | None => (call, value, Some (LookupNotFound s))
                | Some Id => (call, VStr Id, None)
                end
            end
          else fromIdentityMap s
      | None => fromIdentityMap s
      end
  end.

Definition updateFieldValues (record : Js.record) : resolution Js.record :=
  overFields getFieldValue record.

(** [Promise.all(oldRecords.map(updateFieldValues))] *)
Fixpoint updateAll (oldRecords : list Js.record)
    : resolution (list Js.record) :=
  match oldRecords with
  | [] => ([], [], None)
  | r :: rest =>
      let '(ev1, r', e1) := updateFieldValues r in
      let '(ev2, rest', e2) := updateAll rest in
      (ev1 ++ ev2, r' :: rest', firstError e1 e2)
  end.
End Resolver.

(** **** State of a run *)

Record world : Type := {
  remote : rstate R;
  disk : gmap string FileSystem.node;
  sobject2records : gmap string (list Js.record)
}.

(** One call of [loadData]: the world, the [old2newId] object, the
    cache of [_.memoize] and what was observed so far. *)
Record lstate : Type := {
  l_world : world;
  old2newId : gmap string string;
  l_cache : gmap string outcome;
  l_log : list event
}.

Definition l_emit (evs : list event) (st : lstate) : lstate :=
  {| l_world := l_world st; old2newId := old2newId st;
     l_cache := l_cache st; l_log := l_log st ++ evs |}.

(** [cache.set(sobject, promise)] of [_.memoize] *)
Definition l_memo (sobject : string) (o : outcome) (st : lstate) : lstate :=
  {| l_world := l_world st; old2newId := old2newId st;
     l_cache := <[sobject := o]> (l_cache st); l_log := l_log st |}.

Definition l_settle (sobject : string) (r : outcome * lstate)
    : option (outcome * lstate) :=
  Some (r.1, l_memo sobject r.1 r.2).

(** [for (const x of xs) { await f(x); }]: the first rejection leaves
    the loop; [None] is a call that never settles. *)
Fixpoint forAwait {S : Type} (f : string → S → option (outcome * S))
    (xs : list string) (st : S) : option (outcome * S) :=
  match xs with
  | [] => Some (Resolved, st)
  | x :: xs' =>
      match f x st with
      | None => None
      | Some (Rejected e, st') => Some (Rejected e, st')
      | Some (Resolved, st') => forAwait f xs' st'
      end
  end.

(** The body of [loadSObjectData] after its parents are loaded.  The
    records are resolved and stripped of their [id] in place, so the
    store holds the new records whatever happens next. *)
Definition loadRecords (sobject : string) (st : lstate) : outcome * lstate :=
  let w := l_world st in
  let ids := old2newId st in
  let finish o remote' disk' store' ids' events :=
    (o, {| l_world := {| remote := remote'; disk := disk';
                         sobject2records := store' |};
           old2newId := ids'; l_cache := l_cache st;
           l_log := l_log st ++ events |}) in
  match sobject2records w !! sobject with
  | None => (Rejected TypeError, st)
  | Some oldRecords =>
      let '(lookups, resolved, failure) := updateAll (remote w) ids oldRecords in
      let ev1 := Resolving sobject ids :: lookups in
      match failure with
      | Some err =>
          finish (Rejected err) (remote w) (disk w)
            (<[sobject := resolved]> (sobject2records w)) ids ev1
      | None =>
          let oldRecordsIds := map (fun r => get r "id") resolved in
          let stripped := map (delete_key "id") resolved in
          let store := <[sobject := stripped]> (sobject2records w) in
          let ev2 := ev1 ++ [BeforeCreating sobject stripped] in
          match create R (remote w) (tooling L sobject) sobject stripped with
          | (inl err, remote') =>
              finish (Rejected err) remote' (disk w) store ids ev2
          | (inr newRecords, remote') =>
              let ev3 := ev2 ++ [Created sobject newRecords] in
              if existsb (fun res => negb (success res)) newRecords then
                finish (Rejected (CreateFailed sobject)) remote' (disk w)
                  store ids ev3
              else
                let newRecordsIds := map id newRecords in
                let file := idsFile L sobject in
                let disk' :=
                  (FileSystem.writeJSONFile file newRecordsIds (disk w)).2 in
                let pairs :=
                  zipObject (map toStringOpt oldRecordsIds) newRecordsIds in
                let merged := merge ids pairs in
                finish Resolved remote' disk' store merged
                  (ev3 ++ [Writing file newRecordsIds;
                           Merged sobject pairs merged;
                           CreatingDone sobject newRecordsIds])
          end
      end
  end.

(** [loadSObjectData = _.memoize(async sobject => ...)].  A cached
    promise is returned as it is; otherwise the body runs and its
    promise is cached under the name.  [_.memoize] stores the promise
    when the body first suspends, the model when it settles: in between,
    the name can only be requested again from inside its own body, along
    a cycle of the graph.  [fuel] bounds the depth of the recursion into
    parents: [None] is a walk that does not come back.  On a cyclic
    graph the recursion of the code does not end either (it runs out of
    call stack); the model has no run there and says nothing of it. *)
Fixpoint loadSObjectData (fuel : nat) (sobject : string) (st : lstate)
    : option (outcome * lstate) :=
  match l_cache st !! sobject with
  | Some o => Some (o, st)
  | None =>
      match fuel with
      | O => None
      | S fuel' =>
          let st := l_emit [CreatingStarted sobject] st in
          match child2parentSObjects L !! sobject with
          | None => l_settle sobject (Rejected TypeError, st)
          | Some parents =>
              match forAwait (loadSObjectData fuel') parents st with
              | None => None
              | Some (Rejected e, st') => l_settle sobject (Rejected e, st')
              | Some (Resolved, st') => l_settle sobject (loadRecords sobject st')
              end
          end
      end
  end.

(** [loadData]: a fresh identity map and a fresh cache, then every
    collection in turn. *)
Definition loadData (fuel : nat) (w : world)
    : option ((error + gmap string string) * world * list event) :=
  let st := {| l_world := w; old2newId := ∅; l_cache := ∅; l_log := [] |} in
  match forAwait (loadSObjectData fuel) (sobjects L) st with
  | None => None
  | Some (Rejected e, st') => Some (inl e, l_world st', l_log st')
  | Some (Resolved, st') => Some (inr (old2newId st'), l_world st', l_log st')
  end.

(** One call of [deleteLoadedData].  The walk never touches the
    records, so its state carries only the remote store and the disk. *)
Record dstate : Type := {
  d_remote : rstate R;
  d_disk : gmap string FileSystem.node;
  d_cache : gmap string outcome;
  d_log : list event
}.

Definition d_emit (evs : list event) (st : dstate) : dstate :=
  {| d_remote := d_remote st; d_disk := d_disk st; d_cache := d_cache st;
     d_log := d_log st ++ evs |}.

Definition d_memo (sobject : string) (o : outcome) (st : dstate) : dstate :=
  {| d_remote := d_remote st; d_disk := d_disk st;
     d_cache := <[sobject := o]> (d_cache st); d_log := d_log st |}.

Definition d_settle (sobject : string) (r : outcome * dstate)
    : option (outcome * dstate) :=
  Some (r.1, d_memo sobject r.1 r.2).

(** The body of [deleteLoadedSObjectData] after its children are
    deleted.  The [catch] around [readJSONFile] has no condition. *)
Definition deleteRecords (sobject : string) (st : dstate) : outcome * dstate :=
  let sobjectIdsFile := idsFile L sobject in
  let finish o remote' events :=
    (o, {| d_remote := remote'; d_disk := d_disk st; d_cache := d_cache st;
           d_log := d_log st ++ events |}) in
  let ev1 := [ReadIds sobjectIdsFile] in
  match FileSystem.readJSONFile sobjectIdsFile (d_disk st) with
  | inl _ => finish Resolved (d_remote st) (ev1 ++ [DeletingSkipped sobject])
  | inr ids =>
      match find R (d_remote st) (tooling L sobject) sobject (IdIn ids)
              IdOnly None with
      | inl err => finish (Rejected err) (d_remote st) ev1
      | inr recs =>
          match destroy R (d_remote st) (tooling L sobject) sobject recs with
          | (inl err, remote') => finish (Rejected err) remote' ev1
          | (inr ress, remote') =>
              let ev2 := ev1 ++ [Destroyed sobject recs ress] in
              if existsb (fun res => negb (truthy (get res "success"))) ress
              then finish (Rejected (DeleteFailed sobject ress)) remote' ev2
              else finish Resolved remote' (ev2 ++ [DeletingDone sobject ids])
          end
      end
  end.

(** [deleteLoadedSObjectData = _.memoize(async sobject => ...)], over the
    children. *)
Fixpoint deleteLoadedSObjectData (fuel : nat) (sobject : string) (st : dstate)
    : option (outcome * dstate) :=
  match d_cache st !! sobject with
  | Some o => Some (o, st)
  | None =>
      match fuel with
      | O => None
      | S fuel' =>
          let st := d_emit [DeletingStarted sobject] st in
          match parent2childObjects L !! sobject with
          | None => d_settle sobject (Rejected TypeError, st)
          | Some children =>
              match forAwait (deleteLoadedSObjectData fuel') children st with
              | None => None
              | Some (Rejected e, st') => d_settle sobject (Rejected e, st')
              | Some (Resolved, st') => d_settle sobject (deleteRecords sobject st')
              end
          end
      end
  end.

(** [deleteLoadedData]: a fresh cache, then every collection in turn. *)
Definition deleteLoadedData (fuel : nat) (w : world)
    : option (outcome * world * list event) :=
  let st := {| d_remote := remote w; d_disk := disk w; d_cache := ∅;
               d_log := [] |} in
  match forAwait (deleteLoadedSObjectData fuel) (sobjects L) st with
  | None => None
  | Some (o, st') =>
      Some (o, {| remote := d_remote st'; disk := d_disk st';
                  sobject2records := sobject2records w |}, d_log st')
  end.

End Run.

Arguments remote {R}.
Arguments disk {R}.
Arguments sobject2records {R}.
Arguments Build_world {R}.

End Loader.

(** ** A reference remote store

    A small store to run the loader against: it holds the live records as
    pairs of a collection and an id, answers an embedded query from a
    fixed table, numbers the ids it assigns, and reports a failed create
    for the collections listed in [failing]. *)

Module Demo.
Import Js Loader.

Section Store.
Context (answers : string → list string) (failing : list string).

Definition live : Type := list (string * string).

Definition demo_find (st : live) (_ : bool) (sobject : string)
    (c : conditions) (_ : fields) (limit : option nat) : error + list string :=
  let all :=
    match c with
    | Where _ => answers sobject
    | IdIn ids => filter (fun i => (sobject, i) ∈ st) ids
    end in
  inr (match limit with Some n => take n all | None => all end).

Definition demo_create (st : live) (_ : bool) (sobject : string)
    (records : list record) : (error + list CreateResult) * live :=
  let ok := negb (bool_decide (sobject ∈ failing)) in
  let results :=
    imap (fun i _ => {| success := ok;
                        id := sobject +:+ "-" +:+ pretty (length st + i)%nat |})
         records in
  (inr results,
   if ok then st ++ map (fun r => (sobject, id r)) results else st).

Definition demo_destroy (st : live) (_ : bool) (sobject : string)
    (ids : list string) : (error + list record) * live :=
  (inr (map (fun i => [("id", VStr i); ("success", VBool true)]) ids),
   filter (fun p => ¬ (p.1 = sobject ∧ p.2 ∈ ids)) st).

Definition store : RemoteStore :=
  {| rstate := live; find := demo_find; create := demo_create;
     destroy := demo_destroy |}.
End Store.

Definition newline : string := String (ascii_of_N 10) "".

(** The round trip of the specification: a parent and the child that
    refers to it. *)
Definition listing : list (string * list record) :=
  [("Child", [[("id", VStr "c1"); ("parentRef", VStr "p1")]]);
   ("Parent", [[("id", VStr "p1"); ("name", VStr "Acme")]])].

Definition parentChild : loader * gmap string (list record) :=
  getDataLoader "/ids" [] listing.

(** A store that accepts every create, and one that rejects the records
    of [Parent]. *)
Definition accepting : RemoteStore := store (fun _ => []) [].
Definition rejecting : RemoteStore := store (fun _ => []) ["Parent"].

(** The world before anything is loaded, over a given disk. *)
Definition before (failing : list string) (d : gmap string FileSystem.node)
    : world (store (fun _ => []) failing) :=
  Build_world (R := store (fun _ => []) failing) [] d parentChild.2.

(** A disk on which the identifier file of [Parent] cannot be opened. *)
Definition locked : gmap string FileSystem.node :=
  {[ "/ids/Parent.json" := FileSystem.Denied ]}.

(** The world a load of the round trip leaves, and the world with the
    identifier file of [Parent] made unreadable afterwards. *)
Definition loaded : world accepting :=
  match loadData accepting parentChild.1 3 (before [] ∅) with
  | Some (_, w, _) => w
  | None => before [] ∅
  end.

Definition loadedTrace : list event :=
  match loadData accepting parentChild.1 3 (before [] ∅) with
  | Some (_, _, log) => log
  | None => []
  end.

Definition loadedLocked : world accepting :=
  Build_world (R := accepting) (remote loaded)
    (<["/ids/Parent.json" := FileSystem.Denied]> (disk loaded))
    (sobject2records loaded).

(** The round trip with a parent whose id is the name of a member of
    [Object.prototype]. *)
Definition inheritedListing : list (string * list record) :=
  [("Child", [[("id", VStr "c1"); ("parentRef", VStr "constructor")]]);
   ("Parent", [[("id", VStr "constructor"); ("name", VStr "Acme")]])].

Definition inherited : loader * gmap string (list record) :=
  getDataLoader "/ids" [] inheritedListing.

Definition beforeInherited : world accepting :=
  Build_world (R := accepting) [] ∅ inherited.2.

End Demo.

(** ** Vocabulary of the properties

    The relation graph as relations, what a trace says about a
    collection, and the invariants the two walks keep between calls. *)

Module Props.
Import Js Loader.

(** A regex with an end-of-input assertion somewhere inside. *)
Fixpoint anchored (r : Regex.regex) : bool :=
  match r with
  | Regex.EndOfInput => true
  | Regex.Group _ r' => anchored r'
  | Regex.Seq r1 r2 | Regex.Alt r1 r2 => anchored r1 || anchored r2
  | _ => false
  end.

Fixpoint allChars (cls : ascii → bool) (s : string) : bool :=
  match s with
  | EmptyString => true
  | String c s' => cls c && allChars cls s'
  end.

(** [value.match(SOQL_REGEX)] is not [null]. *)
Definition isQuery (s : string) : Prop :=
  is_Some (Regex.match_ 4 SOQL_REGEX s).

(** What [getFieldValue] answers for a string taken as an embedded query
    with the given captures. *)
Definition lookupResult (R : RemoteStore) (L : loader) (remote : rstate R)
    (s soqlSelect soqlFrom soqlWhere : string) : resolution value :=
  let call := [Finding (tooling L soqlFrom) soqlFrom soqlWhere soqlSelect] in
  match find R remote (tooling L soqlFrom) soqlFrom (Where soqlWhere)
          (Select soqlSelect) (Some 1%nat) with
  | inl err => (call, VStr s, Some err)
  | inr [] => (call, VStr s, Some (LookupNotFound s))
  | inr (Id :: _) => (call, VStr Id, None)
  end.

Definition parentOf (L : loader) (P C : string) : Prop :=
  ∃ parents, child2parentSObjects L !! C = Some parents ∧ P ∈ parents.

Definition childOf (L : loader) (C P : string) : Prop :=
  ∃ children, parent2childObjects L !! P = Some children ∧ C ∈ children.

Inductive ancestor (L : loader) : string → string → Prop :=
| ancestor_parent A C : parentOf L A C → ancestor L A C
| ancestor_step A P C : ancestor L A P → parentOf L P C → ancestor L A C.

(** No cycle among the inferred relations: no collection is its own
    ancestor. *)
Definition acyclic (L : loader) : Prop := ∀ A, ¬ ancestor L A A.

(** The names a walk reaches from [x] along the edges of a dictionary,
    in one step or more. *)
Inductive reaches (neighbours : gmap string (list string))
    : string → string → Prop :=
| reaches_edge x n ns :
    neighbours !! x = Some ns → n ∈ ns → reaches neighbours x n
| reaches_next x y n ns :
    reaches neighbours x y → neighbours !! y = Some ns → n ∈ ns →
    reaches neighbours x n.

Definition creating (e : event) : option string :=
  match e with
  | CreatingStarted x => Some x
  | _ => None
  end.

Definition deleting (e : event) : option string :=
  match e with
  | DeletingStarted x => Some x
  | _ => None
  end.

(** An event of the resolver: a lookup issued for an embedded query. *)
Definition finding (e : event) : Prop :=
  match e with
  | Finding _ _ _ _ => True
  | _ => False
  end.

(** The collections whose load body started, one entry per start, and
    the same for the delete body. *)
Definition loads (log : list event) : list string := omap creating log.
Definition deletes (log : list event) : list string := omap deleting log.

Definition failing (newRecords : list CreateResult) : bool :=
  existsb (fun res => negb (success res)) newRecords.

(** In the trace [log], the create of [A] has returned and its pairs
    were merged, and every key merged is a key of [m]. *)
Definition Loaded (log : list event) (m : gmap string string) (A : string) : Prop :=
  ∃ newRecords pairs mA,
    Created A newRecords ∈ log ∧ Merged A pairs mA ∈ log ∧
    ∀ k, is_Some (pairs !! k) → is_Some (m !! k).

(** In the trace [log], the delete of [c] has completed. *)
Definition Finished (log : list event) (c : string) : Prop :=
  DeletingSkipped c ∈ log ∨ ∃ ids, DeletingDone c ids ∈ log.

Definition settledAs (fail : option error) (o : outcome) : Prop :=
  o = Resolved ∨ ∃ e, fail = Some e ∧ o = Rejected e.

(** The rejection an outcome propagates. *)
Definition failureOf (o : outcome) : option error :=
  match o with
  | Resolved => None
  | Rejected e => Some e
  end.

Definition failureOfResult (res : error + gmap string string) : option error :=
  match res with
  | inl e => Some e
  | inr _ => None
  end.

(** The shape the two memoised walks share: look the name up in the
    cache; otherwise enter, walk the neighbours in order, do the work of
    the name and cache the outcome. *)
Section Walk.
Context {St : Type} (cache : St → gmap string outcome)
  (enter : string → St → St) (memo : string → outcome → St → St)
  (neighbours : gmap string (list string)) (work : string → St → outcome * St).

Fixpoint walk (fuel : nat) (s : string) (st : St) : option (outcome * St) :=
  match cache st !! s with
  | Some o => Some (o, st)
  | None =>
      match fuel with
      | O => None
      | S fuel' =>
          let st := enter s st in
          match neighbours !! s with
          | None => Some (Rejected TypeError, memo s (Rejected TypeError) st)
          | Some ns =>
              match forAwait (walk fuel') ns st with
              | None => None
              | Some (Rejected e, st') => Some (Rejected e, memo s (Rejected e) st')
              | Some (Resolved, st') =>
                  Some ((work s st').1, memo s (work s st').1 (work s st').2)
              end
          end
      end
  end.
End Walk.

(** What [loadRecords] does to a state, [added] being what it appends to
    the trace. *)
Record Worked {R : RemoteStore} (L : loader) (s : string) (st : lstate R)
    (o : outcome) (st' : lstate R) (added : list event) : Prop := {
  wk_log : l_log R st' = l_log R st ++ added;
  wk_cache : l_cache R st' = l_cache R st;
  wk_nostart : ∀ e, e ∈ added → creating e = None;
  wk_resolving : ∀ l1 C mm l2, added = l1 ++ Resolving C mm :: l2 →
      l1 = [] ∧ C = s ∧ mm = old2newId R st;
  wk_before : ∀ x recs, BeforeCreating x recs ∈ added →
      x = s ∧ sobject2records (l_world R st') !! s = Some recs;
  wk_created : ∀ x res, Created x res ∈ added →
      x = s ∧ (failing res = true → o = Rejected (CreateFailed s));
  wk_writing : ∀ f ids, Writing f ids ∈ added → f = idsFile L s ∧ o = Resolved;
  wk_merged : ∀ x p mm, Merged x p mm ∈ added → x = s ∧ o = Resolved;
  wk_resolved : o = Resolved →
      ∃ res p, Created s res ∈ added ∧ Merged s p (old2newId R st') ∈ added ∧
               old2newId R st' = merge (old2newId R st) p;
  wk_ids : ∀ k, is_Some (old2newId R st !! k) → is_Some (old2newId R st' !! k);
  wk_store : ∀ x, x ≠ s →
      sobject2records (l_world R st') !! x = sobject2records (l_world R st) !! x;
  wk_disk : ∀ f, f ≠ idsFile L s →
      disk (l_world R st') !! f = disk (l_world R st) !! f;
  wk_disk_rejected : o ≠ Resolved → disk (l_world R st') = disk (l_world R st)
}.

(** What holds of a [loadData] run between two calls of
    [loadSObjectData]: [pending] are the collections whose body is
    running, [fail] the rejection being propagated, if any, and [w0]
    the world the run started from. *)
Record LoadInv {R : RemoteStore} (L : loader) (w0 : world R)
    (pending : string → Prop) (fail : option error) (st : lstate R) : Prop := {
  li_nodup : NoDup (loads (l_log R st));
  li_pending : ∀ x, pending x →
      l_cache R st !! x = None ∧ CreatingStarted x ∈ l_log R st;
  li_started : ∀ x, CreatingStarted x ∈ l_log R st →
      is_Some (l_cache R st !! x) ∨ pending x;
  li_cached : ∀ x, is_Some (l_cache R st !! x) → CreatingStarted x ∈ l_log R st;
  li_outcomes : ∀ x o, l_cache R st !! x = Some o → settledAs fail o;
  li_before : ∀ x recs, BeforeCreating x recs ∈ l_log R st →
      is_Some (l_cache R st !! x) ∧
      sobject2records (l_world R st) !! x = Some recs;
  li_merged : ∀ x pairs m, Merged x pairs m ∈ l_log R st →
      l_cache R st !! x = Some Resolved;
  li_writing : ∀ f ids, Writing f ids ∈ l_log R st →
      ∃ x, f = idsFile L x ∧ l_cache R st !! x = Some Resolved;
  li_failed : ∀ x res, Created x res ∈ l_log R st → failing res = true →
      l_cache R st !! x = Some (Rejected (CreateFailed x));
  li_loaded : ∀ x, l_cache R st !! x = Some Resolved →
      ∀ A, A = x ∨ ancestor L A x → Loaded (l_log R st) (old2newId R st) A;
  li_resolving : ∀ l1 C m l2, l_log R st = l1 ++ Resolving C m :: l2 →
      ∀ A, ancestor L A C → Loaded l1 m A;
  li_untouched : ∀ x, CreatingStarted x ∉ l_log R st →
      sobject2records (l_world R st) !! x = sobject2records w0 !! x;
  li_disk : ∀ x, l_cache R st !! x ≠ Some Resolved →
      disk (l_world R st) !! idsFile L x = disk w0 !! idsFile L x
}.

(** The same for a [deleteLoadedData] run. *)
Record DeleteInv {R : RemoteStore} (L : loader) (w0 : world R)
    (pending : string → Prop) (fail : option error) (st : dstate R) : Prop := {
  di_nodup : NoDup (deletes (d_log R st));
  di_pending : ∀ x, pending x →
      d_cache R st !! x = None ∧ DeletingStarted x ∈ d_log R st;
  di_started : ∀ x, DeletingStarted x ∈ d_log R st →
      is_Some (d_cache R st !! x) ∨ pending x;
  di_cached : ∀ x, is_Some (d_cache R st !! x) → DeletingStarted x ∈ d_log R st;
  di_outcomes : ∀ x o, d_cache R st !! x = Some o → settledAs fail o;
  di_finished : ∀ x, d_cache R st !! x = Some Resolved → Finished (d_log R st) x;
  di_destroyed : ∀ l1 C ids ress l2,
      d_log R st = l1 ++ Destroyed C ids ress :: l2 →
      ∀ c, childOf L c C → Finished l1 c;
  di_disk : d_disk R st = disk w0
}.

End Props.

(** ** file-system.ts: names

    [removeInvalidChars], and what [listJSONFiles] does with the names
    that [readdir] returns (when [readdir] rejects, so does
    [listJSONFiles]). *)

Module Paths.
Import Js.

(** The characters of the class of [INVALID_FILE_CHARS_REGEX]: the two
    parentheses, the opening bracket, the closing brace, the closing
    bracket, slash, backslash, question mark, percent, star, colon, bar,
    the double quote, the angle brackets, comma, dot, space, the equals
    sign and the apostrophe. *)
Definition INVALID_FILE_CHARS : list ascii :=
  list_ascii_of_string "()[}]/\?%*:|" ++
  ascii_of_N 34 :: list_ascii_of_string "<>,. ='".

Definition INVALID_FILE_CHARS_REGEX (c : ascii) : bool :=
  bool_decide (c ∈ INVALID_FILE_CHARS).

(** [s.replace(r, '')] for a character class [r] under the [g] flag *)
Fixpoint replaceAll (cls : ascii → bool) (s : string) : string :=
  match s with
  | EmptyString => ""
  | String c s' =>
      if cls c then replaceAll cls s' else String c (replaceAll cls s')
  end.

Definition removeInvalidChars (path : string) : string :=
  replaceAll INVALID_FILE_CHARS_REGEX path.

(** [name.split(sep)] for a separator of one character *)
Fixpoint split (sep : ascii) (s : string) : list string :=
  match s with
  | EmptyString => [""]
  | String c s' =>
      if decide (c = sep) then "" :: split sep s'
      else match split sep s' with
           | part :: parts => String c part :: parts
           | [] => [String c ""]
           end
  end.

(** [x || ''] for an [x] that is a string or [undefined] *)
Definition orEmpty (x : option string) : string :=
  match x with
  | Some (String c s) => String c s
  | Some EmptyString | None => ""
  end.

Definition listJSONFiles (fileNames : list string) : list string :=
  map (fun parts => orEmpty (head parts))
    (filter (fun parts => last parts = Some "json")
       (map (split ".") fileNames)).

(** A text without the character [c]. *)
Fixpoint without (c : ascii) (s : string) : bool :=
  match s with
  | EmptyString => true
  | String a s' => if decide (a = c) then false else without c s'
  end.

End Paths.

(** ** The start of [getDataLoader]: from the directory to the records *)

Module Setup.
Import Js Loader Paths.

(** The names kept from the directory: the JSON files whose name does
    not start with two underscores. *)
Definition sobjectsOf (fileNames : list string) : list string :=
  filter (fun sobject => startsWith sobject "__" = false)
    (listJSONFiles fileNames).

(** [path.join(sobjectRecordsPath, o + '.json')] *)
Definition recordsFile (sobjectRecordsPath o : string) : string :=
  sobjectRecordsPath +:+ "/" +:+ o +:+ ".json".

(** [Promise.all(paths.map(readJSONFile))] for reads that do not change
    the directory: the values in order, or a rejection when a read
    fails (the one of the first failing path stands for whichever
    arrives first). *)
Fixpoint readAll (readJSONFile : string → error + list record)
    (paths : list string) : error + list (list record) :=
  match paths with
  | [] => inr []
  | p :: paths' =>
      match readJSONFile p, readAll readJSONFile paths' with
      | inl e, _ => inl e
      | inr _, inl e => inl e
      | inr records, inr recordss => inr (records :: recordss)
      end
  end.

(** The names and the records [getDataLoader] works from, given the
    entries of the records directory and what reading a path gives. *)
Definition listRecords (readJSONFile : string → error + list record)
    (sobjectRecordsPath : string) (fileNames : list string)
    : error + list (string * list record) :=
  let sobjects := sobjectsOf fileNames in
  match readAll readJSONFile (map (recordsFile sobjectRecordsPath) sobjects) with
  | inl e => inl e
  | inr recordss => inr (zip sobjects recordss)
  end.

End Setup.

(** ** Vocabulary of the further properties *)

Module Leaves.
Import Js Loader.

(** A value with its texts blanked: the field names in order, the
    lengths of the arrays and every scalar that is not a text. *)
Fixpoint skeleton (v : value) : value :=
  match v with
  | VStr _ | VNative _ => VStr ""
  | VArr l => VArr (map skeleton l)
  | VObj fs => VObj (map (fun kv => (kv.1, skeleton kv.2)) fs)
  | _ => v
  end.

(** The texts of a value, in the order [Object.keys] visits them. *)
Fixpoint texts (v : value) : list string :=
  match v with
  | VStr s => [s]
  | VArr l => flat_map texts l
  | VObj fs => flat_map (fun kv => texts kv.2) fs
  | _ => []
  end.

(** The first failure of a list of settled lookups. *)
Definition firstFailure (es : list (option error)) : option error :=
  foldr firstError None es.

(** [s.indexOf(p) >= 0]: the text [p] occurs in [s]. *)
Definition occursIn (p s : string) : Prop :=
  ∃ pre post, s = pre +:+ p +:+ post.

(** [i] is written in the value [v]: as a text or as the name of a
    field that [JSON.stringify] prints. *)
Inductive mentions (i : string) : value → Prop :=
| mentions_text : mentions i (VStr i)
| mentions_name fs v :
    (i, v) ∈ fs → is_Some (serialize v) → mentions i (VObj fs)
| mentions_field fs k v :
    (k, v) ∈ fs → mentions i v → mentions i (VObj fs)
| mentions_elem l v :
    v ∈ l → mentions i v → mentions i (VArr l).

End Leaves.

(** ** Queries in plain form *)

Module Query.
Import Js Regex Loader Props.

(** The clause that may end the match of [SOQL_REGEX] after the
    condition: white space, [ORDER BY], white space. *)
Definition ORDER_BY : regex :=
  Seq (Plus is_space) (Seq (Lit "ORDER BY") (Plus is_space)).

(** A word: at least one character, none of them white space or a line
    terminator. *)
Definition word (s : string) : bool :=
  negb (bool_decide (s = "")) &&
  allChars (λ c, is_dot c && negb (is_space c)) s.

(** A condition: one line that does not start with white space and
    holds no [ORDER BY] clause. *)
Definition condition (s : string) : bool :=
  allChars is_dot s &&
  match s with
  | String c _ => negb (is_space c)
  | EmptyString => true
  end &&
  bool_decide (search ORDER_BY s = None).

Definition soql (soqlSelect soqlFrom soqlWhere : string) : string :=
  "SELECT " +:+ soqlSelect +:+ " FROM " +:+ soqlFrom +:+
  " WHERE " +:+ soqlWhere.

Definition soqlOrdered (soqlSelect soqlFrom soqlWhere order : string)
    : string :=
  "SELECT " +:+ soqlSelect +:+ " FROM " +:+ soqlFrom +:+
  " WHERE " +:+ soqlWhere +:+ " ORDER BY " +:+ order.

End Query.

(** ** What a trace says, event by event *)

Module Trace.
Import Js Loader.

(** The collection an event of a walk is about; the lookups of the
    resolver and the file accesses carry none. *)
Definition about (e : event) : option string :=
  match e with
  | CreatingStarted x | Resolving x _ | BeforeCreating x _ | Created x _
  | Merged x _ _ | CreatingDone x _ | DeletingStarted x | DeletingSkipped x
  | Destroyed x _ _ | DeletingDone x _ => Some x
  | Finding _ _ _ _ | Writing _ _ | ReadIds _ => None
  end.

(** [ress.some(res => !res.success)] *)
Definition refused (ress : list record) : bool :=
  existsb (fun res => negb (truthy (get res "success"))) ress.

(** A lookup goes over the connection that [$] picks for the
    collection it names. *)
Definition routed (L : loader) (e : event) : Prop :=
  match e with
  | Finding t soqlFrom _ _ => t = tooling L soqlFrom
  | _ => True
  end.

(** What a [loadData] run keeps besides [LoadInv]: a create that
    returned is remembered by the cache, and the identifier file of a
    collection loaded holds what writing the ids of its create onto the
    disk of the start leaves there. *)
Record LoadMore {R : RemoteStore} (L : loader) (w0 : world R)
    (st : lstate R) : Prop := {
  lm_created : ∀ x res, Created x res ∈ l_log R st →
      is_Some (l_cache R st !! x);
  lm_file : ∀ x res, Created x res ∈ l_log R st →
      l_cache R st !! x = Some Resolved →
      disk (l_world R st) !! idsFile L x =
      (FileSystem.writeJSONFile (idsFile L x) (map id res) (disk w0)).2
        !! idsFile L x
}.

(** What a [deleteLoadedData] run keeps besides [DeleteInv]: a destroy
    that refused a record left its rejection in the cache, and a
    collection whose delete completed is cached as resolved. *)
Record DeleteMore {R : RemoteStore} (L : loader) (st : dstate R) : Prop := {
  dm_refused : ∀ x ids ress, Destroyed x ids ress ∈ d_log R st →
      refused ress = true →
      d_cache R st !! x = Some (Rejected (DeleteFailed x ress));
  dm_finished : ∀ x, Props.Finished (d_log R st) x →
      d_cache R st !! x = Some Resolved
}.

End Trace.

(** ** A collection with an embedded query

    One contact whose account is given by a query, a store that answers
    every query with the id [001], and [Account] as a tooling
    collection. *)

Module DemoQuery.
Import Js Loader.

Definition listing : list (string * list record) :=
  [("Contact",
    [[("id", VStr "c1");
      ("AccountId", VStr "SELECT Id FROM Account WHERE Name = 'Acme'")]])].

Definition contacts : loader * gmap string (list record) :=
  getDataLoader "/ids" ["Account"] listing.

Definition answering : RemoteStore := Demo.store (fun _ => ["001"]) [].

Definition before : world answering :=
  Build_world (R := answering) [] ∅ contacts.2.

End DemoQuery.

(** ** A store that refuses to delete

    The reference store, except that the destroy of the collections
    listed in [kept] reports every record as not deleted and deletes
    nothing. *)

Module DemoRefusing.
Import Js Loader.

Definition refusing_destroy (kept : list string) (st : Demo.live) (t : bool)
    (sobject : string) (ids : list string)
    : (error + list record) * Demo.live :=
  if bool_decide (sobject ∈ kept)
  then (inr (map (fun i => [("id", VStr i); ("success", VBool false)]) ids), st)
  else Demo.demo_destroy st t sobject ids.

Definition store : RemoteStore :=
  {| rstate := Demo.live; find := Demo.demo_find (fun _ => []);
     create := Demo.demo_create []; destroy := refusing_destroy ["Child"] |}.

(** The world the load of the round trip leaves, seen through this
    store. *)
Definition loaded : world store :=
  Build_world (R := store) (remote Demo.loaded) (disk Demo.loaded)
    (sobject2records Demo.loaded).

End DemoRefusing.

(** ** What is sent to create, and stores that never refuse *)

Module Payload.
Import Js Loader Props Leaves.

(** What the resolver makes of a value that holds no query: every text
    is exchanged for what the identity map reads for it, when that is
    truthy. *)
Fixpoint exchange (old2newId : gmap string string) (v : value) : value :=
  match v with
  | VStr s =>
      if truthy (read old2newId s)
      then default (VStr s) (read old2newId s)
      else VStr s
  | VArr l => VArr (map (exchange old2newId) l)
  | VObj fs => VObj (map (fun kv => (kv.1, exchange old2newId kv.2)) fs)
  | _ => v
  end.

Definition exchangeRecord (old2newId : gmap string string) (r : record)
    : record :=
  map (fun kv => (kv.1, exchange old2newId kv.2)) r.

(** Records none of whose texts is taken for a query. *)
Definition queryFree (records : list record) : Prop :=
  Forall (fun s => ¬ isQuery s) (flat_map (fun r => texts (VObj r)) records).

(** What a [loadData] run keeps about the records it sends to create:
    the resolution of a collection starts once, the records of a
    collection are those of the start until its resolution starts, and
    the records announced before the create are the resolved records of
    the start without their [id]. *)
Record LoadPayload {R : RemoteStore} (L : loader) (w0 : world R)
    (st : lstate R) : Prop := {
  lp_resolving : ∀ x m, Resolving x m ∈ l_log R st →
      is_Some (l_cache R st !! x);
  lp_unique : ∀ x m m', Resolving x m ∈ l_log R st →
      Resolving x m' ∈ l_log R st → m = m';
  lp_untouched : ∀ x, (∀ m, Resolving x m ∉ l_log R st) →
      sobject2records (l_world R st) !! x = sobject2records w0 !! x;
  lp_payload : ∀ x recs, BeforeCreating x recs ∈ l_log R st →
      ∃ m records,
        Resolving x m ∈ l_log R st ∧
        sobject2records w0 !! x = Some records ∧
        (queryFree records →
         recs = map (fun r => delete_key "id" (exchangeRecord m r)) records)
}.

(** A store that answers every lookup of an embedded query with at
    least one record. *)
Definition alwaysFinds (R : RemoteStore) : Prop :=
  ∀ rs t soqlFrom soqlWhere soqlSelect,
    ∃ Id data,
      find R rs t soqlFrom (Where soqlWhere) (Select soqlSelect) (Some 1%nat)
      = inr (Id :: data).

(** A store whose create accepts every record. *)
Definition alwaysCreates (R : RemoteStore) : Prop :=
  ∀ rs t sobject records,
    ∃ newRecords,
      (create R rs t sobject records).1 = inr newRecords ∧
      failing newRecords = false.

(** A store that finds the records of a list of ids and deletes every
    record it is asked to. *)
Definition alwaysDestroys (R : RemoteStore) : Prop :=
  (∀ rs t sobject ids,
     ∃ recs, find R rs t sobject (IdIn ids) IdOnly None = inr recs) ∧
  (∀ rs t sobject ids,
     ∃ ress, (destroy R rs t sobject ids).1 = inr ress ∧
             Trace.refused ress = false).

End Payload.

(** * Facts about strings *)

Section StringFacts.
Import Js.

Lemma startsWith_spec s p :
    startsWith s p = true ↔ ∃ post, s = p +:+ post.
Proof.
    revert s. induction p as [|a p IH]; intros s; simpl.
    - split; [intros _; exists s; reflexivity | reflexivity].
    - destruct s as [|b s].
      + split; [done | intros [post Hp]; discriminate].
      + destruct (decide (a = b)) as [->|Hne].
        * rewrite IH. split; intros [post Hp]; exists post.
          -- by rewrite Hp.
          -- by injection Hp.
        * split; [done | intros [post Hp]; injection Hp; congruence].
Qed.

Lemma indexOfFrom_lower i s p : indexOfFrom i s p = -1 ∨ i ≤ indexOfFrom i s p.
Proof.
    revert i. induction s as [|c s IH]; intros i; simpl.
    - destruct (startsWith "" p); lia.
    - destruct (startsWith (String c s) p); [lia|].
      destruct (IH (i + 1)); lia.
Qed.

Lemma indexOfFrom_found i s p :
    0 ≤ i → (0 ≤ indexOfFrom i s p ↔ ∃ pre post, s = pre +:+ p +:+ post).
Proof.
    revert i. induction s as [|c s IH]; intros i Hi; simpl.
    - destruct (startsWith "" p) eqn:Hp.
      + split; [intros _ | lia]. apply startsWith_spec in Hp as [post Hp].
        exists "", post; exact Hp.
      + split; [lia|]. intros (pre & post & Heq).
        destruct pre; [|discriminate]. simpl in Heq.
        assert (startsWith "" p = true) by (apply startsWith_spec; eauto).
        congruence.
    - destruct (startsWith (String c s) p) eqn:Hp.
      + split; [intros _ | lia]. apply startsWith_spec in Hp as [post Hp].
        exists "", post; exact Hp.
      + rewrite IH by lia. split.
        * intros (pre & post & ->). exists (String c pre), post; reflexivity.
        * intros (pre & post & Heq). destruct pre as [|c' pre].
          -- simpl in Heq.
             assert (startsWith (String c s) p = true)
               by (apply startsWith_spec; eauto).
             congruence.
          -- injection Heq as -> ->. eauto.
Qed.

  (** [s.indexOf(p) >= 0] says that [p] occurs in [s]. *)
Lemma indexOf_found s p :
    0 ≤ indexOf s p ↔ ∃ pre post, s = pre +:+ p +:+ post.
Proof. apply indexOfFrom_found. lia. Qed.
End StringFacts.


(** * The relation graph *)

Section GraphFacts.
Import Js Loader.
Context (sobjects : list string) (sobject2records : gmap string (list record)).

Lemma childrenOf_spec P C :
    C ∈ childrenOf sobjects sobject2records P ↔
    C ∈ sobjects ∧ C ≠ P ∧ references sobject2records P C = true.
Proof.
    unfold childrenOf. rewrite !list_elem_of_filter.
    split; [intros (? & ? & ?) | intros (? & ? & ?)]; repeat split; congruence.
Qed.

Lemma references_spec P C :
    references sobject2records P C = true ↔
    ∃ r pre post,
      r ∈ recordsOf sobject2records P ∧
      stringify (recordsOf sobject2records C) = pre +:+ quotedId r +:+ post.
Proof.
    unfold references. rewrite existsb_exists. split.
    - intros (r & Hin & Hr). apply bool_decide_eq_true in Hr.
      apply indexOf_found in Hr as (pre & post & Hr).
      exists r, pre, post. by rewrite list_elem_of_In.
    - intros (r & pre & post & Hin & Hr). exists r.
      rewrite <- list_elem_of_In. split; [done|].
      apply bool_decide_eq_true, indexOf_found. eauto.
Qed.

Lemma foldl_insert_lookup {V : Type} (f : string → V) (l : list string)
      (acc : gmap string V) k :
    foldl (fun m x => <[x := f x]> m) acc l !! k =
    if decide (k ∈ l) then Some (f k) else acc !! k.
Proof.
    revert acc. induction l as [|x l IH]; intros acc; cbn [foldl].
    - by rewrite decide_False by apply not_elem_of_nil.
    - rewrite IH. destruct (decide (k ∈ l)) as [Hin|Hnin].
      + by rewrite decide_True by (by right).
      + destruct (decide (x = k)) as [->|Hne].
        * rewrite decide_True by left. by rewrite lookup_insert_eq.
        * rewrite decide_False by (rewrite elem_of_cons; naive_solver).
          by rewrite lookup_insert_ne.
Qed.

Lemma build_parent2childObjects_lookup P :
    build_parent2childObjects sobjects sobject2records !! P =
    if decide (P ∈ sobjects)
    then Some (childrenOf sobjects sobject2records P) else None.
Proof.
    unfold build_parent2childObjects.
    rewrite (foldl_insert_lookup (childrenOf sobjects sobject2records)).
    by rewrite lookup_empty.
Qed.

Lemma build_child2parentSObjects_lookup p2c C :
    build_child2parentSObjects sobjects p2c !! C =
    if decide (C ∈ sobjects) then Some (parentsOf sobjects p2c C) else None.
Proof.
    unfold build_child2parentSObjects.
    rewrite (foldl_insert_lookup (parentsOf sobjects p2c)).
    by rewrite lookup_empty.
Qed.

Lemma parentsOf_spec p2c P C :
    P ∈ parentsOf sobjects p2c C ↔
    P ∈ sobjects ∧ ∃ children, p2c !! P = Some children ∧ C ∈ children.
Proof.
    unfold parentsOf. rewrite list_elem_of_filter.
    split; intros [H HP]; (split; [|done]) || (split; [done|]).
    - destruct (p2c !! P) as [children|]; [|lia].
      exists children. split; [done|].
      destruct (list_find _ children) as [[i x]|] eqn:Hf; [|lia].
      apply list_find_Some in Hf as (Hl & -> & _).
      by eapply list_elem_of_lookup_2.
    - destruct HP as (children & -> & Hin).
      destruct (list_find_elem_of (λ c, c = C) children C Hin eq_refl)
        as [[i x] ->]. lia.
Qed.
End GraphFacts.

Section GraphClaim.
Import Js Loader.

  (** C5.  In the graph [getDataLoader] builds, a collection [C] is listed
      among the children of [P] exactly when it is another collection and
      the serialised records of [C] contain the quoted id of a record of
      [P]; [P] is listed among the parents of [C] under the same condition;
      and no collection is its own child or parent. *)
Theorem C5_relation_graph idsPath toolingNames listing P C :
    let L := (getDataLoader idsPath toolingNames listing).1 in
    let store := (getDataLoader idsPath toolingNames listing).2 in
    P ∈ sobjects L → C ∈ sobjects L →
    ∃ children parents,
      parent2childObjects L !! P = Some children ∧
      child2parentSObjects L !! C = Some parents ∧
      (C ∈ children ↔
         C ≠ P ∧
         ∃ r pre post,
           r ∈ recordsOf store P ∧
           stringify (recordsOf store C) = pre +:+ quotedId r +:+ post) ∧
      (P ∈ parents ↔ C ∈ children) ∧
      P ∉ children ∧ C ∉ parents.
Proof.
    intros L store HP HC. subst L store. simpl in *.
    set (names := map fst _) in *. set (store := zipObject _ _).
    exists (childrenOf names store P),
           (parentsOf names (build_parent2childObjects names store) C).
    rewrite build_parent2childObjects_lookup, decide_True by done.
    rewrite build_child2parentSObjects_lookup, decide_True by done.
    split; [done|]. split; [done|].
    assert (Hpar : ∀ X Y, X ∈ names →
      (X ∈ parentsOf names (build_parent2childObjects names store) Y ↔
       Y ∈ childrenOf names store X)).
    { intros X Y HX. rewrite parentsOf_spec.
      rewrite build_parent2childObjects_lookup, decide_True by done.
      naive_solver. }
    split; [|split; [by apply Hpar|split]].
    - rewrite childrenOf_spec, references_spec. naive_solver.
    - rewrite childrenOf_spec. naive_solver.
    - rewrite parentsOf_spec. intros (_ & children & Hl & Hin).
      rewrite build_parent2childObjects_lookup, decide_True in Hl by done.
      injection Hl as <-. apply childrenOf_spec in Hin. naive_solver.
Qed.

Lemma C5_relation_graph_witness :
    ∃ children parents,
      parent2childObjects Demo.parentChild.1 !! "Parent" = Some children ∧
      child2parentSObjects Demo.parentChild.1 !! "Child" = Some parents ∧
      "Child" ∈ children ∧ "Parent" ∈ parents.
Proof.
    destruct (C5_relation_graph "/ids" [] Demo.listing "Parent" "Child")
      as (children & parents & Hc & Hp & Hiff & Hpar & _).
    - vm_compute. apply list_elem_of_In. simpl. tauto.
    - vm_compute. apply list_elem_of_In. simpl. tauto.
    - exists children, parents. split; [exact Hc|]. split; [exact Hp|].
      assert (Hin : "Child" ∈ children).
      { vm_compute in Hc. injection Hc as <-. apply list_elem_of_In. simpl. tauto. }
      split; [exact Hin|]. apply Hpar, Hin.
Defined.
End GraphClaim.


(** * The matcher against the language of a regex *)

Section RegexFacts.
Import Regex.

Lemma lang_lit_inv p s s' : lang (Lit p) s s' → literal p s = Some s'.
Proof. by inversion 1. Qed.

Lemma lang_plus_inv cls s s' :
    lang (Plus cls) s s' →
    ∃ c t, s = String c t ∧ cls c = true ∧ (s' = t ∨ lang (Plus cls) t s').
Proof. inversion 1; subst; eauto 6. Qed.

Lemma lang_star_inv cls s s' :
    lang (StarLazy cls) s s' →
    s' = s ∨ ∃ c t, s = String c t ∧ cls c = true ∧ lang (StarLazy cls) t s'.
Proof. inversion 1; subst; eauto 6. Qed.

Lemma lang_group_inv i r s s' : lang (Group i r) s s' → lang r s s'.
Proof. by inversion 1. Qed.

Lemma lang_seq_inv r1 r2 s s' :
    lang (Seq r1 r2) s s' → ∃ t, lang r1 s t ∧ lang r2 t s'.
Proof. inversion 1; subst; eauto. Qed.

Lemma lang_alt_inv r1 r2 s s' :
    lang (Alt r1 r2) s s' → lang r1 s s' ∨ lang r2 s s'.
Proof. inversion 1; subst; eauto. Qed.

Lemma lang_end_inv s s' : lang EndOfInput s s' → s = "" ∧ s' = "".
Proof. by inversion 1. Qed.

Lemma starLazy_complete {A} cls s s' (k : string → option A) :
    lang (StarLazy cls) s s' → is_Some (k s') → is_Some (starLazy cls s k).
Proof.
    intros H. remember (StarLazy cls) as r eqn:Hr.
    induction H; try discriminate; injection Hr as ->; intros Hk.
    - destruct Hk as [a Hk]. destruct s; simpl; rewrite Hk; eauto.
    - simpl. destruct (k (String c s)); [eauto|]. rewrite H. auto.
Qed.

Lemma starLazy_sound {A} cls s (k : string → option A) a :
    starLazy cls s k = Some a → ∃ s', lang (StarLazy cls) s s' ∧ k s' = Some a.
Proof.
    induction s as [|c s IH]; simpl.
    - destruct (k "") eqn:Hk; [|done]. intros [= ->].
      exists "". split; [constructor | done].
    - destruct (k (String c s)) eqn:Hk.
      + intros [= ->]. exists (String c s). split; [constructor | done].
      + destruct (cls c) eqn:Hc; [|done]. intros H.
        destruct (IH H) as (s' & Hl & Hs'). exists s'.
        split; [by constructor | done].
Qed.

Lemma starGreedy_complete {A} cls s s' (k : string → option A) :
    s' = s ∨ lang (Plus cls) s s' → is_Some (k s') → is_Some (starGreedy cls s k).
Proof.
    intros [->|H] Hk.
    - destruct s as [|c s]; simpl; [done|].
      destruct (cls c); [|done]. by destruct (starGreedy cls s k).
    - remember (Plus cls) as r eqn:Hr.
      induction H; try discriminate; injection Hr as ->; simpl; rewrite H.
      + destruct (starGreedy cls s k) eqn:Hg; [eauto|].
        assert (is_Some (starGreedy cls s k)) as [? ?]; [|congruence].
        destruct s as [|c' s]; simpl; [done|].
        destruct (cls c'); [|done]. by destruct (starGreedy cls s k).
      + destruct (starGreedy cls s k) eqn:Hg; [eauto|].
        destruct (IHlang eq_refl Hk) as [? ?]. congruence.
Qed.

Lemma starGreedy_sound {A} cls s (k : string → option A) a :
    starGreedy cls s k = Some a →
    ∃ s', (s' = s ∨ lang (Plus cls) s s') ∧ k s' = Some a.
Proof.
    induction s as [|c s IH]; simpl.
    - intros H. exists "". auto.
    - destruct (cls c) eqn:Hc; [|intros H; exists (String c s); auto].
      destruct (starGreedy cls s k) eqn:Hg.
      + intros [= ->]. destruct (IH eq_refl) as (s' & [->|Hl] & Hs').
        * exists s. split; [right; by constructor | done].
        * exists s'. split; [right; by constructor | done].
      + intros H. exists (String c s). auto.
Qed.

Lemma plusGreedy_complete {A} cls s s' (k : string → option A) :
    lang (Plus cls) s s' → is_Some (k s') → is_Some (plusGreedy cls s k).
Proof.
    intros H Hk.
    apply lang_plus_inv in H as (c & t & -> & Hc & Ht). simpl. rewrite Hc.
    by apply (starGreedy_complete cls t s').
Qed.

Lemma plusGreedy_sound {A} cls s (k : string → option A) a :
    plusGreedy cls s k = Some a → ∃ s', lang (Plus cls) s s' ∧ k s' = Some a.
Proof.
    destruct s as [|c s]; simpl; [done|].
    destruct (cls c) eqn:Hc; [|done]. intros H.
    apply starGreedy_sound in H as (s' & [Heq|Hl] & Hs'); exists s'.
    - subst s'. split; [by constructor | done].
    - split; [by constructor | done].
Qed.

  (** Backtracking finds a match whenever the language has one the
      continuation accepts... *)
Lemma run_complete {A} r : ∀ s s' c (k : string → captures → option A),
    lang r s s' → (∀ c', is_Some (k s' c')) → is_Some (run r s c k).
Proof.
    induction r as [p|cls|cls|i r IH|r1 IH1 r2 IH2|r1 IH1 r2 IH2|];
      intros s s' c k Hl Hk; simpl.
    - apply lang_lit_inv in Hl. rewrite Hl. apply Hk.
    - eapply plusGreedy_complete; [exact Hl | apply Hk].
    - eapply starLazy_complete; [exact Hl | apply Hk].
    - apply lang_group_inv in Hl. eapply IH; [eassumption|].
      intros c'. apply Hk.
    - apply lang_seq_inv in Hl as (t & Hl1 & Hl2). eapply IH1; [eassumption|].
      intros c'. eapply IH2; eassumption.
    - apply lang_alt_inv in Hl as [Hl|Hl].
      + destruct (IH1 s s' c k Hl Hk) as [a ->]. eauto.
      + destruct (run r1 s c k); [eauto|]. eapply IH2; eassumption.
    - apply lang_end_inv in Hl as [-> ->]. apply Hk.
Qed.

  (** ... and only then. *)
Lemma run_sound {A} r : ∀ s c (k : string → captures → option A) a,
    run r s c k = Some a → ∃ s' c', lang r s s' ∧ k s' c' = Some a.
Proof.
    induction r as [p|cls|cls|i r IH|r1 IH1 r2 IH2|r1 IH1 r2 IH2|];
      intros s c k a; simpl.
    - destruct (literal p s) as [s'|] eqn:Hp; [|done]. intros H.
      exists s', c. split; [by constructor | done].
    - intros H. apply plusGreedy_sound in H as (s' & Hl & H). eauto.
    - intros H. apply starLazy_sound in H as (s' & Hl & H). eauto.
    - intros H. apply IH in H as (s' & c' & Hl & H).
      exists s', ((i, consumed s s') :: c'). split; [by constructor | done].
    - intros H. apply IH1 in H as (s1 & c1 & Hl1 & H).
      apply IH2 in H as (s2 & c2 & Hl2 & H).
      exists s2, c2. split; [econstructor; eassumption | done].
    - destruct (run r1 s c k) eqn:H1.
      + intros [= ->]. apply IH1 in H1 as (s' & c' & Hl & H).
        exists s', c'. split; [by apply lang_alt_l | done].
      + intros H. apply IH2 in H as (s' & c' & Hl & H).
        exists s', c'. split; [by apply lang_alt_r | done].
    - destruct s; [|done]. intros H. exists "", c. split; [constructor | done].
Qed.

  (** [search] succeeds exactly on the inputs with a suffix that starts
      with a word of the regex. *)
Lemma search_found r s :
    is_Some (search r s) ↔ ∃ pre q s', s = pre +:+ q ∧ lang r q s'.
Proof.
    split.
    - induction s as [|c s IH]; simpl.
      + destruct (run r "" [] _) eqn:Hr; [|intros [? ?]; done]. intros _.
        apply run_sound in Hr as (s' & c' & Hl & _). by exists "", "", s'.
      + destruct (run r (String c s) [] _) eqn:Hr.
        * intros _. apply run_sound in Hr as (s' & c' & Hl & _).
          by exists "", (String c s), s'.
        * intros H. destruct (IH H) as (pre & q & s' & -> & Hl).
          by exists (String c pre), q, s'.
    - intros (pre & q & s' & -> & Hl).
      induction pre as [|c pre IH]; simpl.
      + assert (Hs : is_Some (run r q [] (λ s'0 c, Some (consumed q s'0, c))))
          by (eapply run_complete; eauto).
        destruct q; simpl; destruct Hs as [m ->]; eauto.
      + destruct (run r _ [] _); eauto.
Qed.

Lemma match_found n r s :
    is_Some (match_ n r s) ↔ ∃ pre q s', s = pre +:+ q ∧ lang r q s'.
Proof.
    rewrite <- search_found. unfold match_.
    destruct (search r s) as [[m c]|]; split; intros [? ?]; eauto; done.
Qed.

Lemma match_length n r s matches :
    match_ n r s = Some matches → length matches = S n.
Proof.
    unfold match_. destruct (search r s) as [[m c]|]; [|done].
    intros [= <-]. simpl. by rewrite length_map, length_seq.
Qed.
End RegexFacts.


(** * The field resolver *)

Section ResolverFacts.
Import Js Regex Loader Props.
Context (R : RemoteStore) (L : loader) (rs : rstate R) (m : gmap string string).

Lemma literal_app p : ∀ s s' t,
  literal p s = Some s' → literal p (s +:+ t) = Some (s' +:+ t).
Proof.
  induction p as [|a p IH]; intros s s' t; simpl.
  - by intros [= ->].
  - destruct s as [|b s]; [done|]. simpl.
    destruct (decide (upper a = upper b)); [apply IH | done].
Qed.

(** A word of a regex without end assertion stays one when the input
    goes on. *)
Lemma lang_app r s s' t :
  anchored r = false → lang r s s' → lang r (s +:+ t) (s' +:+ t).
Proof.
  intros Ha Hl. induction Hl; simpl in Ha; try discriminate;
    try (apply orb_false_elim in Ha as [Ha1 Ha2]).
  - constructor. by apply literal_app.
  - by apply lang_plus_one.
  - apply lang_plus_more; auto.
  - apply lang_star_nil.
  - apply lang_star_cons; auto.
  - constructor; auto.
  - econstructor; eauto.
  - apply lang_alt_l; auto.
  - apply lang_alt_r; auto.
Qed.

Lemma lang_seq_app r1 r2 s s1 s2 t :
  anchored r1 = false → lang r1 s s1 → lang r2 (s1 +:+ t) s2 →
  lang (Seq r1 r2) (s +:+ t) s2.
Proof. intros Ha H1 H2. econstructor; [by apply lang_app | done]. Qed.

(** A lazy star that ran to the end of the input also swallows what is
    appended, as long as it is in the class. *)
Lemma lang_star_absorb cls s t :
  lang (StarLazy cls) s "" → allChars cls t = true →
  lang (StarLazy cls) (s +:+ t) "".
Proof.
  intros Hl Ht. remember (StarLazy cls) as r eqn:Hr.
  remember "" as e eqn:He. induction Hl; try discriminate.
  - injection Hr as ->. subst s. simpl. clear -Ht.
    induction t as [|c t IH]; [constructor|]. simpl in Ht.
    apply andb_true_iff in Ht as [Hc Ht]. apply lang_star_cons; auto.
  - injection Hr as ->. simpl. apply lang_star_cons; auto.
Qed.

(** Text without a line terminator after a query leaves it a query. *)
Lemma SOQL_REGEX_app q s' t :
  lang SOQL_REGEX q s' → allChars is_dot t = true →
  ∃ s'', lang SOQL_REGEX (q +:+ t) s''.
Proof.
  unfold SOQL_REGEX. intros H Ht.
  repeat match type of H with
         | lang (Seq _ (Seq _ _)) _ _ =>
             let x := fresh "x" in let H1 := fresh "H1" in
             apply lang_seq_inv in H as (x & H1 & H)
         end.
  apply lang_seq_inv in H as (y & Hg3 & Hg4).
  apply lang_group_inv in Hg3. apply lang_group_inv, lang_alt_inv in Hg4.
  destruct Hg4 as [Hend|Horder].
  - apply lang_end_inv in Hend as [-> ->]. exists "".
    repeat (eapply lang_seq_app; [reflexivity | eassumption |]).
    econstructor.
    + constructor. by apply lang_star_absorb.
    + constructor. apply lang_alt_l. constructor.
  - exists (s' +:+ t).
    repeat (eapply lang_seq_app; [reflexivity | eassumption |]).
    eapply lang_seq_app; [reflexivity | by constructor |].
    constructor. apply lang_alt_r. by apply lang_app.
Qed.

Lemma append_assoc (a b c : string) : (a +:+ b) +:+ c = a +:+ (b +:+ c).
Proof.
  induction a as [|x a IH]; [done|].
  change (String x ((a +:+ b) +:+ c) = String x (a +:+ b +:+ c)). by f_equal.
Qed.

Lemma isQuery_app pre q post :
  isQuery q → allChars is_dot post = true → isQuery (pre +:+ q +:+ post).
Proof.
  unfold isQuery. rewrite !match_found.
  intros (pre' & q' & s' & -> & Hl) Hpost.
  destruct (SOQL_REGEX_app q' s' post Hl Hpost) as (s'' & Hl').
  exists (pre +:+ pre'), (q' +:+ post), s''. split; [|done].
  by rewrite !append_assoc.
Qed.

(** A string that matches is resolved by the lookup, whatever the
    identity map holds. *)
Lemma getFieldValue_query s :
  isQuery s →
  ∃ soqlSelect soqlFrom soqlWhere,
    getFieldValue R L rs m (VStr s) =
    lookupResult R L rs s soqlSelect soqlFrom soqlWhere.
Proof.
  intros [matches Hm]. cbn [getFieldValue]. rewrite Hm.
  rewrite bool_decide_eq_true_2
    by (rewrite (match_length _ _ _ _ Hm); lia).
  exists (default "" (mjoin (matches !! 1%nat))),
         (default "" (mjoin (matches !! 2%nat))),
         (default "" (mjoin (matches !! 3%nat))).
  unfold lookupResult.
  destruct (find R rs _ _ _ _ _) as [err|[|Id data]]; reflexivity.
Qed.

(** A string that does not match is looked up in the identity map. *)
Lemma getFieldValue_plain s :
  ¬ isQuery s → getFieldValue R L rs m (VStr s) = fromIdentityMap m s.
Proof.
  intros Hq. cbn [getFieldValue].
  destruct (match_ 4 SOQL_REGEX s) as [matches|] eqn:Hm; [|done].
  destruct Hq. by exists matches.
Qed.

(** The policy of the resolver: a nested record is resolved field by
    field; a scalar that is not a string is returned as it is; a query is
    looked up; a string that the identity map sends to a non-empty id is
    replaced by it; a string that is no key of the identity map and no
    member of [Object.prototype] is returned as it is. *)
Lemma getFieldValue_policy :
  (∀ fs, getFieldValue R L rs m (VObj fs) =
         let '(ev, fs', e) := updateFieldValues R L rs m fs in (ev, VObj fs', e)) ∧
  getFieldValue R L rs m VNull = ([], VNull, None) ∧
  (∀ b, getFieldValue R L rs m (VBool b) = ([], VBool b, None)) ∧
  (∀ r, getFieldValue R L rs m (VNum r) = ([], VNum r, None)) ∧
  (∀ s, isQuery s →
     ∃ soqlSelect soqlFrom soqlWhere,
       getFieldValue R L rs m (VStr s) =
       lookupResult R L rs s soqlSelect soqlFrom soqlWhere) ∧
  (∀ s newId, ¬ isQuery s → m !! s = Some newId → newId ≠ "" →
     getFieldValue R L rs m (VStr s) = ([], VStr newId, None)) ∧
  (∀ s, ¬ isQuery s → m !! s = None → s ∉ object_prototype_keys →
     getFieldValue R L rs m (VStr s) = ([], VStr s, None)).
Proof.
  repeat split; try done.
  - apply getFieldValue_query.
  - intros s newId Hq Hs Hne. rewrite getFieldValue_plain by done.
    unfold fromIdentityMap, read. rewrite Hs. simpl. by destruct newId.
  - intros s Hq Hs Hp. rewrite getFieldValue_plain by done.
    unfold fromIdentityMap, read. rewrite Hs.
    by rewrite bool_decide_eq_false_2.
Qed.
End ResolverFacts.

Section ResolverClaims.
Import Js Regex Loader Props.

(** C4 (the code departs from it).  The policy ends with: a string that
    is no query and no key of the identity map is returned unchanged.
    The identity map is an object literal, so reading the key
    [constructor] finds the member inherited from [Object.prototype]:
    with an empty identity map the resolver returns that function
    instead of the text. *)
Theorem C4_inherited_key_replaces_text (R : RemoteStore) (L : loader)
    (rs : rstate R) :
  ¬ isQuery "constructor" ∧
  (∅ : gmap string string) !! "constructor" = None ∧
  getFieldValue R L rs ∅ (VStr "constructor") = ([], VNative "constructor", None).
Proof.
  split; [|split; [done|]].
  - unfold isQuery. vm_compute. intros [? ?]. discriminate.
  - rewrite getFieldValue_plain; [done|].
    unfold isQuery. vm_compute. intros [? ?]. discriminate.
Qed.

(** C10 (amended).  A string that contains a query, with no line
    terminator between the end of that query and the end of the string,
    is taken as an embedded query as a whole, and the remote lookup is
    issued, whatever precedes the query and whatever the identity map
    holds. *)
Theorem C10_query_inside_text (R : RemoteStore) (L : loader) (rs : rstate R)
    (m : gmap string string) (pre q post : string) :
  isQuery q → allChars is_dot post = true →
  ∃ soqlSelect soqlFrom soqlWhere,
    getFieldValue R L rs m (VStr (pre +:+ q +:+ post)) =
    lookupResult R L rs (pre +:+ q +:+ post) soqlSelect soqlFrom soqlWhere.
Proof.
  intros Hq Hpost. apply getFieldValue_query. by apply isQuery_app.
Qed.

Lemma C10_query_inside_text_witness :
  ∃ soqlSelect soqlFrom soqlWhere,
    getFieldValue (Demo.store (λ _, ["001"]) []) Demo.parentChild.1 [] ∅
      (VStr ("see " +:+ "SELECT Id FROM Account WHERE Name='Acme'" +:+ " (main)")) =
    lookupResult (Demo.store (λ _, ["001"]) []) Demo.parentChild.1 []
      ("see " +:+ "SELECT Id FROM Account WHERE Name='Acme'" +:+ " (main)")
      soqlSelect soqlFrom soqlWhere.
Proof.
  apply (C10_query_inside_text (Demo.store (λ _, ["001"]) [])).
  - unfold isQuery. vm_compute. eauto.
  - vm_compute. reflexivity.
Defined.

(** C10 as stated fails: the pattern is anchored to the end of the string
    unless ORDER BY follows, and [.] stops at a line terminator.  Here a
    query is followed by a second line; no lookup is issued and the text
    is returned unchanged. *)
Lemma C10_counterexample :
  isQuery "SELECT Id FROM Account WHERE Name='Acme'" ∧
  getFieldValue (Demo.store (λ _, ["001"]) []) Demo.parentChild.1 [] ∅
    (VStr ("see " +:+ "SELECT Id FROM Account WHERE Name='Acme'" +:+
           Demo.newline +:+ "for details")) =
  ([], VStr ("see " +:+ "SELECT Id FROM Account WHERE Name='Acme'" +:+
             Demo.newline +:+ "for details"), None).
Proof.
  split.
  - unfold isQuery. vm_compute. eauto.
  - vm_compute. reflexivity.
Qed.
End ResolverClaims.


(** * The memoised walk *)

Section WalkFacts.
Import Loader Props.
Context {St : Type} (cache : St → gmap string outcome)
  (enter : string → St → St) (memo : string → outcome → St → St)
  (neighbours : gmap string (list string)) (work : string → St → outcome * St).

Local Abbreviation walk := (walk cache enter memo neighbours work).

Lemma walk_hit fuel s st o :
  cache st !! s = Some o → walk fuel s st = Some (o, st).
Proof. intros H. destruct fuel; simpl; by rewrite H. Qed.

Lemma forAwait_inv (J : option error → St → Prop)
    (f : string → St → option (outcome * St)) (xs0 : list string) (st0 : St) :
  (∀ done x rest st1 o st2,
     xs0 = done ++ x :: rest → J None st1 → cache st0 ⊆ cache st1 →
     (∀ z, z ∈ done → cache st1 !! z = Some Resolved) →
     f x st1 = Some (o, st2) →
     J (failureOf o) st2 ∧ cache st1 ⊆ cache st2 ∧ cache st2 !! x = Some o) →
  ∀ xs done st o st',
    xs0 = done ++ xs → J None st → cache st0 ⊆ cache st →
    (∀ z, z ∈ done → cache st !! z = Some Resolved) →
    forAwait f xs st = Some (o, st') →
    J (failureOf o) st' ∧ cache st0 ⊆ cache st' ∧
    (o = Resolved → ∀ z, z ∈ xs0 → cache st' !! z = Some Resolved).
Proof.
  intros Hf. induction xs as [|x xs IH]; intros done st o st' Heq HJ Hsub Hdone Hfa;
    simpl in Hfa.
  - injection Hfa as <- <-. rewrite app_nil_r in Heq. subst done. auto.
  - destruct (f x st) as [[o1 st1]|] eqn:Hx; [|done].
    destruct (Hf done x xs st o1 st1 Heq HJ Hsub Hdone Hx) as (HJ1 & Hsub1 & Hx1).
    destruct o1 as [|e].
    + apply (IH (done ++ [x]) st1); [|done| |..|done].
      * by rewrite <- app_assoc.
      * by etrans.
      * intros z [Hz|Hz%list_elem_of_singleton]%elem_of_app.
        -- eapply lookup_weaken; [by apply Hdone | done].
        -- by subst z.
    + injection Hfa as <- <-. split; [done|]. split; [by etrans | done].
Qed.

Section Invariant.
Context (I : (string → Prop) → option error → St → Prop).
Hypothesis cache_enter : ∀ s st, cache (enter s st) = cache st.
Hypothesis cache_memo : ∀ s o st, cache (memo s o st) = <[s := o]> (cache st).
Hypothesis cache_work : ∀ s st, cache (work s st).2 = cache st.
Hypothesis I_pending : ∀ pending fail st x,
  I pending fail st → pending x → cache st !! x = None.
Hypothesis I_clean : ∀ pending st x o,
  I pending None st → cache st !! x = Some o → o = Resolved.
Hypothesis I_enter : ∀ pending st s,
  I pending None st → cache st !! s = None → ¬ pending s →
  I (λ x, pending x ∨ x = s) None (enter s st).
Hypothesis I_reject : ∀ pending fail st s e,
  I (λ x, pending x ∨ x = s) fail st → ¬ pending s →
  fail = None ∨ fail = Some e →
  I pending (Some e) (memo s (Rejected e) st).
Hypothesis I_work : ∀ pending st s,
  I (λ x, pending x ∨ x = s) None st → ¬ pending s →
  (∀ ns n, neighbours !! s = Some ns → n ∈ ns → cache st !! n = Some Resolved) →
  I pending (failureOf (work s st).1) (memo s (work s st).1 (work s st).2).

(** A walk that comes back to a name whose body is still running never
    returns: the cache learns a name only when its body ends. *)
Lemma walk_reenters fuel : ∀ (P : string → Prop) st,
  (∀ x, P x →
     cache st !! x = None ∧
     ∃ ns i y, neighbours !! x = Some ns ∧ ns !! i = Some y ∧ P y ∧
       ∀ j z, (j < i)%nat → ns !! j = Some z → cache st !! z = Some Resolved) →
  ∀ x, P x → walk fuel x st = None.
Proof.
  induction fuel as [|fuel IH]; intros P st HP x Hx;
    destruct (HP x Hx) as (Hnone & ns & i & y & Hns & Hi & Hy & Hearlier);
    simpl; rewrite Hnone; [done|]. rewrite Hns.
  assert (Hy' : walk fuel y (enter x st) = None).
  { apply (IH P); [|done]. intros z Hz. rewrite cache_enter.
    destruct (HP z Hz) as (? & ns' & i' & y' & ? & ? & ? & Hc).
    split; [done|]. exists ns', i', y'.
    split; [done|]. split; [done|]. split; [done|].
    intros j z' ? ?. eauto. }
  assert (Hloop : ∀ (l : list string) k st1,
            cache st1 = cache st → l !! k = Some y →
            (∀ j z, (j < k)%nat → l !! j = Some z → cache st1 !! z = Some Resolved) →
            walk fuel y st1 = None → forAwait (walk fuel) l st1 = None).
  { induction l as [|z l IHl]; intros k st1 Hc Hk Hpre Hnone'; [done|].
    destruct k as [|k]; simpl in *.
    - injection Hk as ->. by rewrite Hnone'.
    - rewrite (walk_hit fuel z st1 Resolved) by (apply (Hpre 0%nat); [lia | done]).
      apply (IHl k); try done. intros j z' ? ?. apply (Hpre (S j)); [lia | done]. }
  rewrite (Hloop ns i (enter x st)); [done | apply cache_enter | done | | done].
  intros j z ? ?. rewrite cache_enter. eauto.
Qed.

(** The invariant goes through a call that returns. *)
Lemma walk_inv fuel : ∀ s st o st' (pending : string → Prop),
  (∀ x, pending x →
     ∃ ns i y, neighbours !! x = Some ns ∧ ns !! i = Some y ∧
       (pending y ∨ y = s) ∧
       ∀ j z, (j < i)%nat → ns !! j = Some z → cache st !! z = Some Resolved) →
  I pending None st →
  walk fuel s st = Some (o, st') →
  I pending (failureOf o) st' ∧ cache st ⊆ cache st' ∧ cache st' !! s = Some o.
Proof.
  induction fuel as [|fuel IH]; intros s st o st' pending Hchain HI Hw.
  { simpl in Hw. destruct (cache st !! s) as [o'|] eqn:Hc; [|done].
    pose proof (I_clean _ _ _ _ HI Hc) as ->. injection Hw as <- <-.
    split; [exact HI|]. split; [reflexivity | exact Hc]. }
  destruct (cache st !! s) as [o'|] eqn:Hc.
  { rewrite (walk_hit _ _ _ _ Hc) in Hw.
    pose proof (I_clean _ _ _ _ HI Hc) as ->. injection Hw as <- <-.
    split; [exact HI|]. split; [reflexivity | exact Hc]. }
  assert (Hnp : ¬ pending s).
  { intros Hp. rewrite (walk_reenters (S fuel) pending st) in Hw; [done| |done].
    intros x Hx. split; [by eapply I_pending|].
    destruct (Hchain x Hx) as (ns & i & y & ? & ? & [?| ->] & ?);
      exists ns, i; eauto 10. }
  simpl in Hw. rewrite Hc in Hw.
  pose proof (I_enter _ _ _ HI Hc Hnp) as HIa.
  set (pending' := λ x, pending x ∨ x = s) in *.
  assert (Hs1 : ∀ st1, I pending' None st1 ∨ (∃ e, I pending' (Some e) st1) →
            cache st1 !! s = None).
  { intros st1 [H|[e H]]; eapply I_pending; try exact H; by right. }
  destruct (neighbours !! s) as [ns|] eqn:Hns.
  - destruct (forAwait _ ns (enter s st)) as [[o1 st1]|] eqn:Hfa; [|done].
    apply (forAwait_inv (I pending') _ ns (enter s st)) with (done := [])
      in Hfa as (HI1 & Hsub1 & Hall); try done.
    + rewrite cache_enter in Hsub1. destruct o1 as [|e].
      * injection Hw as <- <-.
        split; [apply I_work; [exact HI1 | exact Hnp |] |].
        { intros ns' n Hns' Hn. rewrite Hns in Hns'. injection Hns' as <-.
          by apply Hall. }
        rewrite cache_memo, cache_work.
        split; [|by rewrite lookup_insert_eq].
        etrans; [exact Hsub1|]. apply insert_subseteq, Hs1. by left.
      * injection Hw as <- <-.
        split; [eapply I_reject; [exact HI1 | exact Hnp | by right] |].
        rewrite cache_memo. split; [|by rewrite lookup_insert_eq].
        etrans; [exact Hsub1|]. apply insert_subseteq, Hs1. right. by exists e.
    + intros done x rest st2 o2 st3 Heq HJ Hsub Hdone Hx.
      apply (IH x st2 o2 st3 pending'); [|done..].
      rewrite cache_enter in Hsub.
      intros z [Hz| ->].
      * destruct (Hchain z Hz) as (ns' & i & y & ? & ? & Hy & Hc').
        exists ns', i, y. split; [done|]. split; [done|]. split.
        -- left. destruct Hy as [?| ->]; [by left | by right].
        -- intros j z' ? ?. eapply lookup_weaken; [eauto | done].
      * exists ns, (length done), x. split; [done|]. subst ns.
        split; [by rewrite list_lookup_middle|]. split; [by right|].
        intros j z' Hj Hl. apply Hdone.
        rewrite lookup_app_l in Hl by done. by eapply list_elem_of_lookup_2.
    + intros z Hz. by apply not_elem_of_nil in Hz.
  - injection Hw as <- <-.
    split; [eapply I_reject; [exact HIa | exact Hnp | by left] |].
    rewrite cache_memo, cache_enter. split; [|by rewrite lookup_insert_eq].
    by apply insert_subseteq.
Qed.

Lemma walk_caches fuel s st o st' :
  walk fuel s st = Some (o, st') → cache st' !! s = Some o.
Proof.
  destruct fuel as [|fuel]; simpl; destruct (cache st !! s) eqn:Hc.
  - by intros [= <- <-].
  - done.
  - by intros [= <- <-].
  - destruct (neighbours !! s); [destruct (forAwait _ _ _) as [[[|e] st1]|]|];
      intros [= <- <-]; rewrite ?cache_memo; by rewrite ?lookup_insert_eq.
Qed.
End Invariant.

(** When no name reaches itself, a call returns once the fuel exceeds
    the number of names that have neighbours: the names whose body is
    running are all different. *)
Lemma forAwait_returns (f : string → St → option (outcome * St)) xs :
  (∀ x st, x ∈ xs → is_Some (f x st)) → ∀ st, is_Some (forAwait f xs st).
Proof.
  induction xs as [|x xs IH]; intros Hf st; simpl; [eauto|].
  destruct (Hf x st) as [[[|e] st1] ->]; [by left| |eauto].
  apply IH. intros y st2 Hy. apply Hf. by right.
Qed.

Lemma walk_returns (names : list string) :
  (∀ s ns, neighbours !! s = Some ns → s ∈ names) →
  (∀ s, ¬ reaches neighbours s s) →
  ∀ fuel s st (path : list string),
    NoDup path →
    (∀ x, x ∈ path → x ∈ names ∧ reaches neighbours x s) →
    (length names < fuel + length path)%nat →
    is_Some (walk fuel s st).
Proof.
  intros Hnames Hacyclic.
  induction fuel as [|fuel IH]; intros s st path Hnodup Hpath Hlen.
  { assert (length path ≤ length names)%nat; [|lia].
    apply submseteq_length, NoDup_submseteq; [done|].
    intros x Hx. by apply Hpath. }
  simpl. destruct (cache st !! s); [eauto|].
  destruct (neighbours !! s) as [ns|] eqn:Hns; [|eauto].
  destruct (forAwait_returns (walk fuel) ns) with (st := enter s st)
    as [[[|e] st1] ->]; eauto.
  intros n st1 Hn. apply (IH n st1 (s :: path)).
  - constructor; [|done]. intros Hs. destruct (Hpath s Hs) as [_ Hr].
    by apply (Hacyclic s).
  - intros x [->|Hx]%elem_of_cons.
    + split; [by eapply Hnames | by eapply reaches_edge].
    + destruct (Hpath x Hx) as [? Hr]. split; [done|].
      by eapply reaches_next.
  - simpl. lia.
Qed.
End WalkFacts.


(** * Traces, paths and the identity map *)

Section TraceFacts.
Import Js Loader Props.

(** Where an element of an extended list sits. *)
Lemma app_eq_middle {A} (l a l1 l2 : list A) x :
  l ++ a = l1 ++ x :: l2 →
  (∃ l2', l = l1 ++ x :: l2' ∧ l2 = l2' ++ a) ∨
  (∃ a1, l1 = l ++ a1 ∧ a = a1 ++ x :: l2).
Proof.
  revert l1. induction l as [|y l IH]; intros l1 H.
  - right. by exists l1.
  - destruct l1 as [|z l1]; simpl in H.
    + injection H as -> <-. left. by exists l.
    + injection H as -> H. destruct (IH l1 H) as [(l2' & -> & ->)|(a1 & -> & ->)].
      * left. by exists l2'.
      * right. by exists a1.
Qed.

Lemma loads_app l1 l2 : loads (l1 ++ l2) = loads l1 ++ loads l2.
Proof. apply omap_app. Qed.

Lemma loads_elem x log : x ∈ loads log ↔ CreatingStarted x ∈ log.
Proof.
  unfold loads. rewrite list_elem_of_omap. split.
  - intros (e & He & Hx). by destruct e; simplify_eq/=.
  - intros H. by exists (CreatingStarted x).
Qed.

Lemma loads_none added :
  (∀ e, e ∈ added → creating e = None) → loads added = [].
Proof.
  induction added as [|e added IH]; intros H; [done|].
  unfold loads. simpl. rewrite (H e) by left. apply IH.
  intros e' He'. apply H. by right.
Qed.

Lemma deletes_app l1 l2 : deletes (l1 ++ l2) = deletes l1 ++ deletes l2.
Proof. apply omap_app. Qed.

Lemma deletes_elem x log : x ∈ deletes log ↔ DeletingStarted x ∈ log.
Proof.
  unfold deletes. rewrite list_elem_of_omap. split.
  - intros (e & He & Hx). by destruct e; simplify_eq/=.
  - intros H. by exists (DeletingStarted x).
Qed.

Lemma string_length_app (a b : string) :
  String.length (a +:+ b) = (String.length a + String.length b)%nat.
Proof.
  induction a as [|c a IH]; [done|].
  change (S (String.length (a +:+ b)) = S (String.length a + String.length b)).
  by rewrite IH.
Qed.

Lemma string_app_inj_r (a b t : string) : a +:+ t = b +:+ t → a = b.
Proof.
  revert b. induction a as [|c a IH]; intros [|d b] H.
  - done.
  - change (t = String d b +:+ t) in H. apply (f_equal String.length) in H.
    rewrite string_length_app in H. simpl in H. lia.
  - change (String c a +:+ t = t) in H. apply (f_equal String.length) in H.
    rewrite string_length_app in H. simpl in H. lia.
  - change (String c (a +:+ t) = String d (b +:+ t)) in H.
    injection H as -> H. f_equal. by apply IH.
Qed.

(** Two collections never share an identifier file. *)
Lemma idsFile_inj L x y : idsFile L x = idsFile L y → x = y.
Proof.
  unfold idsFile. intros H.
  apply (inj (String.app _)) in H. apply (inj (String.app _)) in H.
  by apply string_app_inj_r in H.
Qed.

Lemma merge_lookup_source (m p : gmap string string) k :
  is_Some (p !! k) → is_Some (merge m p !! k).
Proof. unfold merge. rewrite lookup_union_is_Some. by left. Qed.

Lemma merge_lookup_object (m p : gmap string string) k :
  is_Some (m !! k) → is_Some (merge m p !! k).
Proof.
  unfold merge. rewrite lookup_union_is_Some. by right.
Qed.

Lemma Loaded_mono log log' m m' A :
  Loaded log m A → log ⊆ log' →
  (∀ k, is_Some (m !! k) → is_Some (m' !! k)) → Loaded log' m' A.
Proof.
  intros (res & p & mA & Hc & Hm & Hk) Hl Hm'.
  exists res, p, mA. split; [by apply Hl|]. split; [by apply Hl|]. auto.
Qed.

Lemma ancestor_last L A C :
  ancestor L A C → ∃ P, parentOf L P C ∧ (A = P ∨ ancestor L A P).
Proof. destruct 1 as [A C H|A P C H1 H2]; [exists A | exists P]; auto. Qed.
End TraceFacts.


(** * The load walk *)

(** Case analysis on the membership of an event in an extended trace. *)
Ltac split_mem H :=
  repeat match type of H with
         | _ ∈ _ ++ _ => apply elem_of_app in H as [H|H]
         | _ ∈ _ :: _ => apply elem_of_cons in H as [H|H]
         | _ ∈ [] => by apply not_elem_of_nil in H
         end.

Ltac not_lookup Hev H :=
  match type of H with
  | ?e ∈ _ =>
      let F := fresh in
      assert (F : Props.finding e) by (revert H; apply Forall_forall, Hev);
      try (exfalso; exact F); try (by destruct e)
  end.

Ltac old_event H :=
  apply elem_of_app in H as [H|H]; [|split_mem H; discriminate].

Section ValueInduction.
Import Js.

Lemma value_ind_nested (P : value → Prop) :
  P VNull → (∀ b, P (VBool b)) → (∀ r, P (VNum r)) → (∀ s, P (VStr s)) →
  (∀ l, Forall P l → P (VArr l)) →
  (∀ fs, Forall (λ kv, P kv.2) fs → P (VObj fs)) →
  (∀ n, P (VNative n)) → ∀ v, P v.
Proof.
  intros Hnull Hbool Hnum Hstr Harr Hobj Hnat. fix IH 1.
  intros [ | b | r | s | l | fs | n].
  - exact Hnull.
  - apply Hbool.
  - apply Hnum.
  - apply Hstr.
  - apply Harr. revert l. fix IHl 1.
    intros [|x l]; constructor; [apply IH | apply IHl].
  - apply Hobj. revert fs. fix IHfs 1.
    intros [|[k x] fs]; constructor; [apply IH | apply IHfs].
  - apply Hnat.
Qed.
End ValueInduction.

Section LoadFacts.
Import Js Loader Props.
Context (R : RemoteStore) (L : loader).

(** The resolver only issues lookups. *)
Lemma overFields_events f fs :
  Forall (λ kv : string * value, Forall finding (f kv.2).1.1) fs →
  Forall finding (overFields f fs).1.1.
Proof.
  induction 1 as [|[k v] fs Hv _ IH]; simpl in *; [constructor|].
  destruct (f v) as [[ev1 v'] e1]. destruct (overFields f fs) as [[ev2 r'] e2].
  simpl in *. by apply Forall_app.
Qed.

Lemma overElems_events f l :
  Forall (λ v : value, Forall finding (f v).1.1) l →
  Forall finding (overElems f l).1.1.
Proof.
  induction 1 as [|v l Hv _ IH]; simpl in *; [constructor|].
  destruct (f v) as [[ev1 v'] e1]. destruct (overElems f l) as [[ev2 r'] e2].
  simpl in *. by apply Forall_app.
Qed.

Lemma getFieldValue_events rs m v :
  Forall finding (getFieldValue R L rs m v).1.1.
Proof.
  induction v as [ | b | r | s | l IH | fs IH | n] using value_ind_nested;
    try (simpl; constructor).
  - cbn [getFieldValue].
    destruct (Regex.match_ 4 SOQL_REGEX s) as [matches|].
    + destruct (bool_decide _).
      * destruct (find R rs _ _ _ _ _) as [err|data]; [|destruct (head data)];
          simpl; repeat constructor.
      * unfold fromIdentityMap. destruct (truthy _); constructor.
    + unfold fromIdentityMap. destruct (truthy _); constructor.
  - cbn [getFieldValue].
    pose proof (overElems_events (getFieldValue R L rs m) l IH) as H.
    by destruct (overElems _ l) as [[ev l'] e].
  - cbn [getFieldValue].
    pose proof (overFields_events (getFieldValue R L rs m) fs IH) as H.
    by destruct (overFields _ fs) as [[ev fs'] e].
Qed.

Lemma updateAll_events rs m records :
  Forall finding (updateAll R L rs m records).1.1.
Proof.
  induction records as [|r records IH]; simpl; [constructor|].
  unfold updateFieldValues.
  pose proof (overFields_events (getFieldValue R L rs m) r) as H.
  destruct (overFields _ r) as [[ev1 r'] e1].
  destruct (updateAll R L rs m records) as [[ev2 rest'] e2]. simpl in *.
  apply Forall_app. split; [|done]. apply H.
  apply Forall_forall. intros kv _. apply getFieldValue_events.
Qed.

(** [loadSObjectData] is the memoised walk over the parents. *)
Lemma forAwait_ext {St} (f g : string → St → option (outcome * St)) xs st :
  (∀ x st', f x st' = g x st') → forAwait f xs st = forAwait g xs st.
Proof.
  intros H. revert st. induction xs as [|x xs IH]; intros st; simpl; [done|].
  rewrite H. destruct (g x st) as [[[|e] st']|]; auto.
Qed.

Lemma loadSObjectData_walk fuel : ∀ s st,
  loadSObjectData R L fuel s st =
  walk (l_cache R) (λ x, l_emit R [CreatingStarted x]) (l_memo R)
       (child2parentSObjects L) (loadRecords R L) fuel s st.
Proof.
  induction fuel as [|fuel IH]; intros s st; simpl; [done|].
  destruct (l_cache R st !! s); [done|].
  destruct (child2parentSObjects L !! s) as [parents|]; [|done].
  by rewrite (forAwait_ext _ _ _ _ IH).
Qed.

Lemma writeJSONFile_other f ids d f' :
  f' ≠ f → (FileSystem.writeJSONFile f ids d).2 !! f' = d !! f'.
Proof.
  intros Hne. unfold FileSystem.writeJSONFile, FileSystem.writeFile.
  destruct (d !! f) as [[]|]; simpl; by rewrite ?lookup_insert_ne.
Qed.

(** What one run of [loadRecords] does. *)
Lemma loadRecords_worked s st :
  ∃ added, Worked L s st (loadRecords R L s st).1 (loadRecords R L s st).2 added.
Proof.
  unfold loadRecords.
  destruct (sobject2records (l_world R st) !! s) as [oldRecords|].
  2: { exists []. split; simpl; try done.
       - by rewrite app_nil_r.
       - intros e H. by apply not_elem_of_nil in H.
       - intros l1 C mm l2 H. by destruct l1.
       - intros x recs H. by apply not_elem_of_nil in H.
       - intros x res H. by apply not_elem_of_nil in H.
       - intros f ids H. by apply not_elem_of_nil in H.
       - intros x p mm H. by apply not_elem_of_nil in H. }
  pose proof (updateAll_events (remote (l_world R st)) (old2newId R st)
                oldRecords) as Hev.
  destruct (updateAll _ _ _ _ _) as [[lookups resolved] failure]; simpl in Hev.
  assert (Hfirst : ∀ tail l1 C mm l2,
            (∀ C' mm', Resolving C' mm' ∉ tail) →
            Resolving s (old2newId R st) :: tail = l1 ++ Resolving C mm :: l2 →
            l1 = [] ∧ C = s ∧ mm = old2newId R st).
  { intros tail l1 C mm l2 Hno H. destruct l1 as [|e l1]; simpl in H.
    - by injection H as <- <- _.
    - injection H as _ H. destruct (Hno C mm). rewrite H.
      apply elem_of_app. right. by left. }
  destruct failure as [err|].
  - eexists. split; [reflexivity|simpl..]; try done.
    + intros e H. split_mem H; [by subst | not_lookup Hev H].
    + intros l1 C mm l2. apply Hfirst. intros C' mm' H. not_lookup Hev H.
    + intros x recs H. split_mem H; [done | not_lookup Hev H].
    + intros x res H. split_mem H; [done | not_lookup Hev H].
    + intros f ids H. split_mem H; [done | not_lookup Hev H].
    + intros x p mm H. split_mem H; [done | not_lookup Hev H].
    + intros x Hx. by rewrite lookup_insert_ne.
  - destruct (create R _ _ _ _) as [[err|newRecords] remote'].
    + eexists. split; [reflexivity|simpl..]; try done.
      * intros e H. split_mem H; [by subst | not_lookup Hev H | by subst].
      * intros l1 C mm l2. apply Hfirst. intros C' mm' H.
        split_mem H; [not_lookup Hev H | done].
      * intros x recs H. split_mem H; [done | not_lookup Hev H |].
        injection H as -> ->. by rewrite lookup_insert_eq.
      * intros x res H. split_mem H; [done | not_lookup Hev H | done].
      * intros f ids H. split_mem H; [done | not_lookup Hev H | done].
      * intros x p mm H. split_mem H; [done | not_lookup Hev H | done].
      * intros x Hx. by rewrite lookup_insert_ne.
    + destruct (existsb _ newRecords) eqn:Hfail.
      * eexists. split; [reflexivity|simpl..]; try done.
        -- intros e H. split_mem H; [by subst | not_lookup Hev H | by subst..].
        -- intros l1 C mm l2. apply Hfirst. intros C' mm' H.
           split_mem H; [not_lookup Hev H | done..].
        -- intros x recs H. split_mem H; [done | not_lookup Hev H | | done].
           injection H as -> ->. by rewrite lookup_insert_eq.
        -- intros x res H. split_mem H; [done | not_lookup Hev H | done |].
           by injection H as -> ->.
        -- intros f ids H. split_mem H; [done | not_lookup Hev H | done..].
        -- intros x p mm H. split_mem H; [done | not_lookup Hev H | done..].
        -- intros x Hx. by rewrite lookup_insert_ne.
      * eexists. split; [reflexivity|simpl..].
        -- done.
        -- intros e H. split_mem H; [by subst | not_lookup Hev H | by subst..].
        -- intros l1 C mm l2. apply Hfirst. intros C' mm' H.
           split_mem H; [not_lookup Hev H | done..].
        -- intros x recs H. split_mem H; [done | not_lookup Hev H | | done..].
           injection H as -> ->. by rewrite lookup_insert_eq.
        -- intros x res H.
           split_mem H; [done | not_lookup Hev H | done | | done..].
           injection H as -> ->. split; [done|]. unfold failing. congruence.
        -- intros f ids H.
           split_mem H; [done | not_lookup Hev H | done.. | | done | done].
           by injection H as -> ->.
        -- intros x p mm H.
           split_mem H; [done | not_lookup Hev H | done.. | | done].
           by injection H as -> -> ->.
        -- intros _. eexists _, _. split; [|split; [|done]].
           ++ right. apply elem_of_app. left. apply elem_of_app. right. by left.
           ++ right. apply elem_of_app. right. right. by left.
        -- intros k. apply merge_lookup_object.
        -- intros x Hx. by rewrite lookup_insert_ne.
        -- intros f Hf. by apply writeJSONFile_other.
        -- done.
Qed.
End LoadFacts.

Section LoadInvariant.
Import Js Loader Props.
Context (R : RemoteStore) (L : loader) (w0 : world R).

Lemma LoadInv_enter pending st s :
  LoadInv L w0 pending None st → l_cache R st !! s = None → ¬ pending s →
  LoadInv L w0 (λ x, pending x ∨ x = s) None (l_emit R [CreatingStarted s] st).
Proof.
  intros [Hnodup Hpend Hstart Hcached Hout Hbefore Hmerged Hwriting Hfailed
          Hloaded Hresolving Huntouched Hdisk] Hc Hnp.
  split; cbn [l_emit l_log l_cache l_world old2newId].
  - rewrite loads_app. apply NoDup_app. split; [done|]. split.
    + intros x Hx Hx'. apply list_elem_of_singleton in Hx' as ->.
      apply loads_elem, Hstart in Hx as [[? Hx]|Hx]; [congruence | done].
    + apply NoDup_singleton.
  - intros x [Hx| ->].
    + destruct (Hpend x Hx). split; [done|]. apply elem_of_app. by left.
    + split; [done|]. apply elem_of_app. right. by left.
  - intros x Hx. apply elem_of_app in Hx as [Hx|Hx].
    + destruct (Hstart x Hx); auto.
    + apply list_elem_of_singleton in Hx as [= ->]. auto.
  - intros x Hx. apply elem_of_app. left. auto.
  - done.
  - intros x recs H. old_event H. auto.
  - intros x p m H. old_event H. eauto.
  - intros f ids H. old_event H. eauto.
  - intros x res H. old_event H. eauto.
  - intros x Hx A HA. eapply Loaded_mono; [exact (Hloaded x Hx A HA) | | done].
    intros e He. apply elem_of_app. by left.
  - intros l1 C m l2 Heq A HA.
    apply app_eq_middle in Heq as [(l2' & Heq & _)|(a1 & _ & Heq)].
    + by eapply Hresolving.
    + destruct a1 as [|? [|? ?]]; discriminate.
  - intros x Hx. apply Huntouched. intros H. apply Hx, elem_of_app. by left.
  - done.
Qed.

Lemma LoadInv_reject pending fail st s e :
  LoadInv L w0 (λ x, pending x ∨ x = s) fail st → ¬ pending s →
  fail = None ∨ fail = Some e →
  LoadInv L w0 pending (Some e) (l_memo R s (Rejected e) st).
Proof.
  intros [Hnodup Hpend Hstart Hcached Hout Hbefore Hmerged Hwriting Hfailed
          Hloaded Hresolving Huntouched Hdisk] Hnp Hfail.
  destruct (Hpend s) as [Hc Hs]; [by right|].
  assert (Hne : ∀ x o, l_cache R st !! x = Some o → x ≠ s) by congruence.
  split; cbn [l_memo l_log l_cache l_world old2newId].
  - done.
  - intros x Hx. destruct (Hpend x) as [? ?]; [by left|].
    split; [|done]. rewrite lookup_insert_ne; [done | congruence].
  - intros x Hx. destruct (decide (x = s)) as [->|Hxs].
    + left. by rewrite lookup_insert_eq.
    + rewrite lookup_insert_ne by done.
      destruct (Hstart x Hx) as [?|[?|?]]; [by left | by right | contradiction].
  - intros x Hx. destruct (decide (x = s)) as [->|Hxs]; [done|].
    rewrite lookup_insert_ne in Hx by done. auto.
  - intros x o Hx. destruct (decide (x = s)) as [->|Hxs].
    + rewrite lookup_insert_eq in Hx. injection Hx as <-. right. eauto.
    + rewrite lookup_insert_ne in Hx by done.
      destruct (Hout x o Hx) as [->|(e' & He' & ->)]; [by left|].
      right. exists e'. split; [|done]. destruct Hfail; congruence.
  - intros x recs H. destruct (Hbefore x recs H) as [[o Hx] ?].
    split; [|done]. rewrite lookup_insert_ne; [eauto | by eapply not_eq_sym, Hne].
  - intros x p m H. pose proof (Hmerged x p m H) as Hx.
    rewrite lookup_insert_ne; [done | by eapply not_eq_sym, Hne].
  - intros f ids H. destruct (Hwriting f ids H) as (x & -> & Hx).
    exists x. split; [done|].
    rewrite lookup_insert_ne; [done | by eapply not_eq_sym, Hne].
  - intros x res H Hf. pose proof (Hfailed x res H Hf) as Hx.
    rewrite lookup_insert_ne; [done | by eapply not_eq_sym, Hne].
  - intros x Hx. destruct (decide (x = s)) as [->|Hxs].
    + by rewrite lookup_insert_eq in Hx.
    + rewrite lookup_insert_ne in Hx by done. exact (Hloaded x Hx).
  - done.
  - done.
  - intros x Hx. apply Hdisk. destruct (decide (x = s)) as [->|Hxs].
    + congruence.
    + by rewrite lookup_insert_ne in Hx.
Qed.

Lemma LoadInv_work pending st s :
  LoadInv L w0 (λ x, pending x ∨ x = s) None st → ¬ pending s →
  (∀ ns n, child2parentSObjects L !! s = Some ns → n ∈ ns →
           l_cache R st !! n = Some Resolved) →
  LoadInv L w0 pending (failureOf (loadRecords R L s st).1)
    (l_memo R s (loadRecords R L s st).1 (loadRecords R L s st).2).
Proof.
  intros [Hnodup Hpend Hstart Hcached Hout Hbefore Hmerged Hwriting Hfailed
          Hloaded Hresolving Huntouched Hdisk] Hnp Hparents.
  destruct (loadRecords_worked R L s st) as [added W].
  destruct (loadRecords R L s st) as [o st2]. simpl in W |- *.
  destruct W as [Wlog Wcache Wnostart Wfirst Wbefore Wcreated Wwriting
                 Wmerged Wresolved Wids Wstore Wdisk Wdiskrej].
  destruct (Hpend s) as [Hc Hs]; [by right|].
  assert (Hne : ∀ x o', l_cache R st !! x = Some o' → x ≠ s) by congruence.
  assert (Hsub : l_log R st ⊆ l_log R st2).
  { intros e He. rewrite Wlog. apply elem_of_app. by left. }
  assert (Hanc : ∀ A, ancestor L A s → Loaded (l_log R st) (old2newId R st) A).
  { intros A HA. apply ancestor_last in HA as (P & (ps & Hps & HP) & HA).
    apply (Hloaded P); [by eapply Hparents | done]. }
  assert (Hin : ∀ e, e ∈ l_log R st2 → e ∈ l_log R st ∨ e ∈ added).
  { intros e He. rewrite Wlog in He. by apply elem_of_app in He. }
  split; cbn [l_memo l_log l_cache l_world old2newId]; rewrite ?Wcache.
  - by rewrite Wlog, loads_app, (loads_none added Wnostart), app_nil_r.
  - intros x Hx. destruct (Hpend x) as [? ?]; [by left|].
    split; [|auto]. rewrite lookup_insert_ne; [done | congruence].
  - intros x Hx. apply Hin in Hx as [Hx|Hx]; [|by apply Wnostart in Hx].
    destruct (decide (x = s)) as [->|Hxs].
    + left. by rewrite lookup_insert_eq.
    + rewrite lookup_insert_ne by done.
      destruct (Hstart x Hx) as [?|[?|?]]; [by left | by right | contradiction].
  - intros x Hx. apply Hsub. destruct (decide (x = s)) as [->|Hxs]; [done|].
    rewrite lookup_insert_ne in Hx by done. auto.
  - intros x o' Hx. destruct (decide (x = s)) as [->|Hxs].
    + rewrite lookup_insert_eq in Hx. injection Hx as <-.
      destruct o as [|e]; [by left | right; by exists e].
    + rewrite lookup_insert_ne in Hx by done.
      destruct (Hout x o' Hx) as [->|(e' & He' & _)]; [by left | done].
  - intros x recs H. apply Hin in H as [H|H].
    + destruct (Hbefore x recs H) as [[o' Hx] Hst].
      pose proof (Hne x o' Hx) as Hxs.
      rewrite lookup_insert_ne by done. rewrite Wstore by done. eauto.
    + destruct (Wbefore x recs H) as [-> ?].
      split; [|done]. by rewrite lookup_insert_eq.
  - intros x p m H. apply Hin in H as [H|H].
    + pose proof (Hmerged x p m H) as Hx.
      rewrite lookup_insert_ne; [done | by eapply not_eq_sym, Hne].
    + destruct (Wmerged x p m H) as [-> ->]. by rewrite lookup_insert_eq.
  - intros f ids H. apply Hin in H as [H|H].
    + destruct (Hwriting f ids H) as (x & -> & Hx). exists x. split; [done|].
      rewrite lookup_insert_ne; [done | by eapply not_eq_sym, Hne].
    + destruct (Wwriting f ids H) as [-> ->]. exists s.
      by rewrite lookup_insert_eq.
  - intros x res H Hf. apply Hin in H as [H|H].
    + pose proof (Hfailed x res H Hf) as Hx.
      rewrite lookup_insert_ne; [done | by eapply not_eq_sym, Hne].
    + destruct (Wcreated x res H) as [-> Ho]. rewrite (Ho Hf).
      by rewrite lookup_insert_eq.
  - intros x Hx A HA. destruct (decide (x = s)) as [->|Hxs].
    + rewrite lookup_insert_eq in Hx. injection Hx as ->.
      destruct HA as [->|HA].
      * destruct (Wresolved eq_refl) as (res & p & Hcr & Hmg & Heq).
        exists res, p, (old2newId R st2). rewrite Wlog.
        split; [apply elem_of_app; by right|].
        split; [apply elem_of_app; by right|].
        intros k. rewrite Heq. apply merge_lookup_source.
      * eapply Loaded_mono; [by apply Hanc | done | done].
    + rewrite lookup_insert_ne in Hx by done.
      eapply Loaded_mono; [exact (Hloaded x Hx A HA) | done | done].
  - intros l1 C m l2 Heq A HA. rewrite Wlog in Heq.
    apply app_eq_middle in Heq as [(l2' & Heq & _)|(a1 & -> & Heq)].
    + by eapply Hresolving.
    + destruct (Wfirst a1 C m l2 Heq) as (-> & -> & ->).
      rewrite app_nil_r. by apply Hanc.
  - intros x Hx. assert (x ≠ s) by (intros ->; by apply Hx, Hsub).
    rewrite Wstore by done. apply Huntouched. intros H'. by apply Hx, Hsub.
  - intros x Hx. destruct (decide (x = s)) as [->|Hxs].
    + rewrite lookup_insert_eq in Hx. rewrite Wdiskrej by congruence.
      apply Hdisk. congruence.
    + rewrite lookup_insert_ne in Hx by done.
      rewrite Wdisk by (intros H'; by apply idsFile_inj in H'). by apply Hdisk.
Qed.

(** The invariant goes through every call of [loadSObjectData] that
    returns, acyclic graph or not. *)
Lemma loadSObjectData_inv fuel s st o st' :
  LoadInv L w0 (λ _, False) None st →
  loadSObjectData R L fuel s st = Some (o, st') →
  LoadInv L w0 (λ _, False) (failureOf o) st' ∧
  l_cache R st ⊆ l_cache R st' ∧ l_cache R st' !! s = Some o.
Proof.
  intros HI Hw. rewrite loadSObjectData_walk in Hw.
  assert (Hwork : ∀ x st1, l_cache R (loadRecords R L x st1).2 = l_cache R st1).
  { intros x st1. destruct (loadRecords_worked R L x st1) as [added W].
    apply W. }
  assert (Hpend : ∀ pending fail st1 x,
            LoadInv L w0 pending fail st1 → pending x → l_cache R st1 !! x = None).
  { intros pending fail st1 x H Hx. by destruct (li_pending _ _ _ _ _ H x Hx). }
  assert (Hclean : ∀ pending st1 x o1,
            LoadInv L w0 pending None st1 → l_cache R st1 !! x = Some o1 →
            o1 = Resolved).
  { intros pending st1 x o1 H Hx.
    by destruct (li_outcomes _ _ _ _ _ H x o1 Hx) as [?|(? & ? & ?)]. }
  refine (walk_inv (l_cache R) (λ x, l_emit R [CreatingStarted x]) (l_memo R)
            (child2parentSObjects L) (loadRecords R L) (LoadInv L w0)
            (λ _ _, eq_refl) (λ _ _ _, eq_refl) Hwork Hpend Hclean
            LoadInv_enter LoadInv_reject LoadInv_work
            fuel s st o st' (λ _, False) _ HI Hw).
  intros x [].
Qed.
End LoadInvariant.


(** * The delete walk *)

Section DeleteInvariant.
Import Js Loader Props.
Context (R : RemoteStore) (L : loader) (w0 : world R).

Lemma deleteLoadedSObjectData_walk fuel : ∀ s st,
  deleteLoadedSObjectData R L fuel s st =
  walk (d_cache R) (λ x, d_emit R [DeletingStarted x]) (d_memo R)
       (parent2childObjects L) (deleteRecords R L) fuel s st.
Proof.
  induction fuel as [|fuel IH]; intros s st; simpl; [done|].
  destruct (d_cache R st !! s); [done|].
  destruct (parent2childObjects L !! s) as [children|]; [|done].
  by rewrite (forAwait_ext _ _ _ _ IH).
Qed.

Lemma Finished_mono log log' c : Finished log c → log ⊆ log' → Finished log' c.
Proof. intros [H|[ids H]] Hsub; [left | right; exists ids]; by apply Hsub. Qed.

(** What one run of [deleteRecords] does. *)
Lemma deleteRecords_shape s st :
  d_cache R (deleteRecords R L s st).2 = d_cache R st ∧
  d_disk R (deleteRecords R L s st).2 = d_disk R st ∧
  ∃ added,
    d_log R (deleteRecords R L s st).2 = d_log R st ++ added ∧
    (∀ e, e ∈ added → deleting e = None) ∧
    (∀ C ids ress, Destroyed C ids ress ∈ added → C = s) ∧
    ((deleteRecords R L s st).1 = Resolved → Finished added s).
Proof.
  unfold deleteRecords.
  destruct (FileSystem.readJSONFile _ _) as [err|ids].
  { split; [done|]. split; [done|]. eexists. simpl. split; [reflexivity|].
    split; [intros e H; split_mem H; by subst|].
    split; [intros C i r H; split_mem H; done|].
    intros _. left. right. left. }
  destruct (find R _ _ _ _ _ _) as [err|recs].
  { split; [done|]. split; [done|]. eexists. simpl. split; [reflexivity|].
    split; [intros e H; split_mem H; by subst|].
    split; [intros C i r H; split_mem H; done | done]. }
  destruct (destroy R _ _ _ _) as [[err|ress] remote'].
  { split; [done|]. split; [done|]. eexists. simpl. split; [reflexivity|].
    split; [intros e H; split_mem H; by subst|].
    split; [intros C i r H; split_mem H; done | done]. }
  destruct (existsb _ ress).
  - split; [done|]. split; [done|]. eexists. simpl. split; [reflexivity|].
    split; [intros e H; split_mem H; by subst|].
    split; [|done]. intros C i r H. split_mem H; [done|]. by injection H.
  - split; [done|]. split; [done|]. eexists. simpl. split; [reflexivity|].
    split; [intros e H; split_mem H; by subst|].
    split.
    + intros C i r H. split_mem H; [done| |done]. by injection H.
    + intros _. right. exists ids. do 2 right. left.
Qed.

Lemma DeleteInv_enter pending st s :
  DeleteInv L w0 pending None st → d_cache R st !! s = None → ¬ pending s →
  DeleteInv L w0 (λ x, pending x ∨ x = s) None (d_emit R [DeletingStarted s] st).
Proof.
  intros [Hnodup Hpend Hstart Hcached Hout Hfin Hdestroyed Hdisk] Hc Hnp.
  split; cbn [d_emit d_log d_cache d_disk d_remote].
  - rewrite deletes_app. apply NoDup_app. split; [done|]. split.
    + intros x Hx Hx'. apply list_elem_of_singleton in Hx' as ->.
      apply deletes_elem, Hstart in Hx as [[? Hx]|Hx]; [congruence | done].
    + apply NoDup_singleton.
  - intros x [Hx| ->].
    + destruct (Hpend x Hx). split; [done|]. apply elem_of_app. by left.
    + split; [done|]. apply elem_of_app. right. by left.
  - intros x Hx. apply elem_of_app in Hx as [Hx|Hx].
    + destruct (Hstart x Hx); auto.
    + apply list_elem_of_singleton in Hx as [= ->]. auto.
  - intros x Hx. apply elem_of_app. left. auto.
  - done.
  - intros x Hx. eapply Finished_mono; [by apply Hfin|].
    intros e He. apply elem_of_app. by left.
  - intros l1 C ids ress l2 Heq c Hc'.
    apply app_eq_middle in Heq as [(l2' & Heq & _)|(a1 & _ & Heq)].
    + by eapply Hdestroyed.
    + destruct a1 as [|? [|? ?]]; discriminate.
  - done.
Qed.

Lemma DeleteInv_reject pending fail st s e :
  DeleteInv L w0 (λ x, pending x ∨ x = s) fail st → ¬ pending s →
  fail = None ∨ fail = Some e →
  DeleteInv L w0 pending (Some e) (d_memo R s (Rejected e) st).
Proof.
  intros [Hnodup Hpend Hstart Hcached Hout Hfin Hdestroyed Hdisk] Hnp Hfail.
  destruct (Hpend s) as [Hc Hs]; [by right|].
  split; cbn [d_memo d_log d_cache d_disk d_remote].
  - done.
  - intros x Hx. destruct (Hpend x) as [? ?]; [by left|].
    split; [|done]. rewrite lookup_insert_ne; [done | congruence].
  - intros x Hx. destruct (decide (x = s)) as [->|Hxs].
    + left. by rewrite lookup_insert_eq.
    + rewrite lookup_insert_ne by done.
      destruct (Hstart x Hx) as [?|[?|?]]; [by left | by right | contradiction].
  - intros x Hx. destruct (decide (x = s)) as [->|Hxs]; [done|].
    rewrite lookup_insert_ne in Hx by done. auto.
  - intros x o Hx. destruct (decide (x = s)) as [->|Hxs].
    + rewrite lookup_insert_eq in Hx. injection Hx as <-. right. eauto.
    + rewrite lookup_insert_ne in Hx by done.
      destruct (Hout x o Hx) as [->|(e' & He' & ->)]; [by left|].
      right. exists e'. split; [|done]. destruct Hfail; congruence.
  - intros x Hx. destruct (decide (x = s)) as [->|Hxs].
    + by rewrite lookup_insert_eq in Hx.
    + rewrite lookup_insert_ne in Hx by done. auto.
  - done.
  - done.
Qed.

Lemma DeleteInv_work pending st s :
  DeleteInv L w0 (λ x, pending x ∨ x = s) None st → ¬ pending s →
  (∀ ns n, parent2childObjects L !! s = Some ns → n ∈ ns →
           d_cache R st !! n = Some Resolved) →
  DeleteInv L w0 pending (failureOf (deleteRecords R L s st).1)
    (d_memo R s (deleteRecords R L s st).1 (deleteRecords R L s st).2).
Proof.
  intros [Hnodup Hpend Hstart Hcached Hout Hfin Hdestroyed Hdisk] Hnp Hchildren.
  destruct (deleteRecords_shape s st)
    as (Wcache & Wdisk & added & Wlog & Wnostart & Wdestroyed & Wfin).
  destruct (deleteRecords R L s st) as [o st2]. simpl in *.
  destruct (Hpend s) as [Hc Hs]; [by right|].
  assert (Hsub : d_log R st ⊆ d_log R st2).
  { intros e He. rewrite Wlog. apply elem_of_app. by left. }
  split; cbn [d_memo d_log d_cache d_disk d_remote]; rewrite ?Wcache.
  - rewrite Wlog, deletes_app.
    assert (deletes added = []) as ->; [|by rewrite app_nil_r].
    clear -Wnostart. induction added as [|e added IH]; [done|].
    unfold deletes. simpl. rewrite (Wnostart e) by left. apply IH.
    intros e' He'. apply Wnostart. by right.
  - intros x Hx. destruct (Hpend x) as [? ?]; [by left|].
    split; [|auto]. rewrite lookup_insert_ne; [done | congruence].
  - intros x Hx. rewrite Wlog in Hx. apply elem_of_app in Hx as [Hx|Hx];
      [|by apply Wnostart in Hx].
    destruct (decide (x = s)) as [->|Hxs].
    + left. by rewrite lookup_insert_eq.
    + rewrite lookup_insert_ne by done.
      destruct (Hstart x Hx) as [?|[?|?]]; [by left | by right | contradiction].
  - intros x Hx. apply Hsub. destruct (decide (x = s)) as [->|Hxs]; [done|].
    rewrite lookup_insert_ne in Hx by done. auto.
  - intros x o' Hx. destruct (decide (x = s)) as [->|Hxs].
    + rewrite lookup_insert_eq in Hx. injection Hx as <-.
      destruct o as [|e]; [by left | right; by exists e].
    + rewrite lookup_insert_ne in Hx by done.
      destruct (Hout x o' Hx) as [->|(e' & He' & _)]; [by left | done].
  - intros x Hx. destruct (decide (x = s)) as [->|Hxs].
    + rewrite lookup_insert_eq in Hx. injection Hx as ->.
      eapply Finished_mono; [by apply Wfin|].
      intros e He. rewrite Wlog. apply elem_of_app. by right.
    + rewrite lookup_insert_ne in Hx by done.
      eapply Finished_mono; [by apply Hfin | done].
  - intros l1 C ids ress l2 Heq c Hc'. rewrite Wlog in Heq.
    apply app_eq_middle in Heq as [(l2' & Heq & _)|(a1 & -> & Heq)].
    + by eapply Hdestroyed.
    + assert (C = s) as ->.
      { apply (Wdestroyed C ids ress). rewrite Heq. apply elem_of_app.
        right. by left. }
      destruct Hc' as (children & Hch & Hin).
      eapply Finished_mono; [apply Hfin; by eapply Hchildren|].
      intros e He. apply elem_of_app. by left.
  - by rewrite Wdisk.
Qed.

Lemma deleteLoadedSObjectData_inv fuel s st o st' :
  DeleteInv L w0 (λ _, False) None st →
  deleteLoadedSObjectData R L fuel s st = Some (o, st') →
  DeleteInv L w0 (λ _, False) (failureOf o) st' ∧
  d_cache R st ⊆ d_cache R st' ∧ d_cache R st' !! s = Some o.
Proof.
  intros HI Hw. rewrite deleteLoadedSObjectData_walk in Hw.
  assert (Hwork : ∀ x st1, d_cache R (deleteRecords R L x st1).2 = d_cache R st1).
  { intros x st1. apply deleteRecords_shape. }
  assert (Hpend : ∀ pending fail st1 x,
            DeleteInv L w0 pending fail st1 → pending x → d_cache R st1 !! x = None).
  { intros pending fail st1 x H Hx. by destruct (di_pending _ _ _ _ _ H x Hx). }
  assert (Hclean : ∀ pending st1 x o1,
            DeleteInv L w0 pending None st1 → d_cache R st1 !! x = Some o1 →
            o1 = Resolved).
  { intros pending st1 x o1 H Hx.
    by destruct (di_outcomes _ _ _ _ _ H x o1 Hx) as [?|(? & ? & ?)]. }
  refine (walk_inv (d_cache R) (λ x, d_emit R [DeletingStarted x]) (d_memo R)
            (parent2childObjects L) (deleteRecords R L) (DeleteInv L w0)
            (λ _ _, eq_refl) (λ _ _ _, eq_refl) Hwork Hpend Hclean
            DeleteInv_enter DeleteInv_reject DeleteInv_work
            fuel s st o st' (λ _, False) _ HI Hw).
  intros x [].
Qed.
End DeleteInvariant.


(** * Whole runs *)

Section Runs.
Import Js Loader Props.
Context (R : RemoteStore) (L : loader).

(** What holds at the end of [loadData]. *)
Lemma loadData_inv fuel w res w' log :
  loadData R L fuel w = Some (res, w', log) →
  ∃ st', LoadInv L w (λ _, False) (failureOfResult res) st' ∧
         l_world R st' = w' ∧ l_log R st' = log ∧
         (∀ m, res = inr m →
               m = old2newId R st' ∧
               ∀ s, s ∈ sobjects L → l_cache R st' !! s = Some Resolved).
Proof.
  unfold loadData.
  set (st0 := {| l_world := w; old2newId := ∅; l_cache := ∅; l_log := [] |}).
  assert (H0 : LoadInv L w (λ _, False) None st0).
  { split; simpl; try done.
    - constructor.
    - intros x H. by apply not_elem_of_nil in H.
    - intros x [? H]. by rewrite lookup_empty in H.
    - intros x recs H. by apply not_elem_of_nil in H.
    - intros x p m H. by apply not_elem_of_nil in H.
    - intros f ids H. by apply not_elem_of_nil in H.
    - intros x res0 H. by apply not_elem_of_nil in H.
    - intros l1 C m l2 H. by destruct l1. }
  destruct (forAwait _ (sobjects L) st0) as [[o st']|] eqn:Hfa; [|done].
  apply (forAwait_inv (l_cache R) (LoadInv L w (λ _, False)) _ (sobjects L) st0)
    with (done := []) in Hfa as (HI & _ & Hall); try done.
  - destruct o as [|e]; intros [= <- <- <-]; exists st'.
    + split; [done|]. split; [done|]. split; [done|].
      intros m [= <-]. auto.
    + split; [done|]. split; [done|]. split; [done|]. done.
  - intros done x rest st1 o1 st2 _ HI1 _ _ Hx.
    by apply (loadSObjectData_inv R L w fuel x).
  - intros z Hz. by apply not_elem_of_nil in Hz.
Qed.

(** What holds at the end of [deleteLoadedData]. *)
Lemma deleteLoadedData_inv fuel w o w' log :
  deleteLoadedData R L fuel w = Some (o, w', log) →
  sobject2records w' = sobject2records w ∧
  ∃ st', DeleteInv L w (λ _, False) (failureOf o) st' ∧
         d_disk R st' = disk w' ∧ d_log R st' = log ∧
         (o = Resolved → ∀ s, s ∈ sobjects L → d_cache R st' !! s = Some Resolved).
Proof.
  unfold deleteLoadedData.
  set (st0 := {| d_remote := remote w; d_disk := disk w; d_cache := ∅;
                 d_log := [] |}).
  assert (H0 : DeleteInv L w (λ _, False) None st0).
  { split; simpl; try done.
    - constructor.
    - intros x H. by apply not_elem_of_nil in H.
    - intros x [? H]. by rewrite lookup_empty in H.
    - intros l1 C ids ress l2 H. by destruct l1. }
  destruct (forAwait _ (sobjects L) st0) as [[o1 st']|] eqn:Hfa; [|done].
  intros [= <- <- <-]. split; [done|]. exists st'.
  apply (forAwait_inv (d_cache R) (DeleteInv L w (λ _, False)) _ (sobjects L) st0)
    with (done := []) in Hfa as (HI & _ & Hall); try done.
  - intros done x rest st1 o2 st2 _ HI1 _ _ Hx.
    by apply (deleteLoadedSObjectData_inv R L w fuel x).
  - intros z Hz. by apply not_elem_of_nil in Hz.
Qed.
End Runs.

(** * Loaders built by [getDataLoader] *)

Section Built.
Import Js Loader Props.
Context (idsPath : string) (toolingNames : list string)
  (listing : list (string * list record)).

Local Abbreviation L := (getDataLoader idsPath toolingNames listing).1.

Lemma built_parentOf P C : parentOf L P C → childOf L C P.
Proof.
  intros (parents & Hl & Hin). simpl in Hl.
  rewrite build_child2parentSObjects_lookup in Hl.
  destruct (decide _); [|done]. injection Hl as <-.
  by apply parentsOf_spec in Hin as [_ ?].
Qed.

Lemma built_childOf P C : childOf L C P → C ∈ sobjects L ∧ P ∈ sobjects L.
Proof.
  intros (children & Hl & Hin). simpl in Hl |- *.
  rewrite build_parent2childObjects_lookup in Hl.
  destruct (decide _); [|done]. injection Hl as <-.
  by apply childrenOf_spec in Hin as [? _].
Qed.

Lemma built_lookup_parents C parents :
  child2parentSObjects L !! C = Some parents → C ∈ sobjects L.
Proof.
  simpl. rewrite build_child2parentSObjects_lookup. by destruct (decide _).
Qed.

Lemma built_lookup_children P children :
  parent2childObjects L !! P = Some children → P ∈ sobjects L.
Proof.
  simpl. rewrite build_parent2childObjects_lookup. by destruct (decide _).
Qed.

Lemma built_childOf_parentOf P C : childOf L C P → parentOf L P C.
Proof.
  intros Hc. destruct (built_childOf P C Hc) as [HC HP].
  exists (parentsOf (sobjects L) (parent2childObjects L) C). split.
  - simpl. rewrite build_child2parentSObjects_lookup. by rewrite decide_True.
  - apply parentsOf_spec. split; [done|]. exact Hc.
Qed.

(** Walking up reaches the ancestors, walking down the descendants. *)
Lemma reaches_parents x A :
  reaches (child2parentSObjects L) x A → ancestor L A x.
Proof.
  induction 1 as [x n ns Hns Hn|x y n ns _ IH Hns Hn].
  - apply ancestor_parent. by exists ns.
  - clear -IH Hns Hn. assert (Hp : parentOf L n y) by (by exists ns).
    clear Hns Hn. induction IH as [y x Hyx|y z x _ IH Hzx].
    + eapply ancestor_step; [by apply ancestor_parent | done].
    + eapply ancestor_step; [by apply IH | done].
Qed.

Lemma reaches_children x D :
  reaches (parent2childObjects L) x D → ancestor L x D.
Proof.
  induction 1 as [x n ns Hns Hn|x y n ns _ IH Hns Hn].
  - apply ancestor_parent, built_childOf_parentOf. by exists ns.
  - eapply ancestor_step; [exact IH|].
    apply built_childOf_parentOf. by exists ns.
Qed.

(** On an acyclic graph both walks return, given fuel for as many
    nested calls as there are collections. *)
Lemma built_returns (R : RemoteStore) :
  acyclic L →
  ∃ N, ∀ fuel, (N ≤ fuel)%nat → ∀ w : world R,
    is_Some (loadData R L fuel w) ∧ is_Some (deleteLoadedData R L fuel w).
Proof.
  intros Hacyclic. exists (S (length (sobjects L))). intros fuel Hfuel w. split.
  - unfold loadData.
    destruct (forAwait_returns (loadSObjectData R L fuel) (sobjects L))
      with (st := {| l_world := w; old2newId := ∅; l_cache := ∅; l_log := [] |})
      as [[[|e] st'] ->]; [|eauto..].
    intros x st Hx. rewrite loadSObjectData_walk.
    apply (walk_returns _ _ _ _ _ (sobjects L)) with (path := []).
    + apply built_lookup_parents.
    + intros s Hs. by apply (Hacyclic s), reaches_parents.
    + constructor.
    + intros y Hy. by apply not_elem_of_nil in Hy.
    + rewrite Nat.add_0_r. exact Hfuel.
  - unfold deleteLoadedData.
    destruct (forAwait_returns (deleteLoadedSObjectData R L fuel) (sobjects L))
      with (st := {| d_remote := remote w; d_disk := disk w; d_cache := ∅;
                     d_log := [] |})
      as [[o st'] ->]; [|eauto].
    intros x st Hx. rewrite deleteLoadedSObjectData_walk.
    apply (walk_returns _ _ _ _ _ (sobjects L)) with (path := []).
    + apply built_lookup_children.
    + intros s Hs. by apply (Hacyclic s), reaches_children.
    + constructor.
    + intros y Hy. by apply not_elem_of_nil in Hy.
    + rewrite Nat.add_0_r. exact Hfuel.
Qed.
End Built.


(** * The claims on the two walks *)

Section WalkClaims.
Import Js Loader Props.

(** The order of the two walks.  In every run of [loadData] that
    returns, when the field resolution of a collection [C] begins, the
    create of each ancestor [A] of [C] has returned and its pairs were
    merged, and every key merged for [A] is a key of the identity map
    the resolution reads.  In every run of [deleteLoadedData] that
    returns, when the records of [C] are destroyed, the delete of each
    child of [C] has completed.  (On an acyclic input the runs do
    return: see C2.)  Which keys are merged is another matter: see
    C1. *)
Lemma dependency_order (R : RemoteStore) (L : loader) (w : world R)
    (fuel : nat) :
  (∀ res w' log, loadData R L fuel w = Some (res, w', log) →
     ∀ l1 C m l2, log = l1 ++ Resolving C m :: l2 →
     ∀ A, ancestor L A C → Loaded l1 m A) ∧
  (∀ o w' log, deleteLoadedData R L fuel w = Some (o, w', log) →
     ∀ l1 C ids ress l2, log = l1 ++ Destroyed C ids ress :: l2 →
     ∀ c, childOf L c C → Finished l1 c).
Proof.
  split.
  - intros res w' log Hrun l1 C m l2 Hlog A HA.
    apply loadData_inv in Hrun as (st' & HI & _ & <- & _).
    by eapply (li_resolving _ _ _ _ _ HI).
  - intros o w' log Hrun l1 C ids ress l2 Hlog c Hc.
    apply deleteLoadedData_inv in Hrun as (_ & st' & HI & _ & <- & _).
    by eapply (di_destroyed _ _ _ _ _ HI).
Qed.

Lemma Demo_parentOf P C :
  parentOf Demo.parentChild.1 P C → P = "Parent" ∧ C = "Child".
Proof.
  intros Hp. apply built_parentOf in Hp.
  destruct (built_childOf _ _ _ _ _ Hp) as [_ HP].
  destruct Hp as (children & Hl & Hin).
  apply list_elem_of_In in HP. vm_compute in HP. destruct HP as [<-|[<-|[]]].
  - vm_compute in Hl. injection Hl as <-. by apply not_elem_of_nil in Hin.
  - vm_compute in Hl. injection Hl as <-.
    by apply list_elem_of_singleton in Hin as ->.
Qed.

Lemma Demo_acyclic : acyclic Demo.parentChild.1.
Proof.
  intros A HA. apply ancestor_last in HA as (P & HP & HA).
  apply Demo_parentOf in HP as [-> ->]. destruct HA as [?|HA]; [done|].
  apply ancestor_last in HA as (P & HP & _).
  by apply Demo_parentOf in HP as [_ ?].
Qed.

Lemma inherited_parentOf P C :
  parentOf Demo.inherited.1 P C → P = "Parent" ∧ C = "Child".
Proof.
  intros Hp. apply built_parentOf in Hp.
  destruct (built_childOf _ _ _ _ _ Hp) as [_ HP].
  destruct Hp as (children & Hl & Hin).
  apply list_elem_of_In in HP. vm_compute in HP. destruct HP as [<-|[<-|[]]].
  - vm_compute in Hl. injection Hl as <-. by apply not_elem_of_nil in Hin.
  - vm_compute in Hl. injection Hl as <-.
    by apply list_elem_of_singleton in Hin as ->.
Qed.

Lemma inherited_acyclic : acyclic Demo.inherited.1.
Proof.
  intros A HA. apply ancestor_last in HA as (P & HP & HA).
  apply inherited_parentOf in HP as [-> ->]. destruct HA as [?|HA]; [done|].
  apply ancestor_last in HA as (P & HP & _).
  by apply inherited_parentOf in HP as [_ ?].
Qed.

(** C1 (the code departs from it).  The order holds (see
    [dependency_order]); the pairs merged are not those of the old ids.
    The [id] field goes through the resolver like every other field,
    and the old ids are read from the records once they are resolved.
    With a parent whose id is [constructor], over an acyclic graph in
    which [Parent] is an ancestor of [Child], the load resolves; the
    resolver reads the member that the empty identity map inherits and
    puts it where the id was, so the create of [Parent] is merged under
    the text of that function: neither the identity map that the
    resolution of [Child] reads nor the one returned has the key
    [constructor], and the reference of [Child] is not replaced by the
    new id of [Parent].  With the id [p1] in place of [constructor]
    the same run merges the pair of [p1] before [Child] is resolved. *)
Theorem C1_old_id_is_not_merged :
  (∃ mC, Demo.loadedTrace !! 8%nat = Some (Resolving "Child" mC) ∧
         mC !! "p1" = Some "Parent-0") ∧
  acyclic Demo.inherited.1 ∧ ancestor Demo.inherited.1 "Parent" "Child" ∧
  (∃ r, sobject2records Demo.beforeInherited !! "Parent" = Some [r] ∧
        get r "id" = Some (VStr "constructor")) ∧
  ∃ m w' log mC,
    loadData Demo.accepting Demo.inherited.1 3 Demo.beforeInherited
      = Some (inr m, w', log) ∧
    log !! 8%nat = Some (Resolving "Child" mC) ∧
    Created "Parent" [{| success := true; id := "Parent-0" |}] ∈ take 8 log ∧
    map_to_list mC
      = [("function Object() { [native code] }", "Parent-0")] ∧
    mC !! "constructor" = None ∧ m !! "constructor" = None ∧
    log !! 9%nat
      = Some (BeforeCreating "Child" [[("parentRef", VNative "constructor")]]).
Proof.
  split; [eexists; split; vm_compute; reflexivity|].
  split; [exact inherited_acyclic|]. split.
  { apply ancestor_parent. eexists. split; [vm_compute; reflexivity|].
    by left. }
  split; [eexists; split; [vm_compute; reflexivity | done]|].
  eexists _, _, _, _. split; [vm_compute; reflexivity|].
  split; [vm_compute; reflexivity|].
  split; [vm_compute; repeat constructor|].
  repeat split; vm_compute; reflexivity.
Qed.

(** C2.  On an acyclic input both walks return, given enough fuel.  In
    a run of [loadData] the body of [loadSObjectData] starts at most once
    for each collection, and exactly once for every collection when the
    run succeeds; the same holds of [deleteLoadedData].  A request for a
    collection whose promise is cached returns that outcome and does
    nothing else, and every request leaves the outcome it returns in the
    cache. *)
Theorem C2_memoised_once (R : RemoteStore) (idsPath : string)
    (toolingNames : list string) (listing : list (string * list record)) :
  let L := (getDataLoader idsPath toolingNames listing).1 in
  acyclic L →
  (∃ N, ∀ fuel, (N ≤ fuel)%nat → ∀ w : world R,
     is_Some (loadData R L fuel w) ∧ is_Some (deleteLoadedData R L fuel w)) ∧
  (∀ fuel (w : world R) res w' log,
     loadData R L fuel w = Some (res, w', log) →
     NoDup (loads log) ∧
     (∀ m, res = inr m → ∀ s, s ∈ sobjects L → s ∈ loads log)) ∧
  (∀ fuel (w : world R) o w' log,
     deleteLoadedData R L fuel w = Some (o, w', log) →
     NoDup (deletes log) ∧
     (o = Resolved → ∀ s, s ∈ sobjects L → s ∈ deletes log)) ∧
  (∀ fuel s st o,
     l_cache R st !! s = Some o → loadSObjectData R L fuel s st = Some (o, st)) ∧
  (∀ fuel s st o st',
     loadSObjectData R L fuel s st = Some (o, st') → l_cache R st' !! s = Some o) ∧
  (∀ fuel s st o,
     d_cache R st !! s = Some o →
     deleteLoadedSObjectData R L fuel s st = Some (o, st)) ∧
  (∀ fuel s st o st',
     deleteLoadedSObjectData R L fuel s st = Some (o, st') →
     d_cache R st' !! s = Some o).
Proof.
  intros L Hacyclic. split; [by apply built_returns|].
  split; [|split; [|split; [|split; [|split]]]].
  - intros fuel w res w' log Hrun.
    apply loadData_inv in Hrun as (st' & HI & _ & <- & Hres).
    split; [by apply (li_nodup _ _ _ _ _ HI)|].
    intros m Hm s Hs. destruct (Hres m Hm) as [_ Hall].
    apply loads_elem, (li_cached _ _ _ _ _ HI). rewrite (Hall s Hs). eauto.
  - intros fuel w o w' log Hrun.
    apply deleteLoadedData_inv in Hrun as (_ & st' & HI & _ & <- & Hall).
    split; [by apply (di_nodup _ _ _ _ _ HI)|].
    intros Ho s Hs.
    apply deletes_elem, (di_cached _ _ _ _ _ HI). rewrite (Hall Ho s Hs). eauto.
  - intros fuel s st o Hc. rewrite loadSObjectData_walk. by apply walk_hit.
  - intros fuel s st o st'. rewrite loadSObjectData_walk.
    by apply walk_caches.
  - intros fuel s st o Hc. rewrite deleteLoadedSObjectData_walk.
    by apply walk_hit.
  - intros fuel s st o st'. rewrite deleteLoadedSObjectData_walk.
    by apply walk_caches.
Qed.

Lemma C2_memoised_once_witness :
  NoDup (loads Demo.loadedTrace) ∧ "Parent" ∈ loads Demo.loadedTrace.
Proof.
  destruct (C2_memoised_once Demo.accepting "/ids" [] Demo.listing Demo_acyclic)
    as (_ & Hload & _).
  edestruct (Hload 3%nat (Demo.before [] ∅)) as [Hnodup Hall].
  - vm_compute. reflexivity.
  - split; [exact Hnodup|]. eapply Hall; [reflexivity|].
    apply list_elem_of_In. simpl. tauto.
Defined.

(** C3.  When the create of a collection [C] reports a record that did
    not succeed, [loadData] rejects with the error that names [C]; no
    pairs of [C] are merged into the identity map, [writeJSONFile] is not
    called for [C], and the identifier file of [C] is as it was before
    the run. *)
Theorem C3_create_failure (R : RemoteStore) (L : loader) (w : world R)
    (fuel : nat) res w' log C newRecords :
  loadData R L fuel w = Some (res, w', log) →
  Created C newRecords ∈ log → failing newRecords = true →
  res = inl (CreateFailed C) ∧
  message (CreateFailed C) = "We got an error trying to create records for " +:+ C ∧
  (∀ pairs m, Merged C pairs m ∉ log) ∧
  (∀ ids, Writing (idsFile L C) ids ∉ log) ∧
  disk w' !! idsFile L C = disk w !! idsFile L C.
Proof.
  intros Hrun Hcreated Hfailing.
  apply loadData_inv in Hrun as (st' & HI & <- & <- & _).
  pose proof (li_failed _ _ _ _ _ HI C newRecords Hcreated Hfailing) as Hc.
  split; [|split; [done|split; [|split]]].
  - destruct (li_outcomes _ _ _ _ _ HI C _ Hc) as [?|(e & He & [= <-])]; [done|].
    destruct res; simpl in He; congruence.
  - intros pairs m H. pose proof (li_merged _ _ _ _ _ HI C pairs m H). congruence.
  - intros ids H. destruct (li_writing _ _ _ _ _ HI _ ids H) as (x & Hx & Hr).
    apply idsFile_inj in Hx as <-. congruence.
  - apply (li_disk _ _ _ _ _ HI). congruence.
Qed.

Lemma C3_create_failure_witness :
  ∃ w' log,
    loadData Demo.rejecting Demo.parentChild.1 3 (Demo.before ["Parent"] ∅) =
      Some (inl (CreateFailed "Parent"), w', log) ∧
    (∀ pairs m, Merged "Parent" pairs m ∉ log) ∧
    disk w' !! "/ids/Parent.json" = None.
Proof.
  destruct (loadData Demo.rejecting Demo.parentChild.1 3 (Demo.before ["Parent"] ∅))
    as [[[res w'] log]|] eqn:Hrun; [|vm_compute in Hrun; discriminate].
  destruct (C3_create_failure _ _ _ _ _ _ _ "Parent"
              [{| success := false; id := "Parent-0" |}] Hrun)
    as (-> & _ & Hmerged & _ & Hdisk).
  - vm_compute in Hrun. injection Hrun as _ _ <-. repeat constructor.
  - reflexivity.
  - exists w', log. split; [done|]. split; [done|]. exact Hdisk.
Defined.

(** C9 (amended).  [deleteLoadedData] leaves the stored records as they
    are.  [loadData] rewrites them in place: once the load of a
    collection has reached its create call, the stored records of the
    collection are the resolved records without their [id] that were
    submitted to it; a collection whose load never started keeps its
    records. *)
Theorem C9_records_rewritten_in_place (R : RemoteStore) (L : loader)
    (w : world R) (fuel : nat) :
  (∀ o w' log, deleteLoadedData R L fuel w = Some (o, w', log) →
     sobject2records w' = sobject2records w) ∧
  (∀ res w' log, loadData R L fuel w = Some (res, w', log) →
     (∀ x recs, BeforeCreating x recs ∈ log →
                sobject2records w' !! x = Some recs) ∧
     (∀ x, CreatingStarted x ∉ log →
           sobject2records w' !! x = sobject2records w !! x)).
Proof.
  split.
  - intros o w' log Hrun. by apply deleteLoadedData_inv in Hrun as [? _].
  - intros res w' log Hrun.
    apply loadData_inv in Hrun as (st' & HI & <- & <- & _). split.
    + intros x recs H. by destruct (li_before _ _ _ _ _ HI x recs H).
    + apply (li_untouched _ _ _ _ _ HI).
Qed.

Lemma C9_records_rewritten_in_place_witness :
  ∃ res w' log,
    loadData Demo.accepting Demo.parentChild.1 3 (Demo.before [] ∅) =
      Some (res, w', log) ∧
    sobject2records w' !! "Child" = Some [[("parentRef", VStr "Parent-0")]].
Proof.
  destruct (loadData Demo.accepting Demo.parentChild.1 3 (Demo.before [] ∅))
    as [[[res w'] log]|] eqn:Hrun; [|vm_compute in Hrun; discriminate].
  exists res, w', log. split; [done|].
  apply (proj2 (C9_records_rewritten_in_place _ _ _ _) res w' log Hrun).
  vm_compute in Hrun. injection Hrun as _ _ <-. repeat constructor.
Defined.

(** C9 as stated fails: after the load of the round trip, the stored
    record of [Parent] has lost its [id] and the stored record of [Child]
    holds the new id of its parent. *)
Lemma C9_counterexample :
  sobject2records (Demo.before [] ∅) !! "Parent" =
    Some [[("id", VStr "p1"); ("name", VStr "Acme")]] ∧
  sobject2records Demo.loaded !! "Parent" = Some [[("name", VStr "Acme")]] ∧
  sobject2records (Demo.before [] ∅) !! "Child" =
    Some [[("id", VStr "c1"); ("parentRef", VStr "p1")]] ∧
  sobject2records Demo.loaded !! "Child" =
    Some [[("parentRef", VStr "Parent-0")]].
Proof. repeat split; vm_compute; reflexivity. Qed.
End WalkClaims.

(** * Where the code departs from the specification *)

Section Departures.
Import Js Loader Props.

(** [writeJSONFile] resolves whatever happens to the write. *)
Lemma writeJSONFile_resolves f ids d :
  (FileSystem.writeJSONFile f ids d).1 = Resolved.
Proof.
  unfold FileSystem.writeJSONFile. by destruct (FileSystem.writeFile f ids d).
Qed.

(** [deleteRecords] skips the collection on any failure to read its
    identifier file. *)
Lemma deleteRecords_skips (R : RemoteStore) (L : loader) s st err :
  FileSystem.readJSONFile (idsFile L s) (d_disk R st) = inl err →
  deleteRecords R L s st =
    (Resolved, d_emit R [ReadIds (idsFile L s); DeletingSkipped s] st).
Proof.
  intros H. unfold deleteRecords, d_emit. by rewrite H.
Qed.

(** [deleteLoadedData] never changes the disk. *)
Lemma deleteLoadedData_keeps_disk (R : RemoteStore) (L : loader) fuel
    (w : world R) o w' log :
  deleteLoadedData R L fuel w = Some (o, w', log) → disk w' = disk w.
Proof.
  intros Hrun. apply deleteLoadedData_inv in Hrun as (_ & st' & HI & <- & _).
  apply (di_disk _ _ _ _ _ HI).
Qed.

(** C6 (the code departs from it).  The identifier file of [Parent]
    exists but may not be opened: reading it fails with EACCES, not with
    ENOENT.  [deleteLoadedData] still resolves; [Parent] is skipped, its
    record is not destroyed and stays in the remote store. *)
Theorem C6_unreadable_file_is_skipped :
  FileSystem.readJSONFile "/ids/Parent.json" (disk Demo.loadedLocked) =
    inl (SystemError "EACCES") ∧
  ∃ w' log,
    deleteLoadedData Demo.accepting Demo.parentChild.1 3 Demo.loadedLocked =
      Some (Resolved, w', log) ∧
    DeletingSkipped "Parent" ∈ log ∧
    (∀ ids ress, Destroyed "Parent" ids ress ∉ log) ∧
    remote w' = [("Parent", "Parent-0")].
Proof.
  split; [vm_compute; reflexivity|].
  eexists _, _. split; [vm_compute; reflexivity|].
  split; [repeat constructor|]. split; [|vm_compute; reflexivity].
  intros ids ress H.
  repeat (apply elem_of_cons in H as [H|H]; [discriminate|]).
  by apply not_elem_of_nil in H.
Qed.

(** C7 (the code departs from it).  After a load and a successful
    [deleteLoadedData], the identifier files are still on the disk with
    their ids.  A second [deleteLoadedData] does not skip [Parent]: it
    reads the file again, queries the remote store and calls destroy with
    the records it found, here none. *)
Theorem C7_identifier_files_are_kept :
  ∃ w1 log1 w2 log2,
    deleteLoadedData Demo.accepting Demo.parentChild.1 3 Demo.loaded =
      Some (Resolved, w1, log1) ∧
    remote w1 = [] ∧
    disk w1 !! "/ids/Parent.json" = Some (FileSystem.Json ["Parent-0"]) ∧
    disk w1 !! "/ids/Child.json" = Some (FileSystem.Json ["Child-1"]) ∧
    deleteLoadedData Demo.accepting Demo.parentChild.1 3 w1 =
      Some (Resolved, w2, log2) ∧
    DeletingSkipped "Parent" ∉ log2 ∧
    Destroyed "Parent" [] [] ∈ log2.
Proof.
  eexists _, _, _, _. split; [vm_compute; reflexivity|].
  split; [vm_compute; reflexivity|]. split; [vm_compute; reflexivity|].
  split; [vm_compute; reflexivity|]. split; [vm_compute; reflexivity|].
  split; [|repeat constructor].
  intros H. repeat (apply elem_of_cons in H as [H|H]; [discriminate|]).
  by apply not_elem_of_nil in H.
Qed.

(** C8 (the code departs from it).  The identifier file of [Parent]
    cannot be written: [writeFile] fails with EACCES.  [loadData] still
    resolves with the identity map, and the ids assigned to [Parent] are
    not on the disk. *)
Theorem C8_failed_write_is_not_reported :
  FileSystem.writeFile "/ids/Parent.json" ["Parent-0"] Demo.locked =
    inl (SystemError "EACCES") ∧
  ∃ m w' log,
    loadData Demo.accepting Demo.parentChild.1 3 (Demo.before [] Demo.locked) =
      Some (inr m, w', log) ∧
    m !! "p1" = Some "Parent-0" ∧
    Writing "/ids/Parent.json" ["Parent-0"] ∈ log ∧
    disk w' !! "/ids/Parent.json" = Some FileSystem.Denied.
Proof.
  split; [vm_compute; reflexivity|].
  eexists _, _, _. split; [vm_compute; reflexivity|].
  split; [vm_compute; reflexivity|]. split; [repeat constructor|].
  vm_compute. reflexivity.
Qed.
End Departures.

(** * file-system.ts: names *)

Section PathFacts.
Import Js Props Paths.

Lemma append_cons c (a b : string) : String c a +:+ b = String c (a +:+ b).
Proof. reflexivity. Qed.

Lemma append_nil_r (a : string) : a +:+ "" = a.
Proof.
  induction a as [|c a IH]; [done|]. by rewrite append_cons, IH.
Qed.

Lemma replaceAll_app cls a b :
  replaceAll cls (a +:+ b) = replaceAll cls a +:+ replaceAll cls b.
Proof.
  induction a as [|c a IH]; [done|]. rewrite append_cons. simpl.
  destruct (cls c); [done|]. by rewrite append_cons, IH.
Qed.

Lemma replaceAll_clean cls s :
  allChars (λ c, negb (cls c)) (replaceAll cls s) = true.
Proof.
  induction s as [|c s IH]; [done|]. simpl.
  destruct (cls c) eqn:Hc; [done|]. simpl. by rewrite Hc.
Qed.

Lemma replaceAll_length cls s :
  (String.length (replaceAll cls s) ≤ String.length s)%nat.
Proof.
  induction s as [|c s IH]; [done|]. simpl. destruct (cls c); simpl; lia.
Qed.

Lemma replaceAll_fixed cls s :
  replaceAll cls s = s ↔ allChars (λ c, negb (cls c)) s = true.
Proof.
  split.
  - intros <-. apply replaceAll_clean.
  - induction s as [|c s IH]; [done|]. simpl.
    destruct (cls c); [done|]. simpl. intros H. by rewrite IH.
Qed.

(** X1.  [removeInvalidChars] leaves none of the characters of the class
    in its result, is the identity exactly on the paths that hold none
    of them, and removing twice is removing once. *)
Theorem removeInvalidChars_clean (path : string) :
  allChars (λ c, negb (INVALID_FILE_CHARS_REGEX c)) (removeInvalidChars path)
    = true ∧
  (removeInvalidChars path = path ↔
   allChars (λ c, negb (INVALID_FILE_CHARS_REGEX c)) path = true) ∧
  removeInvalidChars (removeInvalidChars path) = removeInvalidChars path.
Proof.
  unfold removeInvalidChars. split; [apply replaceAll_clean|].
  split; [apply replaceAll_fixed|].
  apply replaceAll_fixed, replaceAll_clean.
Qed.

(** X2.  The separators and the dot of the extension are characters of
    the class: cleaning the path of a JSON file glues the directory, the
    name and the letters of the extension together. *)
Theorem removeInvalidChars_path (dir name : string) :
  removeInvalidChars (dir +:+ "/" +:+ name +:+ ".json") =
  removeInvalidChars dir +:+ removeInvalidChars name +:+ "json".
Proof.
  unfold removeInvalidChars. rewrite !replaceAll_app.
  change (replaceAll INVALID_FILE_CHARS_REGEX "/") with "".
  change (replaceAll INVALID_FILE_CHARS_REGEX ".json") with "json".
  reflexivity.
Qed.

(** X3.  The class holds the closing brace and not the opening one: of a
    text between braces the opening brace stays. *)
Theorem removeInvalidChars_braces (text : string) :
  removeInvalidChars ("{" +:+ text +:+ "}") = "{" +:+ removeInvalidChars text.
Proof.
  unfold removeInvalidChars. rewrite !replaceAll_app.
  change (replaceAll INVALID_FILE_CHARS_REGEX "{") with "{".
  change (replaceAll INVALID_FILE_CHARS_REGEX "}") with "".
  by rewrite append_nil_r.
Qed.

(** *** [split] *)

Lemma split_nonempty sep s : split sep s ≠ [].
Proof.
  destruct s as [|c s]; [done|]. simpl.
  destruct (decide (c = sep)); [done|]. by destruct (split sep s).
Qed.

Lemma split_without sep s : without sep s = true → split sep s = [s].
Proof.
  induction s as [|c s IH]; [done|]. simpl.
  destruct (decide (c = sep)); [done|]. intros H. by rewrite IH.
Qed.

Lemma split_at sep p rest :
  without sep p = true →
  split sep (p +:+ String sep rest) = p :: split sep rest.
Proof.
  induction p as [|c p IH]; simpl.
  - intros _. change (split sep (String sep rest) = "" :: split sep rest).
    simpl. by rewrite decide_True.
  - destruct (decide (c = sep)); [done|]. intros H. by rewrite IH.
Qed.

(** Every text is a first part without the separator, alone or followed
    by the separator and the rest. *)
Lemma first_part sep s :
  ∃ p, without sep p = true ∧ (s = p ∨ ∃ rest, s = p +:+ String sep rest).
Proof.
  induction s as [|c s (p & Hp & IH)].
  - exists "". split; [done | by left].
  - destruct (decide (c = sep)) as [->|Hne].
    + exists "". split; [done|]. right. by exists s.
    + exists (String c p). split; [simpl; by rewrite decide_False|].
      destruct IH as [->|[rest ->]]; [by left|]. right. by exists rest.
Qed.

Lemma head_split sep s p :
  head (split sep s) = Some p ↔
  without sep p = true ∧ (s = p ∨ ∃ rest, s = p +:+ String sep rest).
Proof.
  split.
  - destruct (first_part sep s) as (q & Hq & [->|[rest ->]]).
    + rewrite split_without by done. intros [= <-]. auto.
    + rewrite split_at by done. intros [= <-]. eauto.
  - intros [Hp [->|[rest ->]]].
    + by rewrite split_without.
    + by rewrite split_at.
Qed.

Lemma last_cons_nonempty {A} (x : A) l : l ≠ [] → last (x :: l) = last l.
Proof. by destruct l. Qed.

Lemma last_split sep s t :
  last (split sep s) = Some t ↔
  without sep t = true ∧ (s = t ∨ ∃ p, s = p +:+ String sep t).
Proof.
  revert t. induction s as [|c s IH]; intros t.
  - simpl. split.
    + intros [= <-]. auto.
    + intros [_ [<-|[p Hp]]]; [done|]. by destruct p.
  - simpl. destruct (decide (c = sep)) as [->|Hne].
    + rewrite last_cons_nonempty by apply split_nonempty. rewrite IH. split.
      * intros [Ht [->|[p ->]]]; (split; [done|]); right.
        -- by exists "".
        -- by exists (String sep p).
      * intros [Ht [Heq|[p Heq]]]; (split; [done|]).
        -- subst t. simpl in Ht. by rewrite decide_True in Ht.
        -- destruct p as [|c p].
           ++ left. by injection Heq.
           ++ right. exists p. rewrite append_cons in Heq. by injection Heq.
    + pose proof (split_nonempty sep s) as Hs.
      destruct (split sep s) as [|q qs] eqn:Hsplit; [done|].
      destruct qs as [|q' qs].
      * simpl in IH |- *. split.
        -- intros [= <-]. destruct (proj1 (IH q) eq_refl) as [Hq [->|[p ->]]].
           ++ split; [simpl; by rewrite decide_False | by left].
           ++ exfalso. pose proof (split_nonempty sep q) as Hne'.
              destruct (first_part sep p) as (p1 & Hp1 & [->|[rest ->]]).
              ** rewrite split_at in Hsplit by done.
                 injection Hsplit as _ Hsplit. done.
              ** rewrite append_assoc, append_cons in Hsplit.
                 rewrite split_at in Hsplit by done.
                 injection Hsplit as _ Hsplit.
                 by apply split_nonempty in Hsplit.
        -- intros [Ht [<-|[p Heq]]].
           ++ f_equal. f_equal. simpl in Ht. rewrite decide_False in Ht by done.
              rewrite split_without in Hsplit by done. by injection Hsplit.
           ++ destruct p as [|c' p].
              { injection Heq as -> _. done. }
              rewrite append_cons in Heq. injection Heq as <- ->.
              exfalso.
              destruct (first_part sep p) as (p1 & Hp1 & [->|[rest ->]]).
              ** rewrite split_at in Hsplit by done.
                 injection Hsplit as _ Hsplit.
                 by apply split_nonempty in Hsplit.
              ** rewrite append_assoc, append_cons in Hsplit.
                 rewrite split_at in Hsplit by done.
                 injection Hsplit as _ Hsplit.
                 by apply split_nonempty in Hsplit.
      * change (last (String c q :: q' :: qs)) with (last (q :: q' :: qs)).
        rewrite IH. split.
        -- intros [Ht [->|[p ->]]]; (split; [done|]).
           ++ rewrite split_without in Hsplit by done. done.
           ++ right. by exists (String c p).
        -- intros [Ht [Heq|[p Heq]]]; (split; [done|]).
           ++ subst t. simpl in Ht. rewrite decide_False in Ht by done.
              rewrite split_without in Hsplit by done. done.
           ++ destruct p as [|c' p].
              { injection Heq as -> _. done. }
              rewrite append_cons in Heq. injection Heq as <- ->.
              right. by exists p.
Qed.
End PathFacts.

Section ListingFacts.
Import Js Props Paths.

Lemma map_fmap {A B} (f : A → B) (l : list A) : map f l = f <$> l.
Proof. induction l as [|x l IH]; [done|]. simpl. by rewrite IH. Qed.

Lemma orEmpty_Some p : orEmpty (Some p) = p.
Proof. by destruct p. Qed.

(** What one entry of the directory gives. *)
Lemma listJSONFiles_entry f names :
  listJSONFiles (f :: names) =
  (if decide (last (split "." f) = Some "json")
   then [orEmpty (head (split "." f))] else []) ++ listJSONFiles names.
Proof.
  unfold listJSONFiles. cbn [map]. destruct (decide _) as [H|H].
  - by rewrite filter_cons_True.
  - by rewrite filter_cons_False.
Qed.

(** X4.  [listJSONFiles] keeps an entry exactly when it is [json] or
    ends in [.json], and lists it under the text before its first dot:
    a listed name holds no dot, whatever the entry had between its first
    dot and the extension. *)
Theorem listJSONFiles_spec (fileNames : list string) (name : string) :
  name ∈ listJSONFiles fileNames ↔
  ∃ f, f ∈ fileNames ∧
       (f = "json" ∨ ∃ p, f = p +:+ ".json") ∧
       without "." name = true ∧
       (f = name ∨ ∃ rest, f = name +:+ "." +:+ rest).
Proof.
  induction fileNames as [|f names IH].
  - split; [intros H; by apply not_elem_of_nil in H|].
    intros (f & H & _). by apply not_elem_of_nil in H.
  - rewrite listJSONFiles_entry, elem_of_app, IH. clear IH.
    assert (∃ part, head (split "." f) = Some part) as [part Hhead].
    { destruct (split "." f) eqn:E; [by apply split_nonempty in E | eauto]. }
    rewrite Hhead, orEmpty_Some.
    pose proof Hhead as Hh. apply head_split in Hh as [Hpart Hf]. split.
    + intros [H|(f' & Hin & H)].
      * destruct (decide _) as [Hlast|]; [|by apply not_elem_of_nil in H].
        apply list_elem_of_singleton in H as ->.
        apply last_split in Hlast as [_ Hlast].
        exists f. split; [by left|]. split; [exact Hlast|]. by split.
      * exists f'. split; [by right | done].
    + intros (f' & [->|Hin]%elem_of_cons & Hjson & Hname & Hcut).
      * left. rewrite decide_True by (apply last_split; by split).
        apply list_elem_of_singleton.
        assert (H : head (split "." f) = Some name) by (by apply head_split).
        rewrite Hhead in H. by injection H.
      * right. by exists f'.
Qed.

(** X5.  A directory that holds one file [o.json] for each name [o] of a
    list of names without a dot is listed as that list, in order. *)
Theorem listJSONFiles_round_trip (names : list string) :
  Forall (λ o, without "." o = true) names →
  listJSONFiles (map (λ o, o +:+ ".json") names) = names.
Proof.
  induction 1 as [|o names Ho _ IH]; [done|].
  cbn [map]. rewrite listJSONFiles_entry, IH.
  change (o +:+ ".json") with (o +:+ String "." "json").
  rewrite split_at by done. cbn [split head last].
  change (split "." "json") with ["json"]. cbn [last].
  rewrite decide_True by done. by rewrite orEmpty_Some.
Qed.

Lemma listJSONFiles_round_trip_witness :
  listJSONFiles (map (λ o, o +:+ ".json") ["Account"; "Contact"]) =
  ["Account"; "Contact"].
Proof. apply listJSONFiles_round_trip. by repeat constructor. Defined.

End ListingFacts.


(** * From the directory to the loader *)

Section ZipFacts.
Import Js Loader.
Context {V : Type}.

Lemma zipObjectInto_other (ks : list string) : ∀ (vs : list V) m k,
  k ∉ ks → zipObjectInto ks vs m !! k = m !! k.
Proof.
  induction ks as [|x ks IH]; intros vs m k Hk; [done|].
  apply not_elem_of_cons in Hk as [Hne Hk]. simpl. destruct vs as [|v vs].
  - rewrite IH by done. by rewrite lookup_delete_ne.
  - rewrite IH by done. by rewrite lookup_insert_ne.
Qed.

Lemma zipObjectInto_last (l1 : list string) : ∀ k l2 (vs : list V) m,
  k ∉ l2 → zipObjectInto (l1 ++ k :: l2) vs m !! k = vs !! length l1.
Proof.
  induction l1 as [|x l1 IH]; intros k l2 vs m Hk; simpl.
  - destruct vs as [|v vs]; rewrite zipObjectInto_other by done.
    + by rewrite lookup_delete_eq.
    + by rewrite lookup_insert_eq.
  - destruct vs as [|v vs]; by rewrite IH.
Qed.

(** X9.  [zipObject] reads a key at its last position in the list of
    keys: a later value replaces an earlier one, a key whose last
    position has no value is not defined, and no other key is. *)
Theorem zipObject_last_wins (ks : list string) (vs : list V) (k : string) :
  (k ∉ ks → zipObject ks vs !! k = None) ∧
  (∀ l1 l2, ks = l1 ++ k :: l2 → k ∉ l2 →
     zipObject ks vs !! k = vs !! length l1).
Proof.
  unfold zipObject. split.
  - intros Hk. by rewrite zipObjectInto_other.
  - intros l1 l2 -> Hk. by apply zipObjectInto_last.
Qed.

(** Where a key of the list sits last. *)
Lemma last_position (ks : list string) k :
  k ∈ ks → ∃ l1 l2, ks = l1 ++ k :: l2 ∧ k ∉ l2.
Proof.
  induction ks as [|x ks IH]; intros Hk; [by apply not_elem_of_nil in Hk|].
  destruct (decide (k ∈ ks)) as [Hin|Hnin].
  - destruct (IH Hin) as (l1 & l2 & -> & Hl2). by exists (x :: l1), l2.
  - apply elem_of_cons in Hk as [->|?]; [|done]. by exists [], ks.
Qed.

Lemma zipObject_map (f : string → V) (ks : list string) k :
  k ∈ ks → zipObject ks (map f ks) !! k = Some (f k).
Proof.
  intros Hk. destruct (last_position ks k Hk) as (l1 & l2 & -> & Hl2).
  unfold zipObject. rewrite zipObjectInto_last by done.
  rewrite map_app. rewrite lookup_app_r by (by rewrite length_map).
  by rewrite length_map, Nat.sub_diag.
Qed.

Lemma zipObject_elem (ks : list string) (vs : list V) k v :
  zipObject ks vs !! k = Some v → k ∈ ks ∧ v ∈ vs.
Proof.
  intros H. destruct (decide (k ∈ ks)) as [Hk|Hk].
  - split; [done|]. destruct (last_position ks k Hk) as (l1 & l2 & -> & Hl2).
    unfold zipObject in H. rewrite zipObjectInto_last in H by done.
    by eapply list_elem_of_lookup_2.
  - unfold zipObject in H. rewrite zipObjectInto_other in H by done.
    by rewrite lookup_empty in H.
Qed.
End ZipFacts.

Section SetupFacts.
Import Js Loader Paths Setup.
Context (readJSONFile : string → error + list record).

Lemma readAll_inr paths recordss :
  readAll readJSONFile paths = inr recordss →
  recordss = map (λ p, match readJSONFile p with
                       | inr records => records
                       | inl _ => []
                       end) paths ∧
  ∀ p, p ∈ paths → ∃ records, readJSONFile p = inr records.
Proof.
  revert recordss. induction paths as [|p paths IH]; intros recordss; simpl.
  - intros [= <-]. split; [done|]. intros p H. by apply not_elem_of_nil in H.
  - destruct (readJSONFile p) as [e|records] eqn:Hp; [done|].
    destruct (readAll readJSONFile paths) as [e|rest]; [done|].
    intros [= <-]. destruct (IH rest eq_refl) as [-> Hall].
    split; [done|]. intros q [->|Hq]%elem_of_cons; eauto.
Qed.

Lemma readAll_inl paths e :
  readAll readJSONFile paths = inl e →
  ∃ p, p ∈ paths ∧ readJSONFile p = inl e.
Proof.
  induction paths as [|p paths IH]; simpl; [done|].
  destruct (readJSONFile p) as [e'|records] eqn:Hp.
  - intros [= <-]. exists p. split; [by left | done].
  - destruct (readAll readJSONFile paths) as [e'|rest]; [|done].
    intros [= <-]. destruct (IH eq_refl) as (q & Hq & Hr).
    exists q. split; [by right | done].
Qed.

Lemma sobjectsOf_elem names o :
  o ∈ sobjectsOf names ↔
  o ∈ listJSONFiles names ∧ startsWith o "__" = false.
Proof. unfold sobjectsOf. rewrite list_elem_of_filter. tauto. Qed.

Lemma filter_all {A} (P : A → Prop) `{∀ x, Decision (P x)} (l : list A) :
  Forall P l → filter P l = l.
Proof.
  induction 1 as [|x l Hx _ IH]; [done|]. by rewrite filter_cons_True, IH.
Qed.

(** X7.  When every read succeeds, the collections of the loader are the
    names kept from the directory, in the order of the directory, and
    the records stored for a collection [o] are what the file [o.json]
    of the records directory holds.  When [getDataLoader] rejects on a
    read, it is the read of the file [o.json] of a collection kept. *)
Theorem getDataLoader_reads (sobjectRecordsPath idsPath : string)
    (toolingNames fileNames : list string) :
  match listRecords readJSONFile sobjectRecordsPath fileNames with
  | inr listing =>
      sobjects (getDataLoader idsPath toolingNames listing).1 =
        sobjectsOf fileNames ∧
      ∀ o, o ∈ sobjectsOf fileNames →
        ∃ records,
          readJSONFile (recordsFile sobjectRecordsPath o) = inr records ∧
          (getDataLoader idsPath toolingNames listing).2 !! o = Some records
  | inl e =>
      ∃ o, o ∈ sobjectsOf fileNames ∧
           readJSONFile (recordsFile sobjectRecordsPath o) = inl e
  end.
Proof.
  unfold listRecords.
  destruct (readAll _ _) as [e|recordss] eqn:Hread.
  - apply readAll_inl in Hread as (p & Hp & He).
    rewrite map_fmap in Hp. apply list_elem_of_fmap in Hp as (o & -> & Ho).
    by exists o.
  - apply readAll_inr in Hread as [-> Hall].
    set (names := sobjectsOf fileNames) in *.
    set (content := λ p, match readJSONFile p with
                         | inr records => records
                         | inl _ => []
                         end).
    assert (Hzip : ∀ l : list string,
              zip l (map content (map (recordsFile sobjectRecordsPath) l)) =
              map (λ o, (o, content (recordsFile sobjectRecordsPath o))) l).
    { induction l as [|x l IH]; [done|]. simpl. by rewrite IH. }
    rewrite Hzip. unfold getDataLoader. cbn [fst snd sobjects].
    rewrite filter_all.
    2: { apply Forall_forall. intros e. rewrite map_fmap.
         intros (o & -> & Ho)%list_elem_of_fmap. simpl.
         by apply sobjectsOf_elem in Ho as [_ ?]. }
    rewrite !map_map. cbn [fst snd]. rewrite map_id. split; [done|].
    intros o Ho. destruct (Hall (recordsFile sobjectRecordsPath o)) as [records Hr].
    { rewrite map_fmap. by apply list_elem_of_fmap_2. }
    exists records. split; [done|].
    rewrite (zipObject_map (λ o, content (recordsFile sobjectRecordsPath o)))
      by done.
    unfold content. by rewrite Hr.
Qed.

(** X6.  An entry with a dot before its extension is listed under the
    text before its first dot, and the file read for it is another one:
    with the only entry [o.mid.json], [getDataLoader] reads [o.json] and
    rejects when that read fails. *)
Theorem getDataLoader_reads_first_part (sobjectRecordsPath o mid : string)
    (e : error) :
  without "." o = true → startsWith o "__" = false →
  readJSONFile (recordsFile sobjectRecordsPath o) = inl e →
  sobjectsOf [o +:+ "." +:+ mid +:+ ".json"] = [o] ∧
  listRecords readJSONFile sobjectRecordsPath [o +:+ "." +:+ mid +:+ ".json"]
    = inl e.
Proof.
  intros Ho Hu Hread.
  assert (Hnames : sobjectsOf [o +:+ "." +:+ mid +:+ ".json"] = [o]).
  { unfold sobjectsOf. rewrite listJSONFiles_entry.
    change (listJSONFiles []) with (@nil string). rewrite app_nil_r.
    assert (Hlast : last (split "." (o +:+ "." +:+ mid +:+ ".json"))
                    = Some "json").
    { apply last_split. split; [done|]. right. exists (o +:+ "." +:+ mid).
      by rewrite !append_assoc. }
    rewrite decide_True by done.
    assert (Hhead : head (split "." (o +:+ "." +:+ mid +:+ ".json")) = Some o).
    { apply head_split. split; [done|]. right. by exists (mid +:+ ".json"). }
    rewrite Hhead, orEmpty_Some. by rewrite filter_cons_True. }
  split; [done|]. unfold listRecords. rewrite Hnames. simpl. by rewrite Hread.
Qed.
End SetupFacts.

Lemma getDataLoader_reads_first_part_witness :
  Setup.sobjectsOf ["Account.v2.json"] = ["Account"] ∧
  Setup.listRecords (λ _, inl (SystemError "ENOENT")) "/records"
    ["Account.v2.json"] = inl (SystemError "ENOENT").
Proof.
  apply (getDataLoader_reads_first_part (λ _, inl (SystemError "ENOENT"))
           "/records" "Account" "v2"); reflexivity.
Defined.

(** * What the relation graph sees *)

Section OccurrenceFacts.
Import Js Loader Leaves.

Lemma occursIn_refl p : occursIn p p.
Proof. exists "", "". by rewrite append_nil_r. Qed.

Lemma occursIn_app_l p a s : occursIn p s → occursIn p (a +:+ s).
Proof.
  intros (pre & post & ->). exists (a +:+ pre), post. by rewrite append_assoc.
Qed.

Lemma occursIn_app_r p s b : occursIn p s → occursIn p (s +:+ b).
Proof.
  intros (pre & post & ->). exists pre, (post +:+ b).
  by rewrite !append_assoc.
Qed.

Lemma occursIn_join p sep x l :
  x ∈ l → occursIn p x → occursIn p (join sep l).
Proof.
  intros Hx Hp. induction l as [|y l IH]; [by apply not_elem_of_nil in Hx|].
  apply elem_of_cons in Hx as [<-|Hx].
  - destruct l as [|z l]; [done|].
    change (occursIn p (x +:+ sep +:+ join sep (z :: l))).
    by apply occursIn_app_r.
  - destruct l as [|z l]; [by apply not_elem_of_nil in Hx|].
    change (occursIn p (y +:+ sep +:+ join sep (z :: l))).
    apply occursIn_app_l, occursIn_app_l. by apply IH.
Qed.

Lemma serialize_VObj fs :
  serialize (VObj fs) =
  Some ("{" +:+
        join "," (omap (λ kv : string * value,
                          match serialize kv.2 with
                          | Some t => Some (quote kv.1 +:+ ":" +:+ t)
                          | None => None
                          end) fs) +:+ "}").
Proof. reflexivity. Qed.

Lemma serialize_VArr l :
  serialize (VArr l) =
  Some ("[" +:+ join "," (map (λ x, default "null" (serialize x)) l) +:+ "]").
Proof. reflexivity. Qed.

(** What is written in a value is in the text [JSON.stringify] prints
    for it, between quotes and with its escapes. *)
Lemma mentions_serialize i v :
  mentions i v → ∃ t, serialize v = Some t ∧ occursIn (quote i) t.
Proof.
  induction 1 as [|fs v Hin [t Ht]|fs k v Hin _ (t & Ht & IH)
                  |l v Hin _ (t & Ht & IH)].
  - eexists. split; [reflexivity|]. apply occursIn_refl.
  - rewrite serialize_VObj. eexists. split; [reflexivity|].
    apply occursIn_app_l, occursIn_app_r.
    apply (occursIn_join _ _ (quote i +:+ ":" +:+ t)).
    + apply list_elem_of_omap. exists (i, v). split; [done|]. cbn [fst snd].
      by rewrite Ht.
    + apply occursIn_app_r, occursIn_refl.
  - rewrite serialize_VObj. eexists. split; [reflexivity|].
    apply occursIn_app_l, occursIn_app_r.
    apply (occursIn_join _ _ (quote k +:+ ":" +:+ t)).
    + apply list_elem_of_omap. exists (k, v). split; [done|]. cbn [fst snd].
      by rewrite Ht.
    + by apply occursIn_app_l, occursIn_app_l.
  - rewrite serialize_VArr. eexists. split; [reflexivity|].
    apply occursIn_app_l, occursIn_app_r.
    apply (occursIn_join _ _ t); [|done].
    rewrite map_fmap. apply list_elem_of_fmap. exists v. by rewrite Ht.
Qed.
End OccurrenceFacts.

Section GraphMore.
Import Js Loader Props Leaves.
Context (idsPath : string) (toolingNames : list string)
  (listing : list (string * list record)).

Local Abbreviation L := (getDataLoader idsPath toolingNames listing).1.
Local Abbreviation store := (getDataLoader idsPath toolingNames listing).2.

Lemma built_children P :
  P ∈ sobjects L →
  parent2childObjects L !! P = Some (childrenOf (sobjects L) store P).
Proof.
  intros HP. simpl in *. by rewrite build_parent2childObjects_lookup, decide_True.
Qed.

(** X10.  A collection whose records write the id of a record of another
    collection, as a text at any depth or as the name of a field, is a
    child of that collection, provided [JSON.stringify] prints the id
    without an escape. *)
Theorem mentioned_id_makes_child (P C : string) (parentRecord childRecord : record)
    (i : string) :
  P ∈ sobjects L → C ∈ sobjects L → C ≠ P →
  parentRecord ∈ recordsOf store P → get parentRecord "id" = Some (VStr i) →
  quoteBody i = i →
  childRecord ∈ recordsOf store C → mentions i (VObj childRecord) →
  childOf L C P ∧ parentOf L P C.
Proof.
  intros HP HC Hne Hrp Hid Hplain Hrc Hm.
  assert (Hchild : childOf L C P).
  { exists (childrenOf (sobjects L) store P). split; [by apply built_children|].
    apply childrenOf_spec. split; [done|]. split; [done|].
    apply references_spec.
    destruct (mentions_serialize i (VArr (map VObj (recordsOf store C))))
      as (t & Ht & pre & post & ->).
    { apply (mentions_elem _ _ (VObj childRecord)); [|done].
      rewrite map_fmap. by apply list_elem_of_fmap_2. }
    exists parentRecord, pre, post. split; [done|].
    unfold stringify. rewrite Ht. simpl. unfold quotedId. rewrite Hid. simpl.
    unfold quote. by rewrite Hplain. }
  split; [done|]. by apply built_childOf_parentOf.
Qed.

(** X11.  A collection without records has no child and no parent. *)
Theorem empty_collection_is_isolated (X : string) :
  recordsOf store X = [] →
  ∀ Y, ¬ childOf L Y X ∧ ¬ childOf L X Y ∧ ¬ parentOf L X Y ∧ ¬ parentOf L Y X.
Proof.
  intros Hempty.
  assert (Hdown : ∀ Y, ¬ childOf L Y X).
  { intros Y HY. destruct (built_childOf _ _ _ _ _ HY) as [_ HX].
    destruct HY as (children & Hl & Hin).
    rewrite built_children in Hl by done. injection Hl as <-.
    apply childrenOf_spec in Hin as (_ & _ & Href).
    change (references store X Y = true) in Href.
    unfold references in Href. by rewrite Hempty in Href. }
  assert (Hup : ∀ Y, ¬ childOf L X Y).
  { intros Y HY. destruct (built_childOf _ _ _ _ _ HY) as [_ HYs].
    destruct HY as (children & Hl & Hin).
    rewrite built_children in Hl by done. injection Hl as <-.
    apply childrenOf_spec in Hin as (_ & _ & Href).
    change (references store Y X = true) in Href.
    apply references_spec in Href as (r & pre & post & _ & Heq).
    rewrite Hempty in Heq. unfold quotedId in Heq.
    change (stringify []) with "[]" in Heq.
    destruct pre as [|a [|b [|c pre]]]; discriminate. }
  intros Y. split; [apply Hdown|]. split; [apply Hup|].
  split; intros H%built_parentOf; [by apply (Hdown Y) | by apply (Hup Y)].
Qed.
End GraphMore.

Lemma mentioned_id_makes_child_witness :
  Props.childOf Demo.parentChild.1 "Child" "Parent" ∧
  Props.parentOf Demo.parentChild.1 "Parent" "Child".
Proof.
  apply (mentioned_id_makes_child "/ids" [] Demo.listing "Parent" "Child"
           [("id", Js.VStr "p1"); ("name", Js.VStr "Acme")]
           [("id", Js.VStr "c1"); ("parentRef", Js.VStr "p1")] "p1").
  - vm_compute. apply list_elem_of_In. simpl. tauto.
  - vm_compute. apply list_elem_of_In. simpl. tauto.
  - discriminate.
  - vm_compute. apply list_elem_of_In. simpl. tauto.
  - reflexivity.
  - reflexivity.
  - vm_compute. apply list_elem_of_In. simpl. tauto.
  - apply (Leaves.mentions_field _ _ "parentRef" (Js.VStr "p1")).
    + apply list_elem_of_In. simpl. tauto.
    + constructor.
Defined.

Lemma empty_collection_is_isolated_witness :
  ¬ Props.childOf (Loader.getDataLoader "/ids" [] [("Empty", []); ("Other", [])]).1
      "Other" "Empty" ∧
  ¬ Props.childOf (Loader.getDataLoader "/ids" [] [("Empty", []); ("Other", [])]).1
      "Empty" "Other" ∧
  ¬ Props.parentOf (Loader.getDataLoader "/ids" [] [("Empty", []); ("Other", [])]).1
      "Empty" "Other" ∧
  ¬ Props.parentOf (Loader.getDataLoader "/ids" [] [("Empty", []); ("Other", [])]).1
      "Other" "Empty".
Proof.
  apply (empty_collection_is_isolated "/ids" []
           [("Empty", []); ("Other", [])] "Empty").
  reflexivity.
Defined.

(** * The field resolver, record by record *)

Section ResolverMore.
Import Js Regex Loader Props Leaves.
Context (R : RemoteStore) (L : loader) (rs : rstate R) (m : gmap string string).

Local Abbreviation resolve := (getFieldValue R L rs m).

(** What a text can become: another text, or a member of
    [Object.prototype]. *)
Lemma getFieldValue_text s : skeleton (resolve (VStr s)).1.2 = VStr "".
Proof.
  cbn [getFieldValue].
  assert (Hmap : skeleton (fromIdentityMap m s).1.2 = VStr "").
  { unfold fromIdentityMap, read. destruct (m !! s) as [v|]; simpl.
    - by destruct v.
    - destruct (bool_decide _); by simpl. }
  destruct (match_ 4 SOQL_REGEX s) as [matches|]; [|done].
  destruct (bool_decide _); [|done].
  by destruct (find R rs _ _ _ _ _) as [err|[|Id data]].
Qed.

Lemma overFields_skeleton (f : value → resolution value) fs :
  Forall (λ kv : string * value, skeleton (f kv.2).1.2 = skeleton kv.2) fs →
  map (λ kv, (kv.1, skeleton kv.2)) (overFields f fs).1.2 =
  map (λ kv, (kv.1, skeleton kv.2)) fs.
Proof.
  induction 1 as [|[k v] fs Hv _ IH]; [done|]. simpl in *.
  destruct (f v) as [[ev1 v'] e1]. destruct (overFields f fs) as [[ev2 r'] e2].
  simpl in *. by rewrite Hv, IH.
Qed.

Lemma overElems_skeleton (f : value → resolution value) l :
  Forall (λ v, skeleton (f v).1.2 = skeleton v) l →
  map skeleton (overElems f l).1.2 = map skeleton l.
Proof.
  induction 1 as [|v l Hv _ IH]; [done|]. simpl in *.
  destruct (f v) as [[ev1 v'] e1]. destruct (overElems f l) as [[ev2 r'] e2].
  simpl in *. by rewrite Hv, IH.
Qed.

Lemma getFieldValue_skeleton v : skeleton (resolve v).1.2 = skeleton v.
Proof.
  induction v as [ | b | r | s | l IH | fs IH | n] using value_ind_nested;
    try done.
  - apply getFieldValue_text.
  - cbn [getFieldValue].
    pose proof (overElems_skeleton resolve l IH) as H.
    destruct (overElems _ l) as [[ev l'] e]. simpl in *. by rewrite H.
  - cbn [getFieldValue].
    pose proof (overFields_skeleton resolve fs IH) as H.
    destruct (overFields _ fs) as [[ev fs'] e]. simpl in *. by rewrite H.
Qed.

(** X13.  The resolver rewrites texts and nothing else: the records it
    returns have the fields of the records it was given, in the same
    order, arrays of the same lengths, and the same numbers, booleans
    and nulls, whether or not a lookup failed. *)
Theorem updateAll_keeps_skeleton (records : list record) :
  map (λ r, skeleton (VObj r)) (updateAll R L rs m records).1.2 =
  map (λ r, skeleton (VObj r)) records.
Proof.
  induction records as [|r records IH]; [done|]. simpl.
  unfold updateFieldValues.
  pose proof (overFields_skeleton resolve r) as Hr.
  destruct (overFields _ r) as [[ev1 r'] e1].
  destruct (updateAll R L rs m records) as [[ev2 rest'] e2]. simpl in *.
  rewrite IH, Hr; [done|].
  apply Forall_forall. intros kv _. apply getFieldValue_skeleton.
Qed.

(** *** Texts that stay *)

Lemma overFields_plain (f : value → resolution value) fs :
  Forall (λ kv : string * value, f kv.2 = ([], kv.2, None)) fs →
  overFields f fs = ([], fs, None).
Proof.
  induction 1 as [|[k v] fs Hv _ IH]; [done|]. simpl in *. by rewrite Hv, IH.
Qed.

Lemma overElems_plain (f : value → resolution value) l :
  Forall (λ v, f v = ([], v, None)) l → overElems f l = ([], l, None).
Proof.
  induction 1 as [|v l Hv _ IH]; [done|]. simpl in *. by rewrite Hv, IH.
Qed.

Lemma getFieldValue_plain_value v :
  Forall (λ s, ¬ isQuery s ∧ truthy (read m s) = false) (texts v) →
  resolve v = ([], v, None).
Proof.
  induction v as [ | b | r | s | l IH | fs IH | n] using value_ind_nested;
    try done.
  - intros [[Hq Hm] _]%Forall_cons. rewrite getFieldValue_plain by done.
    unfold fromIdentityMap. by rewrite Hm.
  - intros Hl. cbn [getFieldValue texts] in *. rewrite overElems_plain; [done|].
    induction IH as [|x l Hx _ IHl]; [constructor|].
    simpl in Hl. apply Forall_app in Hl as [H1 H2]. constructor; auto.
  - intros Hl. cbn [getFieldValue texts] in *. rewrite overFields_plain; [done|].
    induction IH as [|x l Hx _ IHl]; [constructor|].
    simpl in Hl. apply Forall_app in Hl as [H1 H2]. constructor; auto.
Qed.

(** X14.  Records whose texts are no query and read nothing truthy in
    the identity map go through the resolver as they are, and no lookup
    is issued. *)
Theorem updateAll_plain_records (records : list record) :
  Forall (λ s, ¬ isQuery s ∧ truthy (read m s) = false)
    (flat_map (λ r, texts (VObj r)) records) →
  updateAll R L rs m records = ([], records, None).
Proof.
  induction records as [|r records IH]; [done|]. simpl.
  intros [Hr Hrest]%Forall_app. rewrite IH by done.
  unfold updateFieldValues.
  pose proof (getFieldValue_plain_value (VObj r) Hr) as H.
  cbn [getFieldValue] in H. destruct (overFields _ r) as [[ev fs'] e].
  by injection H as -> -> ->.
Qed.

(** *** One lookup for each text that is a query *)

Lemma firstError_is_Some e1 e2 :
  is_Some (firstError e1 e2) ↔ is_Some e1 ∨ is_Some e2.
Proof.
  destruct e1 as [e|]; simpl.
  - split; [by left | eauto].
  - split; [by right | by intros [[? ?]|?]].
Qed.

Lemma getFieldValue_lookups v :
  (resolve v).1.1 = flat_map (λ s, (resolve (VStr s)).1.1) (texts v) ∧
  (is_Some (resolve v).2 ↔
   ∃ s, s ∈ texts v ∧ is_Some (resolve (VStr s)).2).
Proof.
  induction v as [ | b | r | s | l IH | fs IH | n] using value_ind_nested;
    try (split; [done|]; split; [by intros [? ?] | intros (s & Hs & _);
         by apply not_elem_of_nil in Hs]).
  - cbn [texts flat_map]. rewrite app_nil_r. split; [done|]. split.
    + intros H. exists s. split; [by left | done].
    + by intros (s' & ->%list_elem_of_singleton & H).
  - cbn [getFieldValue texts].
    assert (H : (overElems resolve l).1.1 =
                flat_map (λ s, (resolve (VStr s)).1.1) (flat_map texts l) ∧
                (is_Some (overElems resolve l).2 ↔
                 ∃ s, s ∈ flat_map texts l ∧ is_Some (resolve (VStr s)).2)).
    { induction IH as [|x l [Hx1 Hx2] _ [IH1 IH2]].
      - split; [done|]. split; [by intros [? ?]|].
        intros (s & Hs & _). by apply not_elem_of_nil in Hs.
      - simpl. destruct (resolve x) as [[ev1 v'] e1].
        destruct (overElems resolve l) as [[ev2 r'] e2]. simpl in *.
        rewrite flat_map_app, Hx1, IH1. split; [done|].
        rewrite firstError_is_Some, Hx2, IH2. setoid_rewrite elem_of_app.
        naive_solver. }
    by destruct (overElems resolve l) as [[ev l'] e].
  - cbn [getFieldValue texts].
    assert (H : (overFields resolve fs).1.1 =
                flat_map (λ s, (resolve (VStr s)).1.1)
                  (flat_map (λ kv, texts kv.2) fs) ∧
                (is_Some (overFields resolve fs).2 ↔
                 ∃ s, s ∈ flat_map (λ kv, texts kv.2) fs ∧
                      is_Some (resolve (VStr s)).2)).
    { induction IH as [|[k x] l [Hx1 Hx2] _ [IH1 IH2]].
      - split; [done|]. split; [by intros [? ?]|].
        intros (s & Hs & _). by apply not_elem_of_nil in Hs.
      - simpl in *. destruct (resolve x) as [[ev1 v'] e1].
        destruct (overFields resolve l) as [[ev2 r'] e2]. simpl in *.
        rewrite flat_map_app, Hx1, IH1. split; [done|].
        rewrite firstError_is_Some, Hx2, IH2. setoid_rewrite elem_of_app.
        naive_solver. }
    by destruct (overFields resolve fs) as [[ev l'] e].
Qed.

(** X15.  The lookups issued for the records of a collection are those
    of their texts, one after the other in the order of the records and
    of their fields: a lookup that fails does not hold back the lookups
    of the texts after it.  The resolution fails exactly when the lookup
    of one of the texts does. *)
Theorem updateAll_lookups (records : list record) :
  (updateAll R L rs m records).1.1 =
    flat_map (λ s, (resolve (VStr s)).1.1)
      (flat_map (λ r, texts (VObj r)) records) ∧
  (is_Some (updateAll R L rs m records).2 ↔
   ∃ s, s ∈ flat_map (λ r, texts (VObj r)) records ∧
        is_Some (resolve (VStr s)).2).
Proof.
  induction records as [|r records [IH1 IH2]].
  - split; [done|]. split; [by intros [? ?]|].
    intros (s & Hs & _). by apply not_elem_of_nil in Hs.
  - simpl. unfold updateFieldValues.
    destruct (getFieldValue_lookups (VObj r)) as [Hr1 Hr2].
    cbn [getFieldValue texts] in Hr1, Hr2.
    destruct (overFields resolve r) as [[ev1 r'] e1].
    destruct (updateAll R L rs m records) as [[ev2 rest'] e2]. simpl in *.
    rewrite flat_map_app, Hr1, IH1. split; [done|].
    rewrite firstError_is_Some, Hr2, IH2. setoid_rewrite elem_of_app.
    naive_solver.
Qed.
End ResolverMore.

Lemma updateAll_plain_records_witness :
  Loader.updateAll Demo.accepting Demo.parentChild.1 [] ∅
    [[("name", Js.VStr "Acme"); ("size", Js.VNum "3")]] =
  ([], [[("name", Js.VStr "Acme"); ("size", Js.VNum "3")]], None).
Proof.
  apply updateAll_plain_records. repeat constructor.
  unfold Props.isQuery. vm_compute. intros [? ?]. discriminate.
Defined.


(** * Queries in plain form *)

Section QueryFacts.
Import Js Regex Loader Props Query.

Lemma starGreedy_stop {A} cls t (k : string → option A) :
  match t with String c _ => cls c | EmptyString => false end = false →
  starGreedy cls t k = k t.
Proof. destruct t as [|c t]; simpl; [done|]. by intros ->. Qed.

Lemma starLazy_hit {A} cls t (k : string → option A) a :
  k t = Some a → starLazy cls t k = Some a.
Proof. intros H. destruct t; simpl; by rewrite H. Qed.

Lemma starLazy_word {A} cls w t (k : string → option A) :
  allChars cls w = true →
  (∀ u1 u2, w = u1 +:+ u2 → u2 ≠ "" → k (u2 +:+ t) = None) →
  starLazy cls (w +:+ t) k = starLazy cls t k.
Proof.
  induction w as [|c w IH]; intros Hw Hk; [done|].
  simpl in Hw. apply andb_true_iff in Hw as [Hc Hw].
  rewrite append_cons. simpl.
  rewrite <- append_cons, (Hk "" (String c w)) by done. rewrite Hc.
  apply IH; [done|]. intros u1 u2 -> Hu. by apply (Hk (String c u1)).
Qed.

Lemma consumed_app w t : consumed (w +:+ t) t = w.
Proof.
  unfold consumed. rewrite string_length_app.
  replace (String.length w + String.length t - String.length t)%nat
    with (String.length w) by lia.
  induction w as [|c w IH]; simpl.
  - by destruct t.
  - by rewrite IH.
Qed.

Lemma consumed_all s : consumed s "" = s.
Proof.
  unfold consumed. simpl. rewrite Nat.sub_0_r.
  induction s as [|c s IH]; simpl; [done | by rewrite IH].
Qed.

Lemma allChars_middle cls u1 c u2 :
  allChars cls (u1 +:+ String c u2) = true → cls c = true.
Proof.
  induction u1 as [|b u1 IH]; simpl.
  - by intros [? _]%andb_true_iff.
  - intros [_ ?]%andb_true_iff. auto.
Qed.

Lemma allChars_impl (cls1 cls2 : ascii → bool) s :
  (∀ c, cls1 c = true → cls2 c = true) →
  allChars cls1 s = true → allChars cls2 s = true.
Proof.
  intros H. induction s as [|c s IH]; [done|]. simpl.
  intros [Hc Hs]%andb_true_iff. by rewrite (H c Hc), IH.
Qed.

Section Steps.
Context {A : Type} (k : string → captures → option A).

Lemma run_seq_lit p r s s' c :
  literal p s = Some s' → run (Seq (Lit p) r) s c k = run r s' c k.
Proof. intros H. cbn [run]. by rewrite H. Qed.

Lemma run_seq_space r x c :
  match x with String b _ => is_space b | EmptyString => false end = false →
  run (Seq (Plus is_space) r) (String " " x) c k = run r x c k.
Proof.
  intros Hx. cbn [run plusGreedy]. change (is_space " ") with true. cbn iota.
  by rewrite starGreedy_stop.
Qed.

Lemma run_seq_space_fails r x c :
  match x with String b _ => is_space b | EmptyString => false end = false →
  run (Seq (Plus is_space) r) x c k = None.
Proof.
  intros Hx. destruct x as [|b x]; cbn [run plusGreedy]; [done | by rewrite Hx].
Qed.

Lemma run_seq_word i w t r c a :
  allChars (λ b, is_dot b && negb (is_space b)) w = true →
  run (Seq (Plus is_space) r) t ((i, w) :: c) k = Some a →
  run (Seq (Group i (StarLazy is_dot)) (Seq (Plus is_space) r)) (w +:+ t) c k
    = Some a.
Proof.
  intros Hw Ht.
  change (starLazy is_dot (w +:+ t)
            (λ s', run (Seq (Plus is_space) r) s'
                     ((i, consumed (w +:+ t) s') :: c) k) = Some a).
  rewrite starLazy_word.
  - apply starLazy_hit. by rewrite consumed_app.
  - revert Hw. apply allChars_impl. by intros b [? _]%andb_true_iff.
  - intros u1 u2 -> Hu. apply run_seq_space_fails.
    destruct u2 as [|b u2]; [done|]. rewrite append_cons.
    apply allChars_middle in Hw. apply andb_true_iff in Hw as [_ Hb].
    by apply negb_true_iff.
Qed.

Lemma run_seq_condition wh c a :
  condition wh = true →
  k "" ((4%nat, "") :: (3%nat, wh) :: c) = Some a →
  run (Seq (Group 3 (StarLazy is_dot)) (Group 4 (Alt EndOfInput ORDER_BY)))
    wh c k = Some a.
Proof.
  unfold condition. intros [[Hdot _]%andb_true_iff Hno%bool_decide_eq_true]%andb_true_iff Hk.
  change (starLazy is_dot wh
            (λ s', run (Group 4 (Alt EndOfInput ORDER_BY)) s'
                     ((3%nat, consumed wh s') :: c) k) = Some a).
  rewrite <- (append_nil_r wh) at 1. rewrite starLazy_word; [|done|].
  - apply starLazy_hit. cbn [run]. rewrite (consumed_all wh).
    change (consumed "" "") with "". by rewrite Hk.
  - intros u1 u2 -> Hu. rewrite append_nil_r. cbn [run].
    destruct u2 as [|b u2]; [done|].
    destruct (run ORDER_BY (String b u2) _ _) as [a'|] eqn:Hrun; [|done].
    apply run_sound in Hrun as (s' & c' & Hl & _).
    assert (Hs : is_Some (search ORDER_BY (u1 +:+ String b u2))).
    { apply search_found. by exists u1, (String b u2), s'. }
    rewrite Hno in Hs. by destruct Hs.
Qed.
End Steps.

Lemma word_chars s :
  word s = true →
  allChars (λ b, is_dot b && negb (is_space b)) s = true ∧
  ∀ t, match s +:+ t with
       | String b _ => is_space b
       | EmptyString => false
       end = false.
Proof.
  unfold word. intros [Hne Hs]%andb_true_iff. split; [done|]. intros t.
  destruct s as [|b s]; [done|]. rewrite append_cons. simpl in Hs.
  apply andb_true_iff in Hs as [[_ Hb]%andb_true_iff _].
  by apply negb_true_iff.
Qed.

(** The part of [SOQL_REGEX] before the condition, on a text that
    starts in plain form. *)
Lemma run_soql_head {A} (k : string → captures → option A) sel frm rest a :
  word sel = true → word frm = true →
  match rest with String b _ => is_space b | EmptyString => false end = false →
  run (Seq (Group 3 (StarLazy is_dot)) (Group 4 (Alt EndOfInput ORDER_BY)))
    rest [(2%nat, frm); (1%nat, sel)] k = Some a →
  run SOQL_REGEX
    ("SELECT " +:+ sel +:+ " FROM " +:+ frm +:+ " WHERE " +:+ rest) [] k
    = Some a.
Proof.
  intros [Hsel Hsel']%word_chars [Hfrm Hfrm']%word_chars Hrest Hk.
  cbv beta zeta delta [SOQL_REGEX].
  rewrite (run_seq_lit k "SELECT" _ _ (" " +:+ sel +:+ " FROM " +:+ frm +:+
                                       " WHERE " +:+ rest))
    by (apply (literal_app "SELECT" "SELECT " " "); reflexivity).
  change (" " +:+ sel +:+ " FROM " +:+ frm +:+ " WHERE " +:+ rest)
    with (String " " (sel +:+ " FROM " +:+ frm +:+ " WHERE " +:+ rest)).
  rewrite run_seq_space by apply Hsel'.
  apply run_seq_word; [done|].
  change (" FROM " +:+ frm +:+ " WHERE " +:+ rest)
    with (String " " ("FROM " +:+ frm +:+ " WHERE " +:+ rest)).
  rewrite run_seq_space by reflexivity.
  rewrite (run_seq_lit k "FROM" _ _ (" " +:+ frm +:+ " WHERE " +:+ rest))
    by (apply (literal_app "FROM" "FROM " " "); reflexivity).
  change (" " +:+ frm +:+ " WHERE " +:+ rest)
    with (String " " (frm +:+ " WHERE " +:+ rest)).
  rewrite run_seq_space by apply Hfrm'.
  apply run_seq_word; [done|].
  change (" WHERE " +:+ rest) with (String " " ("WHERE " +:+ rest)).
  rewrite run_seq_space by reflexivity.
  rewrite (run_seq_lit k "WHERE" _ _ (" " +:+ rest))
    by (apply (literal_app "WHERE" "WHERE " " "); reflexivity).
  change (" " +:+ rest) with (String " " rest).
  by rewrite run_seq_space.
Qed.

Lemma search_first r s m c :
  run r s [] (λ s' c', Some (consumed s s', c')) = Some (m, c) →
  search r s = Some (m, c).
Proof. intros H. destruct s; simpl in *; by rewrite H. Qed.

(** How [SOQL_REGEX] reads a query in plain form. *)
Lemma match_soql sel frm wh :
  word sel = true → word frm = true → condition wh = true →
  match_ 4 SOQL_REGEX (soql sel frm wh) =
  Some [Some (soql sel frm wh); Some sel; Some frm; Some wh; Some ""].
Proof.
  intros Hsel Hfrm Hwh. unfold match_.
  rewrite (search_first _ _ (soql sel frm wh)
             [(4%nat, ""); (3%nat, wh); (2%nat, frm); (1%nat, sel)]); [done|].
  apply run_soql_head; [done..| |].
  - unfold condition in Hwh.
    apply andb_true_iff in Hwh as [[_ Hlead]%andb_true_iff _].
    destruct wh as [|b wh]; [done|]. by apply negb_true_iff.
  - apply run_seq_condition; [done|]. by rewrite consumed_all.
Qed.

Lemma starGreedy_total {A} cls x (k : string → option A) :
  (∀ y, is_Some (k y)) → ∃ y, starGreedy cls x k = k y.
Proof.
  intros Hk. induction x as [|b x [y IH]]; simpl; [by exists ""|].
  destruct (cls b); [|by exists (String b x)].
  rewrite IH. destruct (Hk y) as [a Ha]. exists y. by rewrite Ha.
Qed.

(** The same for a query that goes on with an ORDER BY clause: the
    condition stops before the clause. *)
Lemma match_soql_ordered sel frm wh order :
  word sel = true → word frm = true → word wh = true →
  ∃ m g4,
    match_ 4 SOQL_REGEX (soqlOrdered sel frm wh order) =
    Some [Some m; Some sel; Some frm; Some wh; Some g4].
Proof.
  intros Hsel Hfrm [Hwh Hwh']%word_chars.
  set (s := soqlOrdered sel frm wh order).
  set (t := " ORDER BY " +:+ order).
  set (k := λ (s' : string) (c' : captures), Some (consumed s s', c')).
  assert (Hrun : ∃ x g4,
            run (Seq (Group 3 (StarLazy is_dot))
                   (Group 4 (Alt EndOfInput ORDER_BY)))
              (wh +:+ t) [(2%nat, frm); (1%nat, sel)] k =
            Some (consumed s x,
                  [(4%nat, g4); (3%nat, wh); (2%nat, frm); (1%nat, sel)])).
  { destruct (starGreedy_total is_space order
                (λ s', k s' [(4%nat, consumed t s'); (3%nat, wh);
                             (2%nat, frm); (1%nat, sel)]))
      as [x Hx]; [by eauto|].
    exists x, (consumed t x).
    change (starLazy is_dot (wh +:+ t)
              (λ s', run (Group 4 (Alt EndOfInput ORDER_BY)) s'
                       [(3%nat, consumed (wh +:+ t) s'); (2%nat, frm);
                        (1%nat, sel)] k) = Some (consumed s x,
                  [(4%nat, consumed t x); (3%nat, wh); (2%nat, frm);
                   (1%nat, sel)])).
    rewrite starLazy_word.
    - apply starLazy_hit. rewrite consumed_app. unfold t at 1.
      change (" ORDER BY " +:+ order) with (String " " ("ORDER BY " +:+ order)).
      cbn [run]. unfold ORDER_BY.
      rewrite run_seq_space by reflexivity.
      rewrite (run_seq_lit _ "ORDER BY" _ _ (" " +:+ order))
        by (apply (literal_app "ORDER BY" "ORDER BY " " "); reflexivity).
      change (" " +:+ order) with (String " " order).
      cbn [run plusGreedy]. change (is_space " ") with true. cbn iota.
      exact Hx.
    - revert Hwh. apply allChars_impl. by intros b [? _]%andb_true_iff.
    - intros u1 u2 -> Hu. destruct u2 as [|b u2]; [done|]. cbn [run].
      rewrite append_cons. unfold ORDER_BY.
      apply run_seq_space_fails.
      apply allChars_middle in Hwh. apply andb_true_iff in Hwh as [_ Hb].
      by apply negb_true_iff. }
  destruct Hrun as (x & g4 & Hrun). exists (consumed s x), g4.
  unfold match_.
  rewrite (search_first _ _ (consumed s x)
             [(4%nat, g4); (3%nat, wh); (2%nat, frm); (1%nat, sel)]); [done|].
  apply run_soql_head; [done..|apply Hwh'|exact Hrun].
Qed.
End QueryFacts.

Section QueryClaim.
Import Js Regex Loader Props Query.

(** X16.  A text of the form [SELECT sel FROM frm WHERE wh], where [sel]
    and [frm] are words and [wh] is a one-line condition without an
    ORDER BY clause, is resolved by one lookup: the collection [frm] is
    asked for the fields [sel] of the records that satisfy [wh], over
    the tooling connection when [frm] is a tooling collection, and the
    text becomes the id of the first record found. *)
Theorem plain_query_lookup (R : RemoteStore) (L : loader) (rs : rstate R)
    (m : gmap string string) (sel frm wh : string) :
  word sel = true → word frm = true → condition wh = true →
  getFieldValue R L rs m (VStr (soql sel frm wh)) =
  lookupResult R L rs (soql sel frm wh) sel frm wh.
Proof.
  intros Hsel Hfrm Hwh. cbn [getFieldValue].
  rewrite match_soql by done. cbn [length]. rewrite bool_decide_eq_true_2 by lia.
  unfold lookupResult. cbn [lookup list_lookup mjoin option_join default].
  by destruct (find R rs _ _ _ _ _) as [err|[|Id data]].
Qed.

Lemma plain_query_lookup_witness :
  getFieldValue (Demo.store (λ _, ["001"]) []) Demo.parentChild.1 [] ∅
    (VStr "SELECT Id FROM Account WHERE Name = 'Acme'") =
  ([Finding false "Account" "Name = 'Acme'" "Id"], VStr "001", None).
Proof.
  apply (plain_query_lookup (Demo.store (λ _, ["001"]) []) Demo.parentChild.1
           [] ∅ "Id" "Account" "Name = 'Acme'"); vm_compute; reflexivity.
Defined.
End QueryClaim.

Section OrderClaim.
Import Js Regex Loader Props Query.

(** X24.  An ORDER BY clause after the condition is read and dropped:
    the text [SELECT sel FROM frm WHERE wh ORDER BY order], with three
    words [sel], [frm] and [wh], is resolved by the lookup of the query
    without the clause, whatever the order asked for. *)
Theorem order_by_is_dropped (R : RemoteStore) (L : loader) (rs : rstate R)
    (m : gmap string string) (sel frm wh order : string) :
  word sel = true → word frm = true → word wh = true →
  getFieldValue R L rs m (VStr (soqlOrdered sel frm wh order)) =
  lookupResult R L rs (soqlOrdered sel frm wh order) sel frm wh.
Proof.
  intros Hsel Hfrm Hwh. cbn [getFieldValue].
  destruct (match_soql_ordered sel frm wh order Hsel Hfrm Hwh)
    as (m0 & g4 & ->).
  cbn [length]. rewrite bool_decide_eq_true_2 by lia.
  unfold lookupResult. cbn [lookup list_lookup mjoin option_join default].
  by destruct (find R rs _ _ _ _ _) as [err|[|Id data]].
Qed.

Lemma order_by_is_dropped_witness :
  getFieldValue (Demo.store (λ _, ["001"; "002"]) []) Demo.parentChild.1 [] ∅
    (VStr "SELECT Id FROM Account WHERE Active=true ORDER BY Name DESC") =
  ([Finding false "Account" "Active=true" "Id"], VStr "001", None).
Proof.
  apply (order_by_is_dropped (Demo.store (λ _, ["001"; "002"]) [])
           Demo.parentChild.1 [] ∅ "Id" "Account" "Active=true" "Name DESC");
    vm_compute; reflexivity.
Defined.
End OrderClaim.

(** * What every walk that returns keeps *)

Section WalkKeeps.
Import Loader Props.
Context {St : Type} (cache : St → gmap string outcome)
  (enter : string → St → St) (memo : string → outcome → St → St)
  (neighbours : gmap string (list string)) (work : string → St → outcome * St).
Context (good : string → Prop) (P : St → Prop) (Q : outcome → Prop).

Local Abbreviation walk := (walk cache enter memo neighbours work).

Hypothesis Q_resolved : Q Resolved.

Lemma forAwait_keeps (f : string → St → option (outcome * St)) xs :
  (∀ x st o st', x ∈ xs → P st → f x st = Some (o, st') → Q o ∧ P st') →
  ∀ st o st', P st → forAwait f xs st = Some (o, st') → Q o ∧ P st'.
Proof.
  induction xs as [|x xs IH]; intros Hf st o st' HP Hfa; simpl in Hfa.
  - by injection Hfa as <- <-.
  - destruct (f x st) as [[o1 st1]|] eqn:Hx; [|done].
    destruct (Hf x st o1 st1) as [HQ1 HP1]; [by left | done | done |].
    destruct o1 as [|e].
    + apply (IH (λ y st2 o2 st3 Hy, Hf y st2 o2 st3 (list_elem_of_further _ _ _ Hy)) st1);
        [exact HP1 | exact Hfa].
    + by injection Hfa as <- <-.
Qed.

Hypothesis good_neighbours : ∀ s ns n,
  good s → neighbours !! s = Some ns → n ∈ ns → good n.
Hypothesis Q_missing : ∀ s,
  good s → neighbours !! s = None → Q (Rejected TypeError).
Hypothesis Q_cached : ∀ st x o, P st → cache st !! x = Some o → Q o.
Hypothesis P_enter : ∀ s st, good s → P st → P (enter s st).
Hypothesis P_reject : ∀ s e st,
  good s → P st → Q (Rejected e) → P (memo s (Rejected e) st).
Hypothesis P_work : ∀ s st,
  good s → P st →
  Q (work s st).1 ∧ P (memo s (work s st).1 (work s st).2).

(** A property of the state that entering a name, caching an outcome
    and the work of a name keep is kept by a whole call, and the outcome
    of the call is one the work or the cache can give. *)
Lemma walk_keeps fuel : ∀ s st o st',
  good s → P st → walk fuel s st = Some (o, st') → Q o ∧ P st'.
Proof.
  induction fuel as [|fuel IH]; intros s st o st' Hs HP Hw; simpl in Hw.
  { destruct (cache st !! s) as [o'|] eqn:Hc; [|done].
    injection Hw as <- <-. split; [by eapply Q_cached | done]. }
  destruct (cache st !! s) as [o'|] eqn:Hc.
  { injection Hw as <- <-. split; [by eapply Q_cached | done]. }
  destruct (neighbours !! s) as [ns|] eqn:Hns.
  - destruct (forAwait _ ns (enter s st)) as [[o1 st1]|] eqn:Hfa; [|done].
    assert (H1 : Q o1 ∧ P st1).
    { apply (forAwait_keeps (walk fuel) ns) with (st := enter s st);
        [|by apply P_enter|done].
      intros x st2 o2 st3 Hx HP2 Hx2. apply (IH x st2); [|done..].
      exact (good_neighbours s ns x Hs Hns Hx). }
    destruct H1 as [HQ1 HP1].
    destruct o1 as [|e]; injection Hw as <- <-.
    + by apply P_work.
    + split; [done|]. by apply P_reject.
  - injection Hw as <- <-. split; [by apply (Q_missing s)|].
    apply P_reject; [done | by apply P_enter | by apply (Q_missing s)].
Qed.
End WalkKeeps.

(** * The work of a collection, event by event *)

Section WorkFacts.
Import Js Loader Props Trace.
Context (R : RemoteStore) (L : loader).

Lemma overFields_all (Pred : event → Prop) (f : value → resolution value) fs :
  Forall (λ kv : string * value, Forall Pred (f kv.2).1.1) fs →
  Forall Pred (overFields f fs).1.1.
Proof.
  induction 1 as [|[k v] fs Hv _ IH]; simpl in *; [constructor|].
  destruct (f v) as [[ev1 v'] e1]. destruct (overFields f fs) as [[ev2 r'] e2].
  simpl in *. by apply Forall_app.
Qed.

Lemma overElems_all (Pred : event → Prop) (f : value → resolution value) l :
  Forall (λ v, Forall Pred (f v).1.1) l → Forall Pred (overElems f l).1.1.
Proof.
  induction 1 as [|v l Hv _ IH]; simpl in *; [constructor|].
  destruct (f v) as [[ev1 v'] e1]. destruct (overElems f l) as [[ev2 r'] e2].
  simpl in *. by apply Forall_app.
Qed.

Lemma getFieldValue_routed rs m v :
  Forall (routed L) (getFieldValue R L rs m v).1.1.
Proof.
  induction v as [ | b | r | s | l IH | fs IH | n] using value_ind_nested;
    try (simpl; constructor).
  - cbn [getFieldValue].
    destruct (Regex.match_ 4 SOQL_REGEX s) as [matches|].
    + destruct (bool_decide _).
      * destruct (find R rs _ _ _ _ _) as [err|data]; [|destruct (head data)];
          simpl; by repeat constructor.
      * unfold fromIdentityMap. destruct (truthy _); constructor.
    + unfold fromIdentityMap. destruct (truthy _); constructor.
  - cbn [getFieldValue].
    pose proof (overElems_all (routed L) (getFieldValue R L rs m) l IH) as H.
    by destruct (overElems _ l) as [[ev l'] e].
  - cbn [getFieldValue].
    pose proof (overFields_all (routed L) (getFieldValue R L rs m) fs IH) as H.
    by destruct (overFields _ fs) as [[ev fs'] e].
Qed.

Lemma updateAll_routed rs m records :
  Forall (routed L) (updateAll R L rs m records).1.1.
Proof.
  induction records as [|r records IH]; simpl; [constructor|].
  unfold updateFieldValues.
  pose proof (overFields_all (routed L) (getFieldValue R L rs m) r) as H.
  destruct (overFields _ r) as [[ev1 r'] e1].
  destruct (updateAll R L rs m records) as [[ev2 rest'] e2]. simpl in *.
  apply Forall_app. split; [|done]. apply H.
  apply Forall_forall. intros kv _. apply getFieldValue_routed.
Qed.

Lemma finding_about e : finding e → about e = None.
Proof. by destruct e. Qed.

(** What [loadRecords] appends to the trace and leaves in the state,
    besides what [Worked] says. *)
Lemma loadRecords_more s st :
  ∃ added,
    l_log R (loadRecords R L s st).2 = l_log R st ++ added ∧
    (∀ e x, e ∈ added → about e = Some x → x = s) ∧
    (∀ e, e ∈ added → routed L e) ∧
    (∀ res, Created s res ∈ added → failing res = false →
       (loadRecords R L s st).1 = Resolved ∧
       disk (l_world R (loadRecords R L s st).2) =
         (FileSystem.writeJSONFile (idsFile L s) (map id res)
            (disk (l_world R st))).2 ∧
       ∃ keys, old2newId R (loadRecords R L s st).2 =
               merge (old2newId R st) (zipObject keys (map id res))) ∧
    ((loadRecords R L s st).1 = Resolved →
       ∃ res, Created s res ∈ added ∧ failing res = false) ∧
    ((loadRecords R L s st).1 ≠ Resolved →
       old2newId R (loadRecords R L s st).2 = old2newId R st).
Proof.
  unfold loadRecords.
  destruct (sobject2records (l_world R st) !! s) as [oldRecords|].
  2: { exists []. simpl. rewrite app_nil_r. split; [done|].
       split; [intros e x H; by apply not_elem_of_nil in H|].
       split; [intros e H; by apply not_elem_of_nil in H|].
       split; [intros res H; by apply not_elem_of_nil in H|]. done. }
  pose proof (updateAll_events R L (remote (l_world R st)) (old2newId R st)
                oldRecords) as Hev.
  pose proof (updateAll_routed (remote (l_world R st)) (old2newId R st)
                oldRecords) as Hrt.
  destruct (updateAll _ _ _ _ _) as [[lookups resolved] failure];
    simpl in Hev, Hrt.
  assert (Habout : ∀ e x, e ∈ lookups → about e = Some x → x = s).
  { intros e x He Hx. rewrite finding_about in Hx; [done|].
    revert He. by apply Forall_forall. }
  assert (Hrouted : ∀ e, e ∈ lookups → routed L e).
  { by apply Forall_forall. }
  destruct failure as [err|].
  - eexists. split; [reflexivity|simpl].
    split; [intros e x H Hx; split_mem H; [subst e; simpl in Hx; congruence | eauto]|].
    split; [intros e H; split_mem H; [by subst e | eauto]|].
    split; [intros res H; split_mem H; [done | not_lookup Hev H]|]. done.
  - destruct (create R _ _ _ _) as [[err|newRecords] remote'].
    + eexists. split; [reflexivity|simpl].
      split; [intros e x H Hx; split_mem H;
              [subst e; simpl in Hx; congruence | eauto | subst e; simpl in Hx; congruence]|].
      split; [intros e H; split_mem H; [by subst e | eauto | by subst e]|].
      split; [intros res H; split_mem H; [done | not_lookup Hev H | done]|].
      done.
    + destruct (existsb _ newRecords) eqn:Hfail.
      * eexists. split; [reflexivity|simpl].
        split; [intros e x H Hx; split_mem H;
                [subst e; simpl in Hx; congruence | eauto | subst e; simpl in Hx; congruence..]|].
        split; [intros e H; split_mem H; [by subst e | eauto | by subst e..]|].
        split; [|done]. intros res H Hres.
        split_mem H; [done | not_lookup Hev H | done |].
        injection H as ->. unfold failing in Hres. congruence.
      * eexists. split; [reflexivity|simpl].
        split; [intros e x H Hx; split_mem H;
                [subst e; simpl in Hx; congruence | eauto | subst e; simpl in Hx; congruence..]|].
        split; [intros e H; split_mem H; [by subst e | eauto | by subst e..]|].
        split; [|split; [|done]].
        -- intros res H _.
           split_mem H; [done | not_lookup Hev H | done | | done..].
           injection H as ->. split; [done|]. split; [done|]. by eexists.
        -- intros _. exists newRecords. split; [|done].
           right. apply elem_of_app. left. apply elem_of_app. right. by left.
Qed.

(** The same for [deleteRecords]. *)
Lemma deleteRecords_more s st :
  ∃ added,
    d_log R (deleteRecords R L s st).2 = d_log R st ++ added ∧
    (∀ e x, e ∈ added → about e = Some x → x = s) ∧
    (∀ ids, DeletingDone s ids ∈ added →
       FileSystem.readJSONFile (idsFile L s) (d_disk R st) = inr ids) ∧
    (DeletingSkipped s ∈ added →
       ∃ err, FileSystem.readJSONFile (idsFile L s) (d_disk R st) = inl err) ∧
    (Finished added s → (deleteRecords R L s st).1 = Resolved) ∧
    (∀ ids ress, Destroyed s ids ress ∈ added → refused ress = true →
       (deleteRecords R L s st).1 = Rejected (DeleteFailed s ress)).
Proof.
  unfold deleteRecords, Finished.
  destruct (FileSystem.readJSONFile _ _) as [err|ids] eqn:Hread.
  { eexists. split; [reflexivity|simpl].
    split; [intros e x H Hx; split_mem H; subst e; simpl in Hx; congruence|].
    split; [intros ids H; split_mem H; done|].
    split; [eauto|]. split; [done|].
    intros ids ress H. split_mem H; done. }
  destruct (find R _ _ _ _ _ _) as [err|recs].
  { eexists. split; [reflexivity|simpl].
    split; [intros e x H Hx; split_mem H; subst e; simpl in Hx; congruence|].
    split; [intros ids' H; split_mem H; done|].
    split; [intros H; split_mem H; done|].
    split; [intros [H|[ids' H]]; split_mem H; done|].
    intros ids' ress H. split_mem H; done. }
  destruct (destroy R _ _ _ _) as [[err|ress] remote'].
  { eexists. split; [reflexivity|simpl].
    split; [intros e x H Hx; split_mem H; subst e; simpl in Hx; congruence|].
    split; [intros ids' H; split_mem H; done|].
    split; [intros H; split_mem H; done|].
    split; [intros [H|[ids' H]]; split_mem H; done|].
    intros ids' ress H. split_mem H; done. }
  fold (refused ress). destruct (refused ress) eqn:Hrefused.
  - eexists. split; [reflexivity|simpl].
    split; [intros e x H Hx; split_mem H; subst e; simpl in Hx; congruence|].
    split; [intros ids' H; split_mem H; done|].
    split; [intros H; split_mem H; done|].
    split; [intros [H|[ids' H]]; split_mem H; done|].
    intros ids' ress' H _. split_mem H; [done|]. by injection H as _ ->.
  - eexists. split; [reflexivity|simpl].
    split; [intros e x H Hx; split_mem H; subst e; simpl in Hx; congruence|].
    split; [intros ids' H; split_mem H; [done..|]; by injection H as ->|].
    split; [intros H; split_mem H; done|].
    split; [done|].
    intros ids' ress' H Hr. split_mem H; [done| |done].
    injection H as _ ->. congruence.
Qed.
End WorkFacts.

(** * Properties kept along whole runs *)

Section RunsKeep.
Import Js Loader Props Trace.
Context (R : RemoteStore) (L : loader).

Lemma loadData_keeps (good : string → Prop) (P : lstate R → Prop) :
  (∀ s, s ∈ sobjects L → good s) →
  (∀ s ns n, good s → child2parentSObjects L !! s = Some ns → n ∈ ns → good n) →
  (∀ s st, good s → P st → P (l_emit R [CreatingStarted s] st)) →
  (∀ s o st, P st → P (l_memo R s o st)) →
  (∀ s st, good s → P st → P (loadRecords R L s st).2) →
  ∀ fuel w res w' log,
    P {| l_world := w; old2newId := ∅; l_cache := ∅; l_log := [] |} →
    loadData R L fuel w = Some (res, w', log) →
    ∃ st', P st' ∧ l_world R st' = w' ∧ l_log R st' = log ∧
           ∀ m, res = inr m → m = old2newId R st'.
Proof.
  intros Hgood Hnb Henter Hmemo Hwork fuel w res w' log H0. unfold loadData.
  set (st0 := {| l_world := w; old2newId := ∅; l_cache := ∅; l_log := [] |}) in *.
  destruct (forAwait _ (sobjects L) st0) as [[o st']|] eqn:Hfa; [|done].
  apply (forAwait_keeps P (λ _, True) I) in Hfa as [_ HP]; [| |done].
  - destruct o as [|e]; intros [= <- <- <-]; exists st'; repeat split; try done.
    by intros m [= <-].
  - intros x st1 o1 st2 Hx HP1 Hw. rewrite loadSObjectData_walk in Hw.
    apply (walk_keeps (l_cache R) (λ x, l_emit R [CreatingStarted x]) (l_memo R)
             (child2parentSObjects L) (loadRecords R L) good P (λ _, True))
      in Hw; try done; auto.
Qed.

Lemma deleteLoadedData_keeps (good : string → Prop) (P : dstate R → Prop)
    (Q : outcome → Prop) :
  Q Resolved →
  (∀ s, s ∈ sobjects L → good s) →
  (∀ s ns n, good s → parent2childObjects L !! s = Some ns → n ∈ ns → good n) →
  (∀ s, good s → parent2childObjects L !! s = None → Q (Rejected TypeError)) →
  (∀ st x o, P st → d_cache R st !! x = Some o → Q o) →
  (∀ s st, good s → P st → P (d_emit R [DeletingStarted s] st)) →
  (∀ s e st, good s → P st → Q (Rejected e) → P (d_memo R s (Rejected e) st)) →
  (∀ s st, good s → P st →
     Q (deleteRecords R L s st).1 ∧
     P (d_memo R s (deleteRecords R L s st).1 (deleteRecords R L s st).2)) →
  ∀ fuel w o w' log,
    P {| d_remote := remote w; d_disk := disk w; d_cache := ∅; d_log := [] |} →
    deleteLoadedData R L fuel w = Some (o, w', log) →
    Q o ∧ ∃ st', P st' ∧ d_remote R st' = remote w' ∧
                 d_disk R st' = disk w' ∧ d_log R st' = log.
Proof.
  intros HQ Hgood Hnb Hmissing Hcached Henter Hreject Hwork fuel w o w' log H0.
  unfold deleteLoadedData.
  set (st0 := {| d_remote := remote w; d_disk := disk w; d_cache := ∅;
                 d_log := [] |}) in *.
  destruct (forAwait _ (sobjects L) st0) as [[o1 st']|] eqn:Hfa; [|done].
  apply (forAwait_keeps P Q HQ) in Hfa as [HQ1 HP]; [| |done].
  - intros [= <- <- <-]. split; [done|]. by exists st'.
  - intros x st1 o2 st2 Hx HP1 Hw. rewrite deleteLoadedSObjectData_walk in Hw.
    apply (walk_keeps (d_cache R) (λ x, d_emit R [DeletingStarted x]) (d_memo R)
             (parent2childObjects L) (deleteRecords R L) good P Q)
      in Hw; try done; auto.
Qed.

(** X17.  In a run of [loadData], every lookup of an embedded query goes
    over the connection of the collection the query names after FROM:
    the tooling connection exactly when that collection is listed in
    [toolingSObjects], whichever collection is being loaded. *)
Theorem lookups_follow_their_collection (fuel : nat) (w : world R)
    res w' log t soqlFrom soqlWhere soqlSelect :
  loadData R L fuel w = Some (res, w', log) →
  Finding t soqlFrom soqlWhere soqlSelect ∈ log →
  t = bool_decide (soqlFrom ∈ toolingSObjects L).
Proof.
  intros Hrun Hin.
  apply (loadData_keeps (λ _, True) (λ st, Forall (routed L) (l_log R st)))
    in Hrun as (st' & HP & _ & <- & _); try done.
  - rewrite Forall_forall in HP. exact (HP _ Hin).
  - intros s st _ HP. simpl. apply Forall_app. split; [done|]. by repeat constructor.
  - intros s st _ HP. destruct (loadRecords_more R L s st)
      as (added & -> & _ & Hrouted & _).
    apply Forall_app. split; [done|]. by apply Forall_forall.
Qed.

(** X18.  Every value of the identity map [loadData] resolves with is an
    id that a create of the run returned, in a result without a refused
    record. *)
Theorem identity_map_holds_created_ids (fuel : nat) (w : world R) m w' log :
  loadData R L fuel w = Some (inr m, w', log) →
  ∀ k v, m !! k = Some v →
    ∃ x res, Created x res ∈ log ∧ failing res = false ∧ v ∈ map id res.
Proof.
  intros Hrun.
  apply (loadData_keeps (λ _, True)
           (λ st, ∀ k v, old2newId R st !! k = Some v →
                    ∃ x res, Created x res ∈ l_log R st ∧ failing res = false ∧
                             v ∈ map id res))
    in Hrun as (st' & HP & _ & <- & Hm); try done.
  - by rewrite (Hm m eq_refl).
  - intros s st _ HP k v Hk. destruct (HP k v Hk) as (x & res & Hin & ?).
    exists x, res. split; [|done]. apply elem_of_app. by left.
  - intros s st _ HP k v Hk.
    destruct (loadRecords_more R L s st)
      as (added & Hlog & _ & _ & Hcreated & Hresolved & Hrejected).
    assert (Hold : ∀ k v, old2newId R st !! k = Some v →
              ∃ x res, Created x res ∈ l_log R (loadRecords R L s st).2 ∧
                       failing res = false ∧ v ∈ map id res).
    { intros k' v' Hk'. destruct (HP k' v' Hk') as (x & res & Hin & ?).
      exists x, res. split; [|done]. rewrite Hlog. apply elem_of_app. by left. }
    destruct (loadRecords R L s st).1 as [|e] eqn:Ho.
    + destruct (Hresolved eq_refl) as (res & Hin & Hok).
      destruct (Hcreated res Hin Hok) as (_ & _ & keys & Heq).
      rewrite Heq in Hk. unfold merge in Hk.
      apply lookup_union_Some_raw in Hk as [Hk|[_ Hk]]; [|by apply (Hold k v)].
      apply zipObject_elem in Hk as [_ Hv].
      exists s, res. split; [|done]. rewrite Hlog. apply elem_of_app. by right.
    + rewrite Hrejected in Hk by done. by apply (Hold k v).
Qed.
End RunsKeep.

Lemma lookups_follow_their_collection_witness :
  true = bool_decide ("Account" ∈ Loader.toolingSObjects DemoQuery.contacts.1).
Proof.
  eapply (lookups_follow_their_collection DemoQuery.answering
            DemoQuery.contacts.1 2 DemoQuery.before _ _ _
            true "Account" "Name = 'Acme'" "Id").
  - vm_compute. reflexivity.
  - do 2 right. left.
Defined.

Lemma identity_map_holds_created_ids_witness :
  ∃ x res, Loader.Created x res ∈ Demo.loadedTrace ∧
           Props.failing res = false ∧ "Parent-0" ∈ map id res.
Proof.
  assert (Hrun : ∃ m w',
            Loader.loadData Demo.accepting Demo.parentChild.1 3
              (Demo.before [] ∅) = Some (inr m, w', Demo.loadedTrace) ∧
            m !! "p1" = Some "Parent-0").
  { eexists _, _. split; vm_compute; reflexivity. }
  destruct Hrun as (m & w' & Hrun & Hm).
  exact (identity_map_holds_created_ids Demo.accepting Demo.parentChild.1 3
           (Demo.before [] ∅) m w' Demo.loadedTrace Hrun "p1" "Parent-0" Hm).
Defined.

Section BuiltRuns.
Import Js Loader Props Trace.
Context (R : RemoteStore) (idsPath : string) (toolingNames : list string)
  (listing : list (string * list record)).

Local Abbreviation L := (getDataLoader idsPath toolingNames listing).1.
Local Abbreviation store := (getDataLoader idsPath toolingNames listing).2.

Lemma built_parents_in s ns n :
  s ∈ sobjects L → child2parentSObjects L !! s = Some ns → n ∈ ns →
  n ∈ sobjects L.
Proof.
  intros _ Hns Hn. assert (Hp : parentOf L n s) by (by exists ns).
  apply built_parentOf in Hp. by apply built_childOf in Hp as [_ ?].
Qed.

Lemma built_children_in s ns n :
  s ∈ sobjects L → parent2childObjects L !! s = Some ns → n ∈ ns →
  n ∈ sobjects L.
Proof.
  intros _ Hns Hn. assert (Hc : childOf L n s) by (by exists ns).
  by apply built_childOf in Hc as [? _].
Qed.

Lemma built_has_children s :
  s ∈ sobjects L → is_Some (parent2childObjects L !! s).
Proof.
  intros Hs. simpl in *.
  rewrite build_parent2childObjects_lookup, decide_True by done. eauto.
Qed.

(** X12.  A file whose name starts with two underscores is no
    collection: it has no records in the store.  And the runs only
    touch collections: every event of a run of [loadData] or of
    [deleteLoadedData] that names a collection names one of [sobjects]. *)
Theorem runs_touch_only_collections :
  (∀ name, startsWith name "__" = true →
     name ∉ sobjects L ∧ store !! name = None) ∧
  (∀ fuel (w : world R) res w' log,
     loadData R L fuel w = Some (res, w', log) →
     ∀ e x, e ∈ log → about e = Some x → x ∈ sobjects L) ∧
  (∀ fuel (w : world R) o w' log,
     deleteLoadedData R L fuel w = Some (o, w', log) →
     ∀ e x, e ∈ log → about e = Some x → x ∈ sobjects L).
Proof.
  split; [|split].
  - intros name Hname.
    assert (Hnot : name ∉ sobjects L).
    { unfold getDataLoader. cbn [fst sobjects]. rewrite map_fmap.
      intros (e & -> & He)%list_elem_of_fmap.
      apply list_elem_of_filter in He as [He _]. congruence. }
    split; [done|]. unfold getDataLoader in *. cbn [fst snd sobjects] in *.
    unfold zipObject. by rewrite zipObjectInto_other.
  - intros fuel w res w' log Hrun.
    apply (loadData_keeps R L (λ s, s ∈ sobjects L)
             (λ st, ∀ e x, e ∈ l_log R st → about e = Some x → x ∈ sobjects L))
      in Hrun as (st' & HP & _ & <- & _); try done.
    + apply built_parents_in.
    + intros s st Hs HP e x [He|He]%elem_of_app Hx; [by eapply HP|].
      apply list_elem_of_singleton in He as ->. by injection Hx as <-.
    + intros s st Hs HP e x He Hx.
      destruct (loadRecords_more R L s st) as (added & Hlog & Habout & _).
      rewrite Hlog in He. apply elem_of_app in He as [He|He]; [by eapply HP|].
      by rewrite (Habout e x He Hx).
    + intros e x He. by apply not_elem_of_nil in He.
  - intros fuel w o w' log Hrun.
    apply (deleteLoadedData_keeps R L (λ s, s ∈ sobjects L)
             (λ st, ∀ e x, e ∈ d_log R st → about e = Some x → x ∈ sobjects L)
             (λ _, True))
      in Hrun as (_ & st' & HP & _ & _ & <-); try done.
    + apply built_children_in.
    + intros s st Hs HP e x [He|He]%elem_of_app Hx; [by eapply HP|].
      apply list_elem_of_singleton in He as ->. by injection Hx as <-.
    + intros s st Hs HP. split; [done|]. intros e x He Hx.
      destruct (deleteRecords_more R L s st) as (added & Hlog & Habout & _).
      cbn [d_memo d_log] in He.
      rewrite Hlog in He. apply elem_of_app in He as [He|He]; [by eapply HP|].
      by rewrite (Habout e x He Hx).
    + intros e x He. by apply not_elem_of_nil in He.
Qed.

(** A run over a disk without a readable identifier file. *)
Lemma skipping_run (fuel : nat) (w : world R) o w' log :
  (∀ x, x ∈ sobjects L →
     ∃ err, FileSystem.readJSONFile (idsFile L x) (disk w) = inl err) →
  deleteLoadedData R L fuel w = Some (o, w', log) →
  o = Resolved ∧ w' = w ∧
  ∀ e, e ∈ log →
    ∃ x, x ∈ sobjects L ∧
         (e = DeletingStarted x ∨ e = ReadIds (idsFile L x) ∨
          e = DeletingSkipped x).
Proof.
  intros Hfiles Hrun.
  pose proof (deleteLoadedData_inv R L fuel w o w' log Hrun) as [Hstore _].
  apply (deleteLoadedData_keeps R L (λ s, s ∈ sobjects L)
           (λ st, d_remote R st = remote w ∧ d_disk R st = disk w ∧
                  (∀ x o, d_cache R st !! x = Some o → o = Resolved) ∧
                  ∀ e, e ∈ d_log R st →
                    ∃ x, x ∈ sobjects L ∧
                         (e = DeletingStarted x ∨ e = ReadIds (idsFile L x) ∨
                          e = DeletingSkipped x))
           (λ o, o = Resolved))
    in Hrun as (Ho & st' & (Hremote & Hdisk & _ & Hlog) & Hr & Hd & <-);
    try done.
  - split; [done|]. split; [|done].
    destruct w, w'. simpl in *. congruence.
  - apply built_children_in.
  - intros s Hs Hnone. destruct (built_has_children s Hs) as [? ?]. congruence.
  - intros st x o' (_ & _ & Hc & _). apply Hc.
  - intros s st Hs (Hr & Hd & Hc & Hl). repeat split; try done.
    intros e [He|He]%elem_of_app; [by apply Hl|].
    apply list_elem_of_singleton in He as ->. exists s. auto.
  - intros s st Hs (Hr & Hd & Hc & Hl). destruct (Hfiles s Hs) as [err Herr].
    rewrite <- Hd in Herr. rewrite (deleteRecords_skips R L s st err Herr).
    split; [done|]. cbn [fst snd d_memo d_emit d_remote d_disk d_cache d_log].
    split; [done|]. split; [done|]. split.
    + intros x o' Hx. destruct (decide (x = s)) as [->|Hne].
      * rewrite lookup_insert_eq in Hx. by injection Hx.
      * rewrite lookup_insert_ne in Hx by done. by eapply Hc.
    + intros e [He|He]%elem_of_app; [by apply Hl|]. exists s. split; [done|].
      split_mem He; subst e; auto.
  - repeat split; try done. intros e He. by apply not_elem_of_nil in He.
Qed.

(** X20.  When no collection has an identifier file that can be read,
    [deleteLoadedData] over an acyclic graph returns and resolves, and
    changes nothing: the world is as before, and every event of the run
    is the start of a collection, the read of its identifier file or
    its skip, so no call reaches the remote store. *)
Theorem delete_without_identifier_files (w : world R) :
  acyclic L →
  (∀ x, x ∈ sobjects L →
     ∃ err, FileSystem.readJSONFile (idsFile L x) (disk w) = inl err) →
  ∃ N, ∀ fuel, (N ≤ fuel)%nat →
    ∃ log,
      deleteLoadedData R L fuel w = Some (Resolved, w, log) ∧
      ∀ e, e ∈ log →
        ∃ x, x ∈ sobjects L ∧
             (e = DeletingStarted x ∨ e = ReadIds (idsFile L x) ∨
              e = DeletingSkipped x).
Proof.
  intros Hacyclic Hfiles.
  destruct (built_returns idsPath toolingNames listing R Hacyclic) as [N HN].
  exists N. intros fuel Hfuel.
  destruct (HN fuel Hfuel w) as [_ [[[o w'] log] Hrun]].
  destruct (skipping_run fuel w o w' log Hfiles Hrun) as (-> & -> & Hlog).
  by exists log.
Qed.
End BuiltRuns.

Lemma delete_without_identifier_files_witness :
  ∃ N, ∀ fuel, (N ≤ fuel)%nat →
    ∃ log,
      Loader.deleteLoadedData Demo.accepting Demo.parentChild.1 fuel
        (Demo.before [] ∅) = Some (Resolved, Demo.before [] ∅, log) ∧
      ∀ e, e ∈ log →
        ∃ x, x ∈ Loader.sobjects Demo.parentChild.1 ∧
             (e = Loader.DeletingStarted x ∨
              e = Loader.ReadIds (Loader.idsFile Demo.parentChild.1 x) ∨
              e = Loader.DeletingSkipped x).
Proof.
  apply (delete_without_identifier_files Demo.accepting "/ids" []
           Demo.listing (Demo.before [] ∅) Demo_acyclic).
  intros x Hx. exists (SystemError "ENOENT").
  apply list_elem_of_In in Hx. vm_compute in Hx.
  destruct Hx as [<-|[<-|[]]]; reflexivity.
Defined.

(** * A destroy that fails *)

Section DeleteMoreFacts.
Import Js Loader Props Trace.
Context (R : RemoteStore) (L : loader) (w0 : world R).

Local Abbreviation DInv :=
  (λ pending fail st, DeleteInv L w0 pending fail st ∧ DeleteMore L st).

Lemma Finished_app l1 l2 x :
  Finished (l1 ++ l2) x ↔ Finished l1 x ∨ Finished l2 x.
Proof.
  unfold Finished. rewrite elem_of_app. setoid_rewrite elem_of_app.
  naive_solver.
Qed.

Lemma DeleteMore_enter st s :
  DeleteMore L st → DeleteMore L (d_emit R [DeletingStarted s] st).
Proof.
  intros [Hrefused Hfinished]. split; cbn [d_emit d_log d_cache].
  - intros x ids ress H. old_event H. eauto.
  - intros x [H|[H|[ids H]]]%Finished_app; [by apply Hfinished|..];
      split_mem H; discriminate.
Qed.

Lemma DeleteMore_reject st s e :
  DeleteMore L st → d_cache R st !! s = None →
  DeleteMore L (d_memo R s (Rejected e) st).
Proof.
  intros [Hrefused Hfinished] Hc. split; cbn [d_memo d_log d_cache].
  - intros x ids ress H Hr. pose proof (Hrefused x ids ress H Hr) as Hx.
    rewrite lookup_insert_ne; [done | congruence].
  - intros x H. pose proof (Hfinished x H) as Hx.
    rewrite lookup_insert_ne; [done | congruence].
Qed.

Lemma DeleteMore_work st s :
  DeleteMore L st → d_cache R st !! s = None →
  DeleteMore L (d_memo R s (deleteRecords R L s st).1 (deleteRecords R L s st).2).
Proof.
  intros [Hrefused Hfinished] Hc.
  destruct (deleteRecords_more R L s st)
    as (added & Hlog & Habout & _ & _ & Hfin & Hfail).
  pose proof (deleteRecords_shape R L s st) as (Hcache & _).
  split; cbn [d_memo d_log d_cache]; rewrite Hlog, Hcache.
  - intros x ids ress [H|H]%elem_of_app Hr.
    + pose proof (Hrefused x ids ress H Hr) as Hx.
      rewrite lookup_insert_ne; [done | congruence].
    + assert (x = s) as -> by (by apply (Habout _ _ H)).
      rewrite (Hfail ids ress H Hr). by rewrite lookup_insert_eq.
  - intros x [H|H]%Finished_app.
    + pose proof (Hfinished x H) as Hx.
      rewrite lookup_insert_ne; [done | congruence].
    + assert (x = s) as ->.
      { destruct H as [H|[ids H]]; by apply (Habout _ _ H). }
      rewrite (Hfin H). by rewrite lookup_insert_eq.
Qed.

Lemma deleteLoadedSObjectData_more fuel s st o st' :
  DInv (λ _, False) None st →
  deleteLoadedSObjectData R L fuel s st = Some (o, st') →
  DInv (λ _, False) (failureOf o) st' ∧
  d_cache R st ⊆ d_cache R st' ∧ d_cache R st' !! s = Some o.
Proof.
  intros HI Hw. rewrite deleteLoadedSObjectData_walk in Hw.
  assert (Hwork : ∀ x st1, d_cache R (deleteRecords R L x st1).2 = d_cache R st1).
  { intros x st1. apply deleteRecords_shape. }
  assert (Hnone : ∀ (pending : string → Prop) fail st1 x,
            DeleteInv L w0 (λ y, pending y ∨ y = x) fail st1 →
            d_cache R st1 !! x = None).
  { intros pending fail st1 x H.
    destruct (di_pending _ _ _ _ _ H x); [by right | done]. }
  refine (walk_inv (d_cache R) (λ x, d_emit R [DeletingStarted x]) (d_memo R)
            (parent2childObjects L) (deleteRecords R L) DInv
            (λ _ _, eq_refl) (λ _ _ _, eq_refl) Hwork _ _ _ _ _
            fuel s st o st' (λ _, False) _ HI Hw).
  - intros pending fail st1 x [H _] Hx. by destruct (di_pending _ _ _ _ _ H x Hx).
  - intros pending st1 x o1 [H _] Hx.
    by destruct (di_outcomes _ _ _ _ _ H x o1 Hx) as [?|(? & ? & ?)].
  - intros pending st1 x [H1 H2] Hc Hnp. split.
    + by apply DeleteInv_enter.
    + by apply DeleteMore_enter.
  - intros pending fail st1 x e [H1 H2] Hnp Hfail. split.
    + by apply (DeleteInv_reject R L w0 pending fail).
    + apply DeleteMore_reject; [done|]. by eapply Hnone.
  - intros pending st1 x [H1 H2] Hnp Hns. split.
    + by apply DeleteInv_work.
    + apply DeleteMore_work; [done|]. by eapply Hnone.
  - intros x [].
Qed.
End DeleteMoreFacts.

Section DeleteFailure.
Import Js Loader Props Trace.
Context (R : RemoteStore) (L : loader).

Lemma deleteLoadedData_more fuel w o w' log :
  deleteLoadedData R L fuel w = Some (o, w', log) →
  ∃ st', DeleteInv L w (λ _, False) (failureOf o) st' ∧ DeleteMore L st' ∧
         d_log R st' = log.
Proof.
  unfold deleteLoadedData.
  set (st0 := {| d_remote := remote w; d_disk := disk w; d_cache := ∅;
                 d_log := [] |}).
  assert (H0 : DeleteInv L w (λ _, False) None st0 ∧ DeleteMore L st0).
  { split; split; simpl; try done.
    - constructor.
    - intros x H. by apply not_elem_of_nil in H.
    - intros x [? H]. by rewrite lookup_empty in H.
    - intros l1 C ids ress l2 H. by destruct l1.
    - intros x ids ress H. by apply not_elem_of_nil in H.
    - intros x [H|[ids H]]; by apply not_elem_of_nil in H. }
  destruct (forAwait _ (sobjects L) st0) as [[o1 st']|] eqn:Hfa; [|done].
  intros [= <- <- <-]. exists st'.
  apply (forAwait_inv (d_cache R)
           (λ fail st, DeleteInv L w (λ _, False) fail st ∧ DeleteMore L st)
           _ (sobjects L) st0)
    with (done := []) in Hfa as ([HI HM] & _ & _); try done.
  - intros done x rest st1 o2 st2 _ HI1 _ _ Hx.
    by apply (deleteLoadedSObjectData_more R L w fuel x).
  - intros z Hz. by apply not_elem_of_nil in Hz.
Qed.

(** X21.  When the destroy of a collection [C] reports a record that was
    not deleted, [deleteLoadedData] rejects with the error that carries
    the results of [C]; the delete of [C] is not reported done, and no
    records of a parent of [C] are destroyed. *)
Theorem destroy_failure_spares_the_parents (fuel : nat) (w : world R)
    o w' log C ids ress :
  deleteLoadedData R L fuel w = Some (o, w', log) →
  Destroyed C ids ress ∈ log → refused ress = true →
  o = Rejected (DeleteFailed C ress) ∧
  ¬ Finished log C ∧
  ∀ P, childOf L C P → ∀ ids' ress', Destroyed P ids' ress' ∉ log.
Proof.
  intros Hrun Hin Hrefused.
  apply deleteLoadedData_more in Hrun as (st' & HI & HM & <-).
  pose proof (dm_refused _ _ HM C ids ress Hin Hrefused) as Hc.
  assert (Hnot : ¬ Finished (d_log R st') C).
  { intros H. pose proof (dm_finished _ _ HM C H). congruence. }
  split; [|split; [done|]].
  - destruct (di_outcomes _ _ _ _ _ HI C _ Hc) as [?|(e & He & [= <-])]; [done|].
    destruct o; simpl in He; congruence.
  - intros P HP ids' ress' H.
    apply list_elem_of_split in H as (l1 & l2 & Heq).
    apply Hnot. eapply Finished_mono.
    + by apply (di_destroyed _ _ _ _ _ HI l1 P ids' ress' l2 Heq C).
    + intros e He. rewrite Heq. apply elem_of_app. by left.
Qed.
End DeleteFailure.

Lemma destroy_failure_spares_the_parents_witness :
  ∃ w' log ress,
    Loader.deleteLoadedData DemoRefusing.store Demo.parentChild.1 3
      DemoRefusing.loaded =
      Some (Rejected (DeleteFailed "Child" ress), w', log) ∧
    ∀ ids' ress', Loader.Destroyed "Parent" ids' ress' ∉ log.
Proof.
  destruct (Loader.deleteLoadedData DemoRefusing.store Demo.parentChild.1 3
              DemoRefusing.loaded) as [[[o w'] log]|] eqn:Hrun;
    [|vm_compute in Hrun; discriminate].
  destruct (destroy_failure_spares_the_parents DemoRefusing.store
              Demo.parentChild.1 3 DemoRefusing.loaded o w' log "Child"
              ["Child-1"]
              [[("id", Js.VStr "Child-1"); ("success", Js.VBool false)]] Hrun)
    as (-> & _ & Hparents).
  - vm_compute in Hrun. injection Hrun as _ _ <-. repeat constructor.
  - reflexivity.
  - exists w', log, [[("id", Js.VStr "Child-1"); ("success", Js.VBool false)]].
    split; [done|]. apply Hparents.
    eexists. split; [vm_compute; reflexivity|]. by left.
Defined.

(** * From the load to the delete *)

Section LoadMoreFacts.
Import Js Loader Props Trace.
Context (R : RemoteStore) (L : loader) (w0 : world R).

Local Abbreviation LInv :=
  (λ pending fail st, LoadInv L w0 pending fail st ∧ LoadMore L w0 st).

Lemma writeJSONFile_same p ids (d d' : gmap string FileSystem.node) :
  d !! p = d' !! p →
  (FileSystem.writeJSONFile p ids d).2 !! p =
  (FileSystem.writeJSONFile p ids d').2 !! p.
Proof.
  intros H. unfold FileSystem.writeJSONFile, FileSystem.writeFile.
  rewrite <- H. destruct (d !! p) as [[]|] eqn:Hp; simpl;
    by rewrite ?lookup_insert_eq, <- ?H.
Qed.

Lemma LoadMore_enter st s :
  LoadMore L w0 st → LoadMore L w0 (l_emit R [CreatingStarted s] st).
Proof.
  intros [Hcreated Hfile]. split; cbn [l_emit l_log l_cache l_world].
  - intros x res H. old_event H. eauto.
  - intros x res H. old_event H. eauto.
Qed.

Lemma LoadMore_reject st s e :
  LoadMore L w0 st → l_cache R st !! s = None →
  LoadMore L w0 (l_memo R s (Rejected e) st).
Proof.
  intros [Hcreated Hfile] Hc. split; cbn [l_memo l_log l_cache l_world].
  - intros x res H. destruct (Hcreated x res H) as [o Hx].
    rewrite lookup_insert_ne; [eauto | congruence].
  - intros x res H Hx. destruct (Hcreated x res H) as [o Ho].
    rewrite lookup_insert_ne in Hx by congruence. eauto.
Qed.

Lemma LoadMore_work pending st s :
  LoadInv L w0 (λ x, pending x ∨ x = s) None st → LoadMore L w0 st →
  LoadMore L w0
    (l_memo R s (loadRecords R L s st).1 (loadRecords R L s st).2).
Proof.
  intros HI [Hcreated Hfile].
  destruct (li_pending _ _ _ _ _ HI s) as [Hc _]; [by right|].
  destruct (loadRecords_more R L s st)
    as (added & Hlog & Habout & _ & Hnew & _ & _).
  destruct (loadRecords_worked R L s st) as [added' W].
  assert (added' = added) as ->.
  { pose proof (wk_log _ _ _ _ _ _ W) as Hlog'. rewrite Hlog in Hlog'.
    by apply app_inv_head in Hlog'. }
  split; cbn [l_memo l_log l_cache l_world];
    rewrite Hlog, (wk_cache _ _ _ _ _ _ W).
  - intros x res [H|H]%elem_of_app.
    + destruct (Hcreated x res H) as [o Hx].
      rewrite lookup_insert_ne; [eauto | congruence].
    + assert (x = s) as -> by (by apply (Habout _ _ H)).
      rewrite lookup_insert_eq. eauto.
  - intros x res [H|H]%elem_of_app Hx.
    + destruct (Hcreated x res H) as [o Ho].
      assert (x ≠ s) by congruence.
      rewrite lookup_insert_ne in Hx by done.
      rewrite (wk_disk _ _ _ _ _ _ W)
        by (intros Heq; by apply idsFile_inj in Heq).
      eauto.
    + assert (x = s) as -> by (by apply (Habout _ _ H)).
      rewrite lookup_insert_eq in Hx. injection Hx as Ho.
      destruct (failing res) eqn:Hres.
      { destruct (wk_created _ _ _ _ _ _ W s res H) as [_ Hrej].
        rewrite Hrej in Ho by done. discriminate. }
      destruct (Hnew res H Hres) as (_ & -> & _).
      apply writeJSONFile_same, (li_disk _ _ _ _ _ HI). congruence.
Qed.

Lemma loadSObjectData_more fuel s st o st' :
  LInv (λ _, False) None st →
  loadSObjectData R L fuel s st = Some (o, st') →
  LInv (λ _, False) (failureOf o) st' ∧
  l_cache R st ⊆ l_cache R st' ∧ l_cache R st' !! s = Some o.
Proof.
  intros HI Hw. rewrite loadSObjectData_walk in Hw.
  assert (Hwork : ∀ x st1, l_cache R (loadRecords R L x st1).2 = l_cache R st1).
  { intros x st1. destruct (loadRecords_worked R L x st1) as [added W].
    apply W. }
  assert (Hnone : ∀ (pending : string → Prop) fail st1 x,
            LoadInv L w0 (λ y, pending y ∨ y = x) fail st1 →
            l_cache R st1 !! x = None).
  { intros pending fail st1 x H.
    destruct (li_pending _ _ _ _ _ H x); [by right | done]. }
  refine (walk_inv (l_cache R) (λ x, l_emit R [CreatingStarted x]) (l_memo R)
            (child2parentSObjects L) (loadRecords R L) LInv
            (λ _ _, eq_refl) (λ _ _ _, eq_refl) Hwork _ _ _ _ _
            fuel s st o st' (λ _, False) _ HI Hw).
  - intros pending fail st1 x [H _] Hx. by destruct (li_pending _ _ _ _ _ H x Hx).
  - intros pending st1 x o1 [H _] Hx.
    by destruct (li_outcomes _ _ _ _ _ H x o1 Hx) as [?|(? & ? & ?)].
  - intros pending st1 x [H1 H2] Hc Hnp. split.
    + by apply LoadInv_enter.
    + by apply LoadMore_enter.
  - intros pending fail st1 x e [H1 H2] Hnp Hfail. split.
    + by apply (LoadInv_reject R L w0 pending fail).
    + apply LoadMore_reject; [done|]. by eapply Hnone.
  - intros pending st1 x [H1 H2] Hnp Hns. split.
    + by apply LoadInv_work.
    + by apply (LoadMore_work pending).
  - intros x [].
Qed.
End LoadMoreFacts.

Section RoundTrip.
Import Js Loader Props Trace.
Context (R : RemoteStore) (L : loader).

Lemma loadData_more fuel w res w' log :
  loadData R L fuel w = Some (res, w', log) →
  ∃ st', LoadInv L w (λ _, False) (failureOfResult res) st' ∧
         LoadMore L w st' ∧ l_world R st' = w' ∧ l_log R st' = log ∧
         (∀ m, res = inr m →
               ∀ s, s ∈ sobjects L → l_cache R st' !! s = Some Resolved).
Proof.
  unfold loadData.
  set (st0 := {| l_world := w; old2newId := ∅; l_cache := ∅; l_log := [] |}).
  assert (H0 : LoadInv L w (λ _, False) None st0 ∧ LoadMore L w st0).
  { split; split; simpl; try done.
    - constructor.
    - intros x H. by apply not_elem_of_nil in H.
    - intros x [? H]. by rewrite lookup_empty in H.
    - intros x recs H. by apply not_elem_of_nil in H.
    - intros x p m H. by apply not_elem_of_nil in H.
    - intros f ids H. by apply not_elem_of_nil in H.
    - intros x res0 H. by apply not_elem_of_nil in H.
    - intros l1 C m l2 H. by destruct l1.
    - intros x res0 H. by apply not_elem_of_nil in H. }
  destruct (forAwait _ (sobjects L) st0) as [[o st']|] eqn:Hfa; [|done].
  apply (forAwait_inv (l_cache R)
           (λ fail st, LoadInv L w (λ _, False) fail st ∧ LoadMore L w st)
           _ (sobjects L) st0)
    with (done := []) in Hfa as ([HI HM] & _ & Hall); try done.
  - destruct o as [|e]; intros [= <- <- <-]; exists st'.
    + split; [done|]. split; [done|]. split; [done|]. split; [done|].
      intros m _ s Hs. by apply Hall.
    + split; [done|]. split; [done|]. split; [done|]. split; [done|]. done.
  - intros done x rest st1 o1 st2 _ HI1 _ _ Hx.
    by apply (loadSObjectData_more R L w fuel x).
  - intros z Hz. by apply not_elem_of_nil in Hz.
Qed.

(** X19.  A [deleteLoadedData] after a [loadData] asks for what the
    load created.  When the load resolved from a disk that had no
    identifier file for a collection, and the delete runs on a disk
    where that file is as the load left it, or is not there yet, then a
    delete of the collection that is reported done has read the ids
    that the create of the collection returned, in order, none of them
    refused. *)
Theorem delete_reads_what_load_created (fuel fuel' : nat) (w : world R)
    m w1 log (wd : world R) o w2 dlog x :
  disk w !! idsFile L x = None →
  loadData R L fuel w = Some (inr m, w1, log) →
  (disk wd !! idsFile L x = disk w1 !! idsFile L x ∨
   disk wd !! idsFile L x = None) →
  deleteLoadedData R L fuel' wd = Some (o, w2, dlog) →
  x ∈ sobjects L →
  ∀ ids, DeletingDone x ids ∈ dlog →
    ∃ res, Created x res ∈ log ∧ failing res = false ∧ ids = map id res.
Proof.
  intros Hfresh Hload Hlanded Hdelete Hx.
  apply loadData_more in Hload as (st1 & HI & HM & <- & <- & Hall).
  pose proof (Hall m eq_refl x Hx) as Hc.
  destruct (li_loaded _ _ _ _ _ HI x Hc x) as (res & _ & _ & Hcreated & _);
    [by left|].
  pose proof (lm_file _ _ _ HM x res Hcreated Hc) as Hfile.
  unfold FileSystem.writeJSONFile, FileSystem.writeFile in Hfile.
  rewrite Hfresh in Hfile. simpl in Hfile. rewrite lookup_insert_eq in Hfile.
  assert (Hok : failing res = false).
  { destruct (failing res) eqn:Hf; [|done].
    pose proof (li_failed _ _ _ _ _ HI x res Hcreated Hf) as Hrej. congruence. }
  apply (deleteLoadedData_keeps R L (λ _, True)
           (λ st, d_disk R st = disk wd ∧
                  ∀ y ids, DeletingDone y ids ∈ d_log R st →
                    FileSystem.readJSONFile (idsFile L y) (disk wd) = inr ids)
           (λ _, True))
    in Hdelete as (_ & st2 & (_ & Hdone) & _ & _ & <-); try done.
  - intros ids Hin. exists res. split; [done|]. split; [done|].
    apply Hdone in Hin. unfold FileSystem.readJSONFile in Hin.
    destruct Hlanded as [Hl|Hl]; rewrite Hl in Hin; [|done].
    rewrite Hfile in Hin. by injection Hin as <-.
  - intros s st _ (Hd & H1). split; [done|].
    intros y ids H. old_event H. eauto.
  - intros s st _ (Hd & H1). split; [done|].
    destruct (deleteRecords_more R L s st)
      as (added & Hlog & Habout & Hdone & _).
    pose proof (deleteRecords_shape R L s st) as (_ & Hdisk & _).
    cbn [d_memo d_disk d_log]. rewrite Hlog, Hdisk. split; [done|].
    intros y ids [H|H]%elem_of_app; [eauto|].
    assert (y = s) as -> by (by apply (Habout _ _ H)).
    rewrite <- Hd. by apply Hdone.
  - split; [done|]. intros y ids H. by apply not_elem_of_nil in H.
Qed.
End RoundTrip.

Lemma delete_reads_what_load_created_witness :
  ∃ res, Loader.Created "Parent" res ∈ Demo.loadedTrace ∧
         Props.failing res = false ∧ ["Parent-0"] = map id res.
Proof.
  assert (Hload : ∃ m,
            Loader.loadData Demo.accepting Demo.parentChild.1 3
              (Demo.before [] ∅) = Some (inr m, Demo.loaded, Demo.loadedTrace)).
  { eexists. vm_compute. reflexivity. }
  destruct Hload as [m Hload].
  destruct (Loader.deleteLoadedData Demo.accepting Demo.parentChild.1 3
              Demo.loaded) as [[[o w2] dlog]|] eqn:Hdelete;
    [|vm_compute in Hdelete; discriminate].
  assert (Hfresh : Loader.disk (Demo.before [] ∅)
                     !! Loader.idsFile Demo.parentChild.1 "Parent" = None).
  { vm_compute. reflexivity. }
  apply (delete_reads_what_load_created Demo.accepting Demo.parentChild.1
           3 3 (Demo.before [] ∅) m Demo.loaded Demo.loadedTrace Demo.loaded
           o w2 dlog "Parent" Hfresh Hload (or_introl eq_refl) Hdelete).
  - vm_compute. apply list_elem_of_In. simpl. tauto.
  - vm_compute in Hdelete. injection Hdelete as _ _ <-.
    repeat constructor.
Defined.

(** * A record without an id *)

Section MissingId.
Import Js Loader Props.
Context (R : RemoteStore) (L : loader).

Lemma overFields_get_None (f : value → resolution value) r k :
  get r k = None → get (overFields f r).1.2 k = None.
Proof.
  induction r as [|[k' v] r IH]; [done|]. simpl.
  destruct (f v) as [[ev1 v'] e1]. destruct (overFields f r) as [[ev2 r'] e2].
  simpl in *. destruct (decide (k' = k)); [done | auto].
Qed.

(** X22.  The old id of a record is read after the resolution and made
    a key by [String]: for a record without an [id] field the key is the
    text [undefined].  When the only record of a collection has no id
    and its create succeeds, the load resolves and the identity map
    sends [undefined] to the new id, so that a later field holding the
    text [undefined] is replaced by that id. *)
Theorem record_without_id_is_keyed_undefined (s : string) (st : lstate R)
    (r : record) (res : CreateResult) :
  sobject2records (l_world R st) !! s = Some [r] →
  get r "id" = None →
  (updateAll R L (remote (l_world R st)) (old2newId R st) [r]).2 = None →
  (∀ records, length records = 1%nat →
     (create R (remote (l_world R st)) (tooling L s) s records).1 = inr [res]) →
  success res = true → id res ≠ "" →
  (loadRecords R L s st).1 = Resolved ∧
  old2newId R (loadRecords R L s st).2 !! "undefined" = Some (id res) ∧
  ∀ rs, getFieldValue R L rs (old2newId R (loadRecords R L s st).2)
          (VStr "undefined") = ([], VStr (id res), None).
Proof.
  intros Hstore Hid Hok Hcreate Hsuccess Hne.
  assert (Hrun : (loadRecords R L s st).1 = Resolved ∧
                 old2newId R (loadRecords R L s st).2 !! "undefined"
                   = Some (id res)).
  { unfold loadRecords. rewrite Hstore.
    pose proof (overFields_get_None
                  (getFieldValue R L (remote (l_world R st)) (old2newId R st))
                  r "id" Hid) as Hid'.
    simpl in Hok |- *. unfold updateFieldValues in *.
    destruct (overFields _ r) as [[ev1 r'] e1]. simpl in *.
    destruct e1 as [e|]; [done|]. simpl.
    pose proof (Hcreate [delete_key "id" r'] eq_refl) as Hc.
    destruct (create R _ _ _ _) as [[err|newRecords] remote']; [done|].
    simpl in Hc. injection Hc as ->. simpl. rewrite Hsuccess. simpl.
    split; [done|]. rewrite Hid'. unfold merge, zipObject. simpl.
    apply lookup_union_Some_l. by rewrite lookup_insert_eq. }
  destruct Hrun as [Ho Hm]. split; [done|]. split; [done|]. intros rs.
  rewrite getFieldValue_plain.
  - unfold fromIdentityMap, read. rewrite Hm. simpl.
    by destruct (id res).
  - unfold isQuery. vm_compute. intros [? ?]. discriminate.
Qed.
End MissingId.

Lemma record_without_id_is_keyed_undefined_witness :
  Loader.old2newId Demo.accepting
    (Loader.loadRecords Demo.accepting Demo.parentChild.1 "Solo"
       {| Loader.l_world :=
            Loader.Build_world (R := Demo.accepting) [] ∅
              {[ "Solo" := [[("name", Js.VStr "Acme")]] ]};
          Loader.old2newId := ∅; Loader.l_cache := ∅; Loader.l_log := [] |}).2
    !! "undefined" = Some "Solo-0".
Proof.
  apply (record_without_id_is_keyed_undefined Demo.accepting
           Demo.parentChild.1 "Solo" _ [("name", Js.VStr "Acme")]
           {| success := true; id := "Solo-0" |}).
  - reflexivity.
  - reflexivity.
  - reflexivity.
  - intros [|r [|r' records]] Hlen; try discriminate. reflexivity.
  - reflexivity.
  - discriminate.
Defined.

(** * The files a load leaves *)

Section LoadFiles.
Import Js Loader Props Trace.
Context (R : RemoteStore) (L : loader).

(** X23.  [loadData] changes no file but identifier files: a path that
    does not hold at the end what it held at the start is the
    identifier file of a collection, and holds the ids that a create of
    that collection returned without a refused record. *)
Theorem loadData_changes_only_identifier_files (fuel : nat) (w : world R)
    res w' log f :
  loadData R L fuel w = Some (res, w', log) →
  disk w' !! f = disk w !! f ∨
  ∃ x created,
    f = idsFile L x ∧ Created x created ∈ log ∧ failing created = false ∧
    disk w' !! f = Some (FileSystem.Json (map id created)).
Proof.
  intros Hrun.
  apply (loadData_keeps R L (λ _, True)
           (λ st, ∀ f,
              disk (l_world R st) !! f = disk w !! f ∨
              ∃ x created,
                f = idsFile L x ∧ Created x created ∈ l_log R st ∧
                failing created = false ∧
                disk (l_world R st) !! f =
                  Some (FileSystem.Json (map id created))))
    in Hrun as (st' & HP & <- & <- & _); try done.
  - intros s st _ HP f'. destruct (HP f') as [?|(x & c & ? & Hin & ?)];
      [by left|]. right. exists x, c. split; [done|].
    split; [|done]. apply elem_of_app. by left.
  - intros s st _ HP f'.
    destruct (loadRecords_more R L s st)
      as (added & Hlog & _ & _ & Hnew & Hresolved & _).
    destruct (loadRecords_worked R L s st) as [added' W].
    assert (Hold : ∀ d : gmap string FileSystem.node,
              d !! f' = disk (l_world R st) !! f' →
              d !! f' = disk w !! f' ∨
              ∃ x created,
                f' = idsFile L x ∧
                Created x created ∈ l_log R (loadRecords R L s st).2 ∧
                failing created = false ∧
                d !! f' = Some (FileSystem.Json (map id created))).
    { intros d Hd. rewrite Hd.
      destruct (HP f') as [?|(x & c & ? & Hin & ?)]; [by left|].
      right. exists x, c. split; [done|]. split; [|done].
      rewrite Hlog. apply elem_of_app. by left. }
    destruct (loadRecords R L s st).1 as [|e] eqn:Ho.
    + destruct (Hresolved eq_refl) as (c & Hin & Hok).
      destruct (Hnew c Hin Hok) as (_ & Hdisk & _). rewrite Hdisk.
      destruct (decide (f' = idsFile L s)) as [->|Hne].
      * unfold FileSystem.writeJSONFile, FileSystem.writeFile.
        destruct (disk (l_world R st) !! idsFile L s) as [[]|] eqn:Hd; simpl;
          try (by apply Hold);
          right; exists s, c; rewrite lookup_insert_eq;
          (split; [done|]); (split; [|done]);
          rewrite Hlog; apply elem_of_app; by right.
      * apply Hold. by apply writeJSONFile_other.
    + apply Hold. rewrite (wk_disk_rejected _ _ _ _ _ _ W); [done | congruence].
  - intros f'. by left.
Qed.
End LoadFiles.

Lemma loadData_changes_only_identifier_files_witness :
  Loader.disk Demo.loaded !! "/ids/Parent.json" =
    Loader.disk (Demo.before [] ∅) !! "/ids/Parent.json" ∨
  ∃ x created,
    "/ids/Parent.json" = Loader.idsFile Demo.parentChild.1 x ∧
    Loader.Created x created ∈ Demo.loadedTrace ∧
    Props.failing created = false ∧
    Loader.disk Demo.loaded !! "/ids/Parent.json" =
      Some (FileSystem.Json (map id created)).
Proof.
  assert (Hrun : ∃ res,
            Loader.loadData Demo.accepting Demo.parentChild.1 3
              (Demo.before [] ∅) = Some (res, Demo.loaded, Demo.loadedTrace)).
  { eexists. vm_compute. reflexivity. }
  destruct Hrun as [res Hrun].
  exact (loadData_changes_only_identifier_files Demo.accepting
           Demo.parentChild.1 3 (Demo.before [] ∅) res Demo.loaded
           Demo.loadedTrace "/ids/Parent.json" Hrun).
Defined.

(** * What is sent to create *)

Section ExchangeFacts.
Import Js Regex Loader Props Leaves Payload.
Context (R : RemoteStore) (L : loader) (rs : rstate R) (m : gmap string string).

Local Abbreviation resolve := (getFieldValue R L rs m).

Lemma overFields_exchange fs :
  Forall (λ kv : string * value, resolve kv.2 = ([], exchange m kv.2, None)) fs →
  overFields resolve fs = ([], exchangeRecord m fs, None).
Proof.
  induction 1 as [|[k v] fs Hv _ IH]; [done|]. simpl in *. by rewrite Hv, IH.
Qed.

Lemma overElems_exchange l :
  Forall (λ v, resolve v = ([], exchange m v, None)) l →
  overElems resolve l = ([], map (exchange m) l, None).
Proof.
  induction 1 as [|v l Hv _ IH]; [done|]. simpl in *. by rewrite Hv, IH.
Qed.

Lemma getFieldValue_exchange v :
  Forall (λ s, ¬ isQuery s) (texts v) → resolve v = ([], exchange m v, None).
Proof.
  induction v as [ | b | r | s | l IH | fs IH | n] using value_ind_nested;
    try done.
  - intros [Hq _]%Forall_cons. rewrite getFieldValue_plain by done.
    unfold fromIdentityMap. simpl. by destruct (truthy _).
  - intros Hl. cbn [getFieldValue texts exchange] in *.
    rewrite overElems_exchange; [done|].
    induction IH as [|x l Hx _ IHl]; [constructor|].
    simpl in Hl. apply Forall_app in Hl as [H1 H2]. constructor; auto.
  - intros Hl. cbn [getFieldValue texts exchange] in *.
    rewrite overFields_exchange; [done|].
    induction IH as [|x l Hx _ IHl]; [constructor|].
    simpl in Hl. apply Forall_app in Hl as [H1 H2]. constructor; auto.
Qed.

Lemma updateAll_exchange records :
  queryFree records →
  updateAll R L rs m records = ([], map (exchangeRecord m) records, None).
Proof.
  unfold queryFree. induction records as [|r records IH]; [done|]. simpl.
  intros [Hr Hrest]%Forall_app. rewrite IH by done.
  unfold updateFieldValues.
  pose proof (getFieldValue_exchange (VObj r) Hr) as H.
  cbn [getFieldValue exchange] in H. destruct (overFields _ r) as [[ev fs'] e].
  by injection H as -> -> ->.
Qed.
End ExchangeFacts.

Section PayloadFacts.
Import Js Loader Props Trace Leaves Payload.
Context (R : RemoteStore) (L : loader) (w0 : world R).

(** What [loadRecords] announces before the create. *)
Lemma loadRecords_payload s st :
  match sobject2records (l_world R st) !! s with
  | None => loadRecords R L s st = (Rejected TypeError, st)
  | Some records =>
      ∃ tail,
        l_log R (loadRecords R L s st).2 =
          l_log R st ++ Resolving s (old2newId R st) :: tail ∧
        ∀ x recs, BeforeCreating x recs ∈ tail →
          recs = map (delete_key "id")
                   (updateAll R L (remote (l_world R st)) (old2newId R st)
                      records).1.2
  end.
Proof.
  unfold loadRecords.
  destruct (sobject2records (l_world R st) !! s) as [records|]; [|done].
  pose proof (updateAll_events R L (remote (l_world R st)) (old2newId R st)
                records) as Hev.
  destruct (updateAll _ _ _ _ _) as [[lookups resolved] failure];
    simpl in Hev |- *.
  destruct failure as [err|].
  { eexists. split; [reflexivity|]. intros x recs H. not_lookup Hev H. }
  destruct (create R _ _ _ _) as [[err|newRecords] remote'].
  { eexists. simpl. split; [reflexivity|]. intros x recs H.
    split_mem H; [not_lookup Hev H|]. by injection H as _ <-. }
  destruct (existsb _ newRecords).
  - eexists. simpl. split; [reflexivity|]. intros x recs H.
    split_mem H; [not_lookup Hev H| |done]. by injection H as _ <-.
  - eexists. simpl. split; [reflexivity|]. intros x recs H.
    split_mem H; [not_lookup Hev H| |done..]. by injection H as _ <-.
Qed.

Local Abbreviation PInv :=
  (λ pending fail st, LoadInv L w0 pending fail st ∧ LoadPayload L w0 st).

Lemma LoadPayload_enter st s :
  LoadPayload L w0 st → LoadPayload L w0 (l_emit R [CreatingStarted s] st).
Proof.
  intros [Hresolving Hunique Huntouched Hpayload].
  split; cbn [l_emit l_log l_cache l_world].
  - intros x m H. old_event H. eauto.
  - intros x m m' H H'. old_event H. old_event H'. eauto.
  - intros x Hx. apply Huntouched. intros m H. apply (Hx m), elem_of_app.
    by left.
  - intros x recs H. old_event H.
    destruct (Hpayload x recs H) as (m & records & Hin & ?).
    exists m, records. split; [|done]. apply elem_of_app. by left.
Qed.

Lemma LoadPayload_reject st s e :
  LoadPayload L w0 st → l_cache R st !! s = None →
  LoadPayload L w0 (l_memo R s (Rejected e) st).
Proof.
  intros [Hresolving Hunique Huntouched Hpayload] Hc.
  split; cbn [l_memo l_log l_cache l_world]; try done.
  intros x m H. destruct (Hresolving x m H) as [o Hx].
  rewrite lookup_insert_ne; [eauto | congruence].
Qed.

Lemma LoadPayload_work st s :
  LoadPayload L w0 st → l_cache R st !! s = None →
  LoadPayload L w0
    (l_memo R s (loadRecords R L s st).1 (loadRecords R L s st).2).
Proof.
  intros [Hresolving Hunique Huntouched Hpayload] Hc.
  assert (Hfresh : ∀ m, Resolving s m ∉ l_log R st).
  { intros m H. destruct (Hresolving s m H) as [o Ho]. congruence. }
  pose proof (loadRecords_payload s st) as Hspec.
  destruct (loadRecords_worked R L s st) as [added W].
  destruct (sobject2records (l_world R st) !! s) as [records|] eqn:Hstore.
  2: { rewrite Hspec. split; cbn [l_memo l_log l_cache l_world fst snd];
         try done.
       intros x m H. destruct (Hresolving x m H) as [o Hx].
       rewrite lookup_insert_ne; [eauto | congruence]. }
  destruct Hspec as (tail & Hlog & Hbefore).
  assert (Hadded : added = Resolving s (old2newId R st) :: tail).
  { pose proof (wk_log _ _ _ _ _ _ W) as Hlog'. rewrite Hlog in Hlog'.
    by apply app_inv_head in Hlog'. }
  assert (Hnew : ∀ x m, Resolving x m ∈ added → x = s ∧ m = old2newId R st).
  { intros x m H. apply list_elem_of_split in H as (l1 & l2 & Heq).
    by destruct (wk_resolving _ _ _ _ _ _ W l1 x m l2 Heq) as (_ & ? & ?). }
  split; cbn [l_memo l_log l_cache l_world];
    rewrite ?(wk_log _ _ _ _ _ _ W), ?(wk_cache _ _ _ _ _ _ W).
  - intros x m [H|H]%elem_of_app.
    + destruct (Hresolving x m H) as [o Hx].
      rewrite lookup_insert_ne; [eauto | congruence].
    + destruct (Hnew x m H) as [-> _]. rewrite lookup_insert_eq. eauto.
  - intros x m m' [H|H]%elem_of_app [H'|H']%elem_of_app.
    + eauto.
    + destruct (Hnew x m' H') as [-> _]. by destruct (Hfresh m).
    + destruct (Hnew x m H) as [-> _]. by destruct (Hfresh m').
    + destruct (Hnew x m H) as [_ ->]. by destruct (Hnew x m' H') as [_ ->].
  - intros x Hx. assert (x ≠ s).
    { intros ->. apply (Hx (old2newId R st)), elem_of_app. right.
      rewrite Hadded. by left. }
    rewrite (wk_store _ _ _ _ _ _ W) by done. apply Huntouched.
    intros m H'. apply (Hx m), elem_of_app. by left.
  - intros x recs [H|H]%elem_of_app.
    + destruct (Hpayload x recs H) as (m & recs0 & Hin & ?).
      exists m, recs0. split; [|done]. apply elem_of_app. by left.
    + destruct (wk_before _ _ _ _ _ _ W x recs H) as [-> _].
      exists (old2newId R st), records.
      split; [apply elem_of_app; right; rewrite Hadded; by left|].
      split; [by rewrite <- (Huntouched s Hfresh)|].
      intros Hfree. rewrite Hadded in H.
      apply elem_of_cons in H as [H|H]; [done|].
      rewrite (Hbefore s recs H), updateAll_exchange by done.
      simpl. by rewrite map_map.
Qed.

Lemma loadSObjectData_payload fuel s st o st' :
  PInv (λ _, False) None st →
  loadSObjectData R L fuel s st = Some (o, st') →
  PInv (λ _, False) (failureOf o) st' ∧
  l_cache R st ⊆ l_cache R st' ∧ l_cache R st' !! s = Some o.
Proof.
  intros HI Hw. rewrite loadSObjectData_walk in Hw.
  assert (Hwork : ∀ x st1, l_cache R (loadRecords R L x st1).2 = l_cache R st1).
  { intros x st1. destruct (loadRecords_worked R L x st1) as [added W].
    apply W. }
  assert (Hnone : ∀ (pending : string → Prop) fail st1 x,
            LoadInv L w0 (λ y, pending y ∨ y = x) fail st1 →
            l_cache R st1 !! x = None).
  { intros pending fail st1 x H.
    destruct (li_pending _ _ _ _ _ H x); [by right | done]. }
  refine (walk_inv (l_cache R) (λ x, l_emit R [CreatingStarted x]) (l_memo R)
            (child2parentSObjects L) (loadRecords R L) PInv
            (λ _ _, eq_refl) (λ _ _ _, eq_refl) Hwork _ _ _ _ _
            fuel s st o st' (λ _, False) _ HI Hw).
  - intros pending fail st1 x [H _] Hx. by destruct (li_pending _ _ _ _ _ H x Hx).
  - intros pending st1 x o1 [H _] Hx.
    by destruct (li_outcomes _ _ _ _ _ H x o1 Hx) as [?|(? & ? & ?)].
  - intros pending st1 x [H1 H2] Hc Hnp. split.
    + by apply LoadInv_enter.
    + by apply LoadPayload_enter.
  - intros pending fail st1 x e [H1 H2] Hnp Hfail. split.
    + by apply (LoadInv_reject R L w0 pending fail).
    + apply LoadPayload_reject; [done|]. by eapply Hnone.
  - intros pending st1 x [H1 H2] Hnp Hns. split.
    + by apply LoadInv_work.
    + apply LoadPayload_work; [done|]. by eapply Hnone.
  - intros x [].
Qed.
End PayloadFacts.

Section PayloadClaim.
Import Js Loader Props Trace Leaves Payload.
Context (R : RemoteStore) (L : loader).

Lemma loadData_payload fuel w res w' log :
  loadData R L fuel w = Some (res, w', log) →
  ∃ st', LoadPayload L w st' ∧ l_log R st' = log.
Proof.
  unfold loadData.
  set (st0 := {| l_world := w; old2newId := ∅; l_cache := ∅; l_log := [] |}).
  assert (H0 : LoadInv L w (λ _, False) None st0 ∧ LoadPayload L w st0).
  { split; split; simpl; try done.
    - constructor.
    - intros x H. by apply not_elem_of_nil in H.
    - intros x [? H]. by rewrite lookup_empty in H.
    - intros x recs H. by apply not_elem_of_nil in H.
    - intros x p m H. by apply not_elem_of_nil in H.
    - intros f ids H. by apply not_elem_of_nil in H.
    - intros x res0 H. by apply not_elem_of_nil in H.
    - intros l1 C m l2 H. by destruct l1.
    - intros x m H. by apply not_elem_of_nil in H.
    - intros x m m' H. by apply not_elem_of_nil in H.
    - intros x recs H. by apply not_elem_of_nil in H. }
  destruct (forAwait _ (sobjects L) st0) as [[o st']|] eqn:Hfa; [|done].
  apply (forAwait_inv (l_cache R)
           (λ fail st, LoadInv L w (λ _, False) fail st ∧ LoadPayload L w st)
           _ (sobjects L) st0)
    with (done := []) in Hfa as ([HI HM] & _ & Hall); try done.
  - destruct o as [|e]; intros [= <- <- <-]; by exists st'.
  - intros done x rest st1 o1 st2 _ HI1 _ _ Hx.
    by apply (loadSObjectData_payload R L w fuel x).
  - intros z Hz. by apply not_elem_of_nil in Hz.
Qed.

(** X25.  What [loadData] sends to the create of a collection.  The
    records announced before the create of a collection [C] come from
    the records [C] had at the start of the run, and the resolution of
    [C] started once, reading one identity map.  When none of the texts
    of those records is taken for a query, the records sent are the
    records of the start in which every text is exchanged for what that
    identity map holds for it, without their [id] field. *)
Theorem create_receives_the_exchanged_records (fuel : nat) (w : world R)
    res w' log C recs :
  loadData R L fuel w = Some (res, w', log) →
  BeforeCreating C recs ∈ log →
  ∃ m records,
    Resolving C m ∈ log ∧ (∀ m', Resolving C m' ∈ log → m' = m) ∧
    sobject2records w !! C = Some records ∧
    (queryFree records →
     recs = map (λ r, delete_key "id" (exchangeRecord m r)) records).
Proof.
  intros Hrun Hin. apply loadData_payload in Hrun as (st' & HP & <-).
  destruct (lp_payload _ _ _ HP C recs Hin) as (m & records & Hm & Hw & Hrecs).
  exists m, records. split; [done|]. split; [|done].
  intros m' Hm'. by apply (lp_unique _ _ _ HP C).
Qed.
End PayloadClaim.

Lemma create_receives_the_exchanged_records_witness :
  ∃ m records,
    Loader.Resolving "Child" m ∈ Demo.loadedTrace ∧
    (∀ m', Loader.Resolving "Child" m' ∈ Demo.loadedTrace → m' = m) ∧
    Loader.sobject2records (Demo.before [] ∅) !! "Child" = Some records ∧
    (Payload.queryFree records →
     [[("parentRef", Js.VStr "Parent-0")]] =
     map (λ r, Js.delete_key "id" (Payload.exchangeRecord m r)) records).
Proof.
  assert (Hrun : ∃ res,
            Loader.loadData Demo.accepting Demo.parentChild.1 3
              (Demo.before [] ∅) = Some (res, Demo.loaded, Demo.loadedTrace)).
  { eexists. vm_compute. reflexivity. }
  destruct Hrun as [res Hrun].
  apply (create_receives_the_exchanged_records Demo.accepting
           Demo.parentChild.1 3 (Demo.before [] ∅) res Demo.loaded
           Demo.loadedTrace "Child" [[("parentRef", Js.VStr "Parent-0")]] Hrun).
  vm_compute. repeat constructor.
Defined.

(** * Runs that nothing refuses *)

Section ResolverProgress.
Import Js Regex Loader Props Payload.
Context (R : RemoteStore) (L : loader) (rs : rstate R) (m : gmap string string).
Hypothesis finds : alwaysFinds R.

Local Abbreviation resolve := (getFieldValue R L rs m).

Lemma overFields_succeeds fs :
  Forall (λ kv : string * value, (resolve kv.2).2 = None) fs →
  (overFields resolve fs).2 = None.
Proof.
  induction 1 as [|[k v] fs Hv _ IH]; [done|]. simpl in *.
  destruct (resolve v) as [[ev1 v'] e1].
  destruct (overFields _ fs) as [[ev2 fs'] e2]. simpl in *. by subst.
Qed.

Lemma overElems_succeeds l :
  Forall (λ v, (resolve v).2 = None) l → (overElems resolve l).2 = None.
Proof.
  induction 1 as [|v l Hv _ IH]; [done|]. simpl in *.
  destruct (resolve v) as [[ev1 v'] e1].
  destruct (overElems _ l) as [[ev2 l'] e2]. simpl in *. by subst.
Qed.

Lemma getFieldValue_succeeds v : (resolve v).2 = None.
Proof.
  induction v as [ | b | r | s | l IH | fs IH | n] using value_ind_nested;
    try done.
  - cbn [getFieldValue]. unfold fromIdentityMap.
    destruct (match_ 4 SOQL_REGEX s) as [matches|];
      [|by destruct (truthy _)].
    destruct (bool_decide _); [|by destruct (truthy _)].
    by destruct (finds rs
                   (tooling L (default "" (mjoin (matches !! 2%nat))))
                   (default "" (mjoin (matches !! 2%nat)))
                   (default "" (mjoin (matches !! 3%nat)))
                   (default "" (mjoin (matches !! 1%nat))))
      as (Id & data & ->).
  - cbn [getFieldValue]. pose proof (overElems_succeeds l IH) as H.
    by destruct (overElems _ l) as [[ev l'] e].
  - cbn [getFieldValue]. pose proof (overFields_succeeds fs IH) as H.
    by destruct (overFields _ fs) as [[ev fs'] e].
Qed.

Lemma updateAll_succeeds records : (updateAll R L rs m records).2 = None.
Proof.
  induction records as [|r records IH]; [done|]. simpl.
  unfold updateFieldValues.
  pose proof (overFields_succeeds r) as Hr.
  destruct (overFields _ r) as [[ev1 r'] e1].
  destruct (updateAll R L rs m records) as [[ev2 rest'] e2]. simpl in *.
  rewrite Hr, IH; [done|].
  apply Forall_forall. intros kv _. apply getFieldValue_succeeds.
Qed.
End ResolverProgress.

Section WorkProgress.
Import Js Loader Props Trace Payload.
Context (R : RemoteStore) (L : loader).

Lemma loadRecords_resolves s st :
  alwaysFinds R → alwaysCreates R →
  is_Some (sobject2records (l_world R st) !! s) →
  (loadRecords R L s st).1 = Resolved ∧
  ∀ x, is_Some (sobject2records (l_world R st) !! x) →
       is_Some (sobject2records (l_world R (loadRecords R L s st).2) !! x).
Proof.
  intros Hfinds Hcreates [records Hs]. unfold loadRecords. rewrite Hs.
  pose proof (updateAll_succeeds R L (remote (l_world R st)) (old2newId R st)
                Hfinds records) as Hu.
  destruct (updateAll _ _ _ _ _) as [[lookups resolved] failure].
  simpl in Hu. subst failure.
  destruct (Hcreates (remote (l_world R st)) (tooling L s) s
              (map (delete_key "id") resolved)) as (newRecords & Hc & Hok).
  destruct (create R _ _ _ _) as [res remote']. simpl in Hc. subst res.
  unfold failing in Hok. rewrite Hok. simpl. split; [done|].
  intros x Hx. destruct (decide (x = s)) as [->|Hne].
  - rewrite lookup_insert_eq. eauto.
  - by rewrite lookup_insert_ne.
Qed.

Lemma deleteRecords_resolves s st :
  alwaysDestroys R → (deleteRecords R L s st).1 = Resolved.
Proof.
  intros [Hfind Hdestroy]. unfold deleteRecords.
  destruct (FileSystem.readJSONFile _ _) as [err|ids]; [done|].
  destruct (Hfind (d_remote R st) (tooling L s) s ids) as [recs ->].
  destruct (Hdestroy (d_remote R st) (tooling L s) s recs) as (ress & Hd & Hok).
  destruct (destroy R _ _ _ _) as [res remote']. simpl in Hd. subst res.
  unfold refused in Hok. by rewrite Hok.
Qed.
End WorkProgress.

Section Progress.
Import Js Loader Props Trace Payload.
Context (R : RemoteStore) (idsPath : string) (toolingNames : list string)
  (listing : list (string * list record)).

Local Abbreviation L := (getDataLoader idsPath toolingNames listing).1.
Local Abbreviation store := (getDataLoader idsPath toolingNames listing).2.

Lemma built_has_parents s :
  s ∈ sobjects L → is_Some (child2parentSObjects L !! s).
Proof.
  intros Hs. simpl in *.
  rewrite build_child2parentSObjects_lookup, decide_True by done. eauto.
Qed.

(** Every collection has records in the store that [getDataLoader]
    builds. *)
Lemma built_store_defined s : s ∈ sobjects L → is_Some (store !! s).
Proof.
  simpl. intros Hs.
  destruct (last_position _ s Hs) as (l1 & l2 & Heq & Hl2).
  unfold zipObject. rewrite Heq, zipObjectInto_last by done.
  apply lookup_lt_is_Some. rewrite length_map.
  rewrite <- (length_map fst), Heq, length_app. simpl. lia.
Qed.

(** X26.  A load that nothing refuses resolves.  Over an acyclic graph,
    when the remote store answers every lookup with a record and
    reports every create as a success, and every collection has records
    in the store, [loadData] returns and resolves with an identity
    map. *)
Theorem loadData_resolves_when_nothing_refuses (w : world R) :
  acyclic L → alwaysFinds R → alwaysCreates R →
  (∀ x, x ∈ sobjects L → is_Some (sobject2records w !! x)) →
  ∃ N, ∀ fuel, (N ≤ fuel)%nat →
    ∃ m w' log, loadData R L fuel w = Some (inr m, w', log).
Proof.
  intros Hacyclic Hfinds Hcreates Hstore.
  destruct (built_returns idsPath toolingNames listing R Hacyclic) as [N HN].
  exists N. intros fuel Hfuel.
  destruct (HN fuel Hfuel w) as [[[[res w'] log] Hrun] _].
  destruct res as [e|m]; [exfalso|by eauto].
  pose (P := λ st : lstate R,
          (∀ x, x ∈ sobjects L →
                is_Some (sobject2records (l_world R st) !! x)) ∧
          ∀ x o, l_cache R st !! x = Some o → o = Resolved).
  revert Hrun. unfold loadData.
  set (st0 := {| l_world := w; old2newId := ∅; l_cache := ∅; l_log := [] |}).
  destruct (forAwait _ (sobjects L) st0) as [[o st']|] eqn:Hfa; [|done].
  apply (forAwait_keeps P (λ o, o = Resolved) eq_refl) in Hfa as [Ho _];
    [by rewrite Ho| |].
  - intros x st1 o1 st2 Hx HP1 Hw. rewrite loadSObjectData_walk in Hw.
    apply (walk_keeps (l_cache R) (λ x, l_emit R [CreatingStarted x]) (l_memo R)
             (child2parentSObjects L) (loadRecords R L)
             (λ s, s ∈ sobjects L) P (λ o, o = Resolved) eq_refl)
      in Hw; try done.
    + apply built_parents_in.
    + intros s Hs Hnone. destruct (built_has_parents s Hs) as [ns Hns].
      congruence.
    + intros st x0 o0 [_ Hc] Hx0. by apply (Hc x0).
    + intros s st Hs [Hst Hc].
      destruct (loadRecords_resolves R L s st Hfinds Hcreates (Hst s Hs))
        as [Ho Hkeep].
      split; [done|]. split.
      * intros x0 Hx0. cbn [l_memo l_world]. by apply Hkeep, Hst.
      * intros x0 o0. cbn [l_memo l_cache].
        destruct (loadRecords_worked R L s st) as [added W].
        rewrite (wk_cache _ _ _ _ _ _ W).
        destruct (decide (x0 = s)) as [->|Hne].
        -- rewrite lookup_insert_eq, Ho. congruence.
        -- rewrite lookup_insert_ne by done. apply Hc.
  - split; [done|]. intros x o0 H. simpl in H. by rewrite lookup_empty in H.
Qed.

(** X27.  A delete that the remote store does not refuse resolves,
    whatever the disk holds.  Over an acyclic graph, when the remote
    store answers the lookup of the ids and reports every destroy as a
    success, [deleteLoadedData] returns and resolves: a missing or
    unreadable identifier file never fails it. *)
Theorem deleteLoadedData_resolves_when_nothing_refuses (w : world R) :
  acyclic L → alwaysDestroys R →
  ∃ N, ∀ fuel, (N ≤ fuel)%nat →
    ∃ w' log, deleteLoadedData R L fuel w = Some (Resolved, w', log).
Proof.
  intros Hacyclic Hdestroys.
  destruct (built_returns idsPath toolingNames listing R Hacyclic) as [N HN].
  exists N. intros fuel Hfuel.
  destruct (HN fuel Hfuel w) as [_ [[[o w'] log] Hrun]].
  exists w', log. rewrite Hrun. do 3 f_equal.
  apply (deleteLoadedData_keeps R L (λ s, s ∈ sobjects L)
           (λ st, ∀ x o, d_cache R st !! x = Some o → o = Resolved)
           (λ o, o = Resolved)) in Hrun as [Ho _]; try done.
  - apply built_children_in.
  - intros s Hs Hnone.
    destruct (built_has_children idsPath toolingNames listing s Hs) as [ns Hns].
    congruence.
  - intros st x o0 Hc Hx. by apply (Hc x).
  - intros s st Hs Hc.
    pose proof (deleteRecords_resolves R L s st Hdestroys) as Ho.
    split; [done|]. intros x o0. cbn [d_memo d_cache].
    assert (Hcache : d_cache R (deleteRecords R L s st).2 = d_cache R st).
    { unfold deleteRecords. by repeat case_match. }
    rewrite Hcache. destruct (decide (x = s)) as [->|Hne].
    + rewrite lookup_insert_eq, Ho. congruence.
    + rewrite lookup_insert_ne by done. apply Hc.
Qed.
End Progress.

Section DemoStores.
Import Js Loader Props Trace Payload.

Lemma demo_create_succeeds (sobject : string) (records : list record) :
  ∀ f : nat → string,
    failing (imap (λ i _, {| success := true; id := f i |}) records) = false.
Proof.
  induction records as [|r records IH]; intros f; [done|].
  simpl. apply (IH (f ∘ S)).
Qed.

Lemma answering_alwaysFinds : alwaysFinds DemoQuery.answering.
Proof. intros rs t soqlFrom soqlWhere soqlSelect. by exists "001", []. Qed.

Lemma answering_alwaysCreates : alwaysCreates DemoQuery.answering.
Proof.
  intros rs t sobject records. eexists. split; [reflexivity|].
  apply (demo_create_succeeds sobject).
Qed.

Lemma accepting_alwaysDestroys : alwaysDestroys Demo.accepting.
Proof.
  split.
  - intros rs t sobject ids. by eexists.
  - intros rs t sobject ids. eexists. split; [reflexivity|].
    unfold refused. by induction ids.
Qed.
End DemoStores.

Lemma loadData_resolves_when_nothing_refuses_witness :
  ∃ N, ∀ fuel, (N ≤ fuel)%nat →
    ∃ m w' log,
      Loader.loadData DemoQuery.answering Demo.parentChild.1 fuel
        (Loader.Build_world (R := DemoQuery.answering) [] ∅ Demo.parentChild.2)
      = Some (inr m, w', log).
Proof.
  apply (loadData_resolves_when_nothing_refuses DemoQuery.answering "/ids" []
           Demo.listing
           (Loader.Build_world (R := DemoQuery.answering) [] ∅
              Demo.parentChild.2)
           Demo_acyclic answering_alwaysFinds answering_alwaysCreates).
  intros x Hx. apply (built_store_defined "/ids" [] Demo.listing x Hx).
Defined.

Lemma deleteLoadedData_resolves_when_nothing_refuses_witness :
  ∃ N, ∀ fuel, (N ≤ fuel)%nat →
    ∃ w' log,
      Loader.deleteLoadedData Demo.accepting Demo.parentChild.1 fuel
        Demo.loaded = Some (Resolved, w', log).
Proof.
  exact (deleteLoadedData_resolves_when_nothing_refuses Demo.accepting "/ids" []
           Demo.listing Demo.loaded Demo_acyclic accepting_alwaysDestroys).
Defined.

